(** * Swarm simulation server: a shallow embedding of [sim_pkg/simulator.py]

    The development follows the structure of the server:

    - [Numeric]   : Python/numpy arithmetic on floats, idealised over the reals;
    - [Codec]     : the wire decoder [msg_decode];
    - [Robot]     : [BotDiffDrive] with [dynamics] and [integrate];
    - [Relay]     : the message buffers (a heap of list objects, so that the
                    aliasing created by [[[]] * n] is visible) and
                    [update_msg_buffer];
    - [World]     : [check_collision], [integrate_world], [update_time];
    - [Server]    : sockets, [get_data] and the read pass of [loop];
    - [Float]     : the arithmetic of doubles, with its rounding, for
                    [dynamics], [integrate] and the wrap of the heading;
    - [NotANumber]: the comparisons of [integrate_world] on floats that may
                    be NaN.

    In [Numeric], [Robot] and [World] floats are the real numbers [R]:
    comparisons and the order of the operations are those of the source,
    rounding is left out, and what is proved there does not depend on it.
    Where a property does depend on the rounding, it is stated on [Float].
    Python exceptions (and a [recv] that never returns) are the [None] of
    an option-valued result. *)

From Stdlib Require Import Reals Lra Lia ZArith Ascii String.
From stdpp Require Import base decidable option list gmap.
From stdpp Require Import strings pretty.

(** ** Numeric: Python arithmetic over the reals *)

Module Numeric.
Local Open Scope R_scope.

#[export] Instance Rlt_decision : RelDecision Rlt := Rlt_dec.
#[export] Instance Rle_decision : RelDecision Rle := Rle_dec.
#[export] Instance Rgt_decision : RelDecision Rgt := Rgt_dec.

(** [a % m] on floats: the result has the sign of the divisor,
    [a - m * floor (a / m)]. *)
Definition py_mod (a m : R) : R := a - m * IZR (Zfloor (a / m)).

(** The built-ins [max(a, b)] and [min(a, b)]: the first argument is kept
    unless the second is strictly greater (resp. smaller). *)
Definition py_max (a b : R) : R := if decide (a < b) then b else a.
Definition py_min (a b : R) : R := if decide (b < a) then b else a.

(** [np.sqrt((x1 - x2)**2 + (y1 - y2)**2)] *)
Definition dist (x1 y1 x2 y2 : R) : R := sqrt ((x1 - x2) ^ 2 + (y1 - y2) ^ 2).

End Numeric.

(** ** Codec: the wire format and [msg_decode] *)

Module Codec.
Local Open Scope char_scope.

(** A decoded packet is a sequence of characters; [bytes] received from a
    socket are sequences of the same characters: on bytes below 128,
    [msg.decode('utf-8')] is the identity.  What the decoder does with
    other bytes (a [UnicodeDecodeError], or characters beyond ASCII, which
    [int] treats by the Unicode tables) is outside this model. *)
Definition str := list ascii.
Definition bytes := list ascii.

(** Every byte is below 128. *)
Definition ascii_only (msg : bytes) : Prop :=
  Forall (λ c, (nat_of_ascii c < 128)%nat) msg.

(** An element of [data_arr]: a Python [int] produced by [int(num, 2)], or
    a [str]. *)
Inductive field :=
  | FInt (n : N)
  | FStr (s : str).

#[export] Instance field_eq_dec : EqDecision field.
Proof. solve_decision. Defined.

(** [[_.start() for _ in re.finditer('0b', packet)]]: the scan goes left to
    right, a match consumes its two characters.  [p] is the position of the
    head of [packet] in the whole packet. *)
Fixpoint finditer_0b (p : nat) (packet : str) : list nat :=
  match packet with
  | [] => []
  | c :: rest =>
      match rest with
      | [] => []
      | c' :: rest' =>
          if Ascii.eqb c "0" && Ascii.eqb c' "b"
          then p :: finditer_0b (p + 2) rest'
          else finditer_0b (p + 1) rest
      end
  end.

(** [packet[a:b]] for non-negative bounds. *)
Definition slice (a b : nat) (packet : str) : str := take (b - a) (drop a packet).

(** [int(num, 2)] on a slice of ASCII characters that starts with the
    marker: binary digits, single underscores between digits (and after
    the prefix), trailing white space.  Anything else raises [ValueError].
    The white space of [int] on an ASCII [str] is that of C: tab, line
    feed, vertical tab, form feed, carriage return and space. *)
Definition bin_digit (c : ascii) : option N :=
  if Ascii.eqb c "0" then Some 0%N
  else if Ascii.eqb c "1" then Some 1%N
  else None.

Definition is_bin (c : ascii) : Prop := c = "0" ∨ c = "1".

Definition is_space (c : ascii) : bool :=
  let n := nat_of_ascii c in
  ((9 <=? n) && (n <=? 13) || (n =? 32))%nat.

Inductive int_state := AfterPrefix | AfterDigit | AfterUnderscore | Trailing.

Fixpoint int_digits (st : int_state) (acc : N) (s : str) : option N :=
  match s with
  | [] => match st with
          | AfterDigit | Trailing => Some acc
          | AfterPrefix | AfterUnderscore => None
          end
  | c :: s' =>
      match bin_digit c with
      | Some d =>
          match st with
          | Trailing => None
          | _ => int_digits AfterDigit (2 * acc + d)%N s'
          end
      | None =>
          if Ascii.eqb c "_" then
            match st with
            | AfterPrefix | AfterDigit => int_digits AfterUnderscore acc s'
            | _ => None
            end
          else if is_space c then
            match st with
            | AfterDigit | Trailing => int_digits Trailing acc s'
            | _ => None
            end
          else None
      end
  end.

Definition py_int_base2 (num : str) : option N :=
  match num with
  | "0" :: "b" :: body => int_digits AfterPrefix 0%N body
  | _ => None
  end.

(** The body of the loop of [msg_decode]: [num[2]] raises [IndexError] on a
    field that is the bare marker. *)
Definition decode_field (num : str) : option field :=
  c ← num !! 2%nat;
  if Ascii.eqb c "1" || Ascii.eqb c "0"
  then FInt <$> py_int_base2 num
  else Some (FStr (drop 2 num)).

(** [for i in range(len(result)-1): num = packet[result[i]:result[i+1]]]:
    the loop visits the consecutive pairs of [result]. *)
Fixpoint decode_loop (packet : str) (result : list nat) : option (list field) :=
  match result with
  | [] => Some []
  | a :: rest =>
      match rest with
      | [] => Some []
      | b :: _ =>
          f ← decode_field (slice a b packet);
          fs ← decode_loop packet rest;
          Some (f :: fs)
      end
  end.

Definition msg_decode (msg : bytes) : option (list field) :=
  let packet := msg in
  let result := finditer_0b 0 packet ++ [length packet] in
  decode_loop packet result.

(** Modelled from the spec: the encoder runs in the robot clients, which
    are not part of the server source.  An integer field is the marker
    followed by its binary digits (Python's [bin]), a string field is the
    marker followed by the text; a frame is the concatenation of its
    fields. *)
Fixpoint pos_digits (p : positive) : str :=
  match p with
  | xH => ["1"]
  | xO p' => pos_digits p' ++ ["0"]
  | xI p' => pos_digits p' ++ ["1"]
  end.

Definition bin_digits (n : N) : str :=
  match n with
  | N0 => ["0"]
  | Npos p => pos_digits p
  end.

Definition encode_field (f : field) : str :=
  match f with
  | FInt n => "0" :: "b" :: bin_digits n
  | FStr text => "0" :: "b" :: text
  end.

Definition encode_frame (fs : list field) : str := concat (map encode_field fs).

(** The text contains the two characters of the marker next to each other. *)
Fixpoint contains_0b (s : str) : bool :=
  match s with
  | [] => false
  | c :: rest =>
      match rest with
      | [] => false
      | c' :: _ => Ascii.eqb c "0" && Ascii.eqb c' "b" || contains_0b rest
      end
  end.

(** A string field as the claim describes it: the text is not empty and
    its first character is neither [0] nor [1]. *)
Definition opaque_text (text : str) : bool :=
  match text with
  | [] => false
  | c :: _ => negb (Ascii.eqb c "1" || Ascii.eqb c "0")
  end.

Definition field_ok (f : field) : bool :=
  match f with
  | FInt _ => true
  | FStr text => opaque_text text
  end.

(** ... and, in addition, the text is free of the marker. *)
Definition field_marker_free (f : field) : bool :=
  match f with
  | FInt _ => true
  | FStr text => negb (contains_0b text)
  end.

Definition of_string (s : string) : str := list_ascii_of_string s.

End Codec.

(** ** Robot: [BotDiffDrive] *)

Module Robot.
Import Numeric Codec.
Local Open Scope R_scope.

(** The fields of [BotDiffDrive] that the server reads or writes.  The two
    wheel constants are set by [__init__] and never assigned again. *)
Record BotDiffDrive := mkBot {
  id : nat;
  pos_x : R;
  pos_y : R;
  pos_angle : R;
  clk : R;
  usr_led : field * field * field
}.

Definition radius_of_wheel : R := 15 / 1000.
Definition distance_between_wheel : R := 4 / 100.

Definition set_pos_x (v : R) (b : BotDiffDrive) : BotDiffDrive :=
  mkBot (id b) v (pos_y b) (pos_angle b) (clk b) (usr_led b).
Definition set_pos_y (v : R) (b : BotDiffDrive) : BotDiffDrive :=
  mkBot (id b) (pos_x b) v (pos_angle b) (clk b) (usr_led b).
Definition set_pos_angle (v : R) (b : BotDiffDrive) : BotDiffDrive :=
  mkBot (id b) (pos_x b) (pos_y b) v (clk b) (usr_led b).
Definition set_clk (v : R) (b : BotDiffDrive) : BotDiffDrive :=
  mkBot (id b) (pos_x b) (pos_y b) (pos_angle b) v (usr_led b).
Definition set_usr_led (v : field * field * field) (b : BotDiffDrive) : BotDiffDrive :=
  mkBot (id b) (pos_x b) (pos_y b) (pos_angle b) (clk b) v.

(** [BotDiffDrive(id_=k)] *)
Definition new_bot (k : nat) : BotDiffDrive :=
  mkBot k 0 0 0 0 (FInt 0, FInt 0, FInt 0).

(** A pose [pos]: [pos[0]] is the heading, [pos[1]] and [pos[2]] are x, y. *)
Record pose := mkPose { heading : R; px : R; py : R }.

(** [dynamics]: the first three rows of [state_matrix @ vel_vector], added
    to the current pose.  The cosine and sine are those of the heading
    before the step. *)
Definition dynamics (self : BotDiffDrive) (v_left v_right : R) : pose :=
  let pos_angle_ := pos_angle self in
  let r := radius_of_wheel in
  let d := distance_between_wheel in
  let pos0 := - r / (2 * d) * v_left + r / (2 * d) * v_right in
  let pos1 := r * cos pos_angle_ / 2 * v_left + r * cos pos_angle_ / 2 * v_right in
  let pos2 := r * sin pos_angle_ / 2 * v_left + r * sin pos_angle_ / 2 * v_right in
  mkPose (pos_angle self + pos0) (pos_x self + pos1) (pos_y self + pos2).

(** [integrate]: [pos[0] = (pos[0] + np.pi) % (2 * np.pi) - np.pi] *)
Definition integrate (self : BotDiffDrive) (u_left u_right delta_time : R) : pose :=
  let pos := dynamics self (u_left * delta_time) (u_right * delta_time) in
  mkPose (py_mod (heading pos + PI) (2 * PI) - PI) (px pos) (py pos).

(** No robot's clock is earlier in [after] than in [before]. *)
Definition clocks_le (before after : list BotDiffDrive) : Prop :=
  Forall2 (λ r r', clk r <= clk r') before after.

End Robot.

(** ** Python control flow and containers *)

Module Py.

(** [for i in range_: body]; an exception in the body leaves the loop. *)
Fixpoint for_each {A S : Type} (body : A → S → option S) (range_ : list A) (s : S)
  : option S :=
  match range_ with
  | [] => Some s
  | i :: rest => s' ← body i s; for_each body rest s'
  end.

(** [range(a, b)] *)
Definition range (a b : nat) : list nat := seq a (b - a).

(** [l[k]] for an integer [k]: negative indices count from the end,
    anything outside raises [IndexError]. *)
Definition index (k : Z) (len : nat) : option nat :=
  if decide (0 ≤ k < Z.of_nat len)%Z then Some (Z.to_nat k)
  else if decide (- Z.of_nat len ≤ k < 0)%Z then Some (Z.to_nat (Z.of_nat len + k))
  else None.

(** [l[-c:]]: for [c = 0] this is [l[0:]], the whole list; for a negative
    [c] the slice starts at index [-c]. *)
Definition slice_last {A : Type} (c : Z) (l : list A) : list A :=
  if decide (c = 0)%Z then l
  else if decide (0 < c)%Z then drop (length l - Z.to_nat c) l
  else drop (Z.to_nat (- c)) l.

End Py.

(** ** Configuration *)

(** Modelled from the spec: [Configuration] is defined in [sim_pkg/config.py],
    which is not part of the sources at hand.  These are the attributes
    that the modelled functions read, with the types of their uses. *)
Record Configuration := mkConfig {
  num_robots : nat;
  comm_range : R;
  packet_pass_rate : R;
  msg_buffer_size : Z;
  robot_diameter : R;
  robot_radius : R;
  arena_width : R;
  arena_height : R;
  max_motor_speed : R
}.

(** ** Relay: message buffers and [update_msg_buffer] *)

Module Relay.
Import Numeric Codec Robot Py.

(** [msg_buffer] is a Python list whose elements are references to list
    objects.  [objects] is the store of list objects, addressed by
    position; [cells] holds, for every robot, the address its element of
    [msg_buffer] refers to.  Two cells with the same address alias one
    list. *)
Record MsgBuffer := mkBuf {
  objects : list (list bytes);
  cells : list nat
}.

(** [[[]] * n]: one empty list object, [n] references to it. *)
Definition replicated_empty (n : nat) : MsgBuffer := mkBuf [[]] (replicate n 0).

(** [[[] for _ in range(n)]]: [n] list objects of their own (what a caller
    passes that wants independent buffers). *)
Definition separate_empty (n : nat) : MsgBuffer := mkBuf (replicate n []) (seq 0 n).

(** The contents seen through [msg_buffer[i]]. *)
Definition buffer_of (mb : MsgBuffer) (i : nat) : option (list bytes) :=
  a ← cells mb !! i; objects mb !! a.

(** [msg_buffer[i].append(msg)]: the object is changed in place. *)
Definition append (i : nat) (msg : bytes) (mb : MsgBuffer) : option MsgBuffer :=
  a ← cells mb !! i;
  l ← objects mb !! a;
  Some (mkBuf (<[a := l ++ [msg]]> (objects mb)) (cells mb)).

(** [msg_buffer[i] = l]: a new object, and cell [i] alone refers to it. *)
Definition rebind (i : nat) (l : list bytes) (mb : MsgBuffer) : option MsgBuffer :=
  if decide (i < length (cells mb)) then
    Some (mkBuf (objects mb ++ [l]) (<[i := length (objects mb)]> (cells mb)))
  else None.

Section relay.
Context (config : Configuration).
(** The sequence of values returned by the calls of [np.random.uniform()]. *)
Context (uniform : nat → R).

(** The state of the loop of [update_msg_buffer]: the (possibly truncated)
    payload, the buffers and the number of random draws made so far. *)
Record relay_state := mkRelay {
  payload : bytes;
  buffers : MsgBuffer;
  draws : nat
}.

Definition range_of_val (robot_id num_of_robot : nat) : list nat :=
  if decide (robot_id = num_of_robot) then range 0 robot_id
  else range 0 (robot_id - 1) ++ range robot_id num_of_robot.

(** [if len(msg) > MSG_BUFFER_SIZE: msg = msg[:MSG_BUFFER_SIZE]] *)
Definition truncate (MSG_BUFFER_SIZE : nat) (msg : bytes) : bytes :=
  if decide (MSG_BUFFER_SIZE < length msg) then take MSG_BUFFER_SIZE msg else msg.

(** The delivery into [msg_buffer[i]]: the payload stays truncated for the
    rest of the loop. *)
Definition deliver (MSG_BUFFER_SIZE : nat) (i : nat) (st : relay_state)
  : option relay_state :=
  let msg := truncate MSG_BUFFER_SIZE (payload st) in
  mb ← append i msg (buffers st);
  l ← buffer_of mb i;
  if decide (msg_buffer_size config < Z.of_nat (length l))%Z
  then mb' ← rebind i (slice_last (msg_buffer_size config) l) mb;
       Some (mkRelay msg mb' (draws st))
  else Some (mkRelay msg mb (draws st)).

Definition relay_body (MSG_BUFFER_SIZE : nat) (ref_x ref_y : R)
    (robot_states : list BotDiffDrive) (i : nat) (st : relay_state)
  : option relay_state :=
  cur ← robot_states !! i;
  let d := dist ref_x ref_y (pos_x cur) (pos_y cur) in
  if decide (d < comm_range config)%R then
    let random_bool := bool_decide (uniform (draws st) < packet_pass_rate config)%R in
    let st := mkRelay (payload st) (buffers st) (S (draws st)) in
    if random_bool then deliver MSG_BUFFER_SIZE i st else Some st
  else Some st.

Definition update_msg_buffer (msg_buffer : MsgBuffer) (MSG_BUFFER_SIZE num_of_robot : nat)
    (msg : bytes) (robot_id : nat) (robot_states : list BotDiffDrive) (ndraws : nat)
  : option relay_state :=
  ref ← robot_states !! robot_id;
  let ref_x := pos_x ref in
  let ref_y := pos_y ref in
  for_each (relay_body MSG_BUFFER_SIZE ref_x ref_y robot_states)
           (range_of_val robot_id num_of_robot)
           (mkRelay msg msg_buffer ndraws).

End relay.
End Relay.

(** ** World: collision check and integration *)

Module World.
Import Numeric Codec Robot Py.

Section world.
Context (config : Configuration).

(** [check_collision]: the flag starts [True] and is cleared by every robot
    [j ≠ i] whose stored position is within the diameter of [pos]. *)
Definition check_collision (pos : pose) (robot_states : list BotDiffDrive)
    (i num_of_robot : nat) : option bool :=
  let range_of_val := range 0 i ++ range (i + 1) num_of_robot in
  for_each (fun j collision_flag_ =>
              other ← robot_states !! j;
              let d := dist (pos_x other) (pos_y other) (px pos) (py pos) in
              if decide (d <= robot_diameter config)%R then Some false
              else Some collision_flag_)
           range_of_val true.

(** The clipping of one coordinate: [max] with the lower wall, then [min]
    with the upper wall. *)
Definition clip (v extent : R) : R :=
  py_min (py_max v (- extent / 2 + robot_radius config)%R)
         (extent / 2 - robot_radius config)%R.

(** The body of the loop of [integrate_world] for robot [i]; the list of
    robots is updated in place. *)
Definition integrate_robot (num_of_robot : nat) (wheel_vel_arr : list (R * R))
    (dt sim_time : R) (i : nat) (robot_states : list BotDiffDrive)
  : option (list BotDiffDrive) :=
  wheel_vel ← wheel_vel_arr !! i;
  let u_l := wheel_vel.1 in
  let u_r := wheel_vel.2 in
  self ← robot_states !! i;
  let pos := integrate self u_l u_r dt in
  let robot_states := <[i := set_pos_angle (heading pos) self]> robot_states in
  ok ← check_collision pos robot_states i num_of_robot;
  self ← robot_states !! i;
  let self := if (ok : bool) then set_pos_y (py pos) (set_pos_x (px pos) self) else self in
  let self := set_pos_x (clip (pos_x self) (arena_width config)) self in
  let self := set_pos_y (clip (pos_y self) (arena_height config)) self in
  let self := set_clk (py_max (clk self) sim_time) self in
  Some (<[i := self]> robot_states).

Definition integrate_world (robot_states : list BotDiffDrive) (num_of_robot : nat)
    (wheel_vel_arr : list (R * R)) (dt sim_time : R) : option (list BotDiffDrive) :=
  for_each (integrate_robot num_of_robot wheel_vel_arr dt sim_time)
           (range 0 num_of_robot) robot_states.

(** [n] iterations of the main loop during which no command arrives:
    [sim_time_curr += T_sim], then [integrate_world] with [dt = T_sim]. *)
Fixpoint idle_ticks (n : nat) (robot_state : list BotDiffDrive) (num_of_robot : nat)
    (wheel_vel_arr : list (R * R)) (T_sim sim_time_curr : R) : option (list BotDiffDrive) :=
  match n with
  | O => Some robot_state
  | S n' =>
      let sim_time_curr := (sim_time_curr + T_sim)%R in
      robot_state ← integrate_world robot_state num_of_robot wheel_vel_arr T_sim sim_time_curr;
      idle_ticks n' robot_state num_of_robot wheel_vel_arr T_sim sim_time_curr
  end.

(** The arena inset by the robot radius: the positions that the clipping
    of [integrate_world] leaves as they are. *)
Definition inside_arena (x y : R) : Prop :=
  (- arena_width config / 2 + robot_radius config <= x <= arena_width config / 2 - robot_radius config
   ∧ - arena_height config / 2 + robot_radius config <= y
       <= arena_height config / 2 - robot_radius config)%R.


(** [update_time] *)
Definition update_time (robot_state : list BotDiffDrive) (num_of_robot : nat)
    (sim_time : R) : option (list BotDiffDrive) :=
  for_each (fun i robot_state =>
              r ← robot_state !! i;
              if decide (clk r < sim_time)%R
              then Some (<[i := set_clk sim_time r]> robot_state)
              else Some robot_state)
           (range 0 num_of_robot) robot_state.

End world.
End World.

(** ** Server: sockets, [get_data] and the read pass of [loop] *)

Module Server.
Import Numeric Codec Robot Py Relay World.

(** A connected socket: [inbox] lists the chunks that the successive calls
    of [recv] return, [outbox] collects what [sendall] was given.  A [recv]
    on an empty inbox never returns. *)
Record Socket := mkSock {
  inbox : list bytes;
  outbox : list bytes
}.

(** The variables of [loop] that the read pass hands to [get_data], the
    sockets by file descriptor and the state of the random generator. *)
Record State := mkState {
  robot_state : list BotDiffDrive;
  robot_id : list Z;
  msg_buffer : MsgBuffer;
  wheel_vel_arr : list (R * R);
  sockets : gmap Z Socket;
  ndraws : nat
}.

Definition set_robot_state (v : list BotDiffDrive) (w : State) : State :=
  mkState v (robot_id w) (msg_buffer w) (wheel_vel_arr w) (sockets w) (ndraws w).
Definition set_wheel_vel_arr (v : list (R * R)) (w : State) : State :=
  mkState (robot_state w) (robot_id w) (msg_buffer w) v (sockets w) (ndraws w).
Definition set_msg_buffer (v : MsgBuffer) (n : nat) (w : State) : State :=
  mkState (robot_state w) (robot_id w) v (wheel_vel_arr w) (sockets w) n.
Definition set_sockets (v : gmap Z Socket) (w : State) : State :=
  mkState (robot_state w) (robot_id w) (msg_buffer w) (wheel_vel_arr w) v (ndraws w).

(** [current_socket.recv(...)]; a descriptor that is not a connected socket
    (the listening socket) raises. *)
Definition recv (fd : Z) (w : State) : option (bytes * State) :=
  s ← sockets w !! fd;
  match inbox s with
  | [] => None
  | data :: rest =>
      Some (data, set_sockets (<[fd := mkSock rest (outbox s)]> (sockets w)) w)
  end.

(** [current_socket.sendall(data)] *)
Definition sendall (fd : Z) (data : bytes) (w : State) : option State :=
  s ← sockets w !! fd;
  Some (set_sockets (<[fd := mkSock (inbox s) (outbox s ++ [data])]> (sockets w)) w).

Definition ack : bytes := of_string "0b1".

(** What servicing [current_socket] may do to the state: no clock goes
    back and no other socket is read or written. *)
Definition advances (current_socket : Z) (w w' : State) : Prop :=
  clocks_le (robot_state w) (robot_state w') ∧
  ∀ fd, fd ≠ current_socket → sockets w' !! fd = sockets w !! fd.

Section server.
Context (config : Configuration).
Context (uniform : nat → R).
(** Library functions, taken as they are: [int] on a [str], [json.loads]
    followed by the reads of [vel[0]] and [vel[1]], and the formatting of
    the replies. *)
Context (py_int : str → option Z).
Context (json_loads_pair : bytes → option (R * R)).
Context (str_of_len : nat → bytes).
Context (str_of_clock : R → bytes).
Context (json_dumps_pose : R → R → R → bytes).

(** [int(msg[1])] *)
Definition int_of (f : field) : option Z :=
  match f with
  | FInt n => Some (Z.of_N n)
  | FStr s => py_int s
  end.

(** A field used directly as a list index: a [str] raises [TypeError]. *)
Definition as_index (f : field) : option nat :=
  match f with
  | FInt n => Some (N.to_nat n)
  | FStr _ => None
  end.

(** [msg[1] in robot_id] on the array of ids; no [str] is equal to an id. *)
Definition known_id (f : field) (ids : list Z) : bool :=
  match f with
  | FInt n => bool_decide (Z.of_N n ∈ ids)
  | FStr _ => false
  end.

(** [robot_state[int(msg[1])]] *)
Definition robot_index (msg : list field) (w : State) : option nat :=
  f ← msg !! 1%nat;
  k ← int_of f;
  index k (length (robot_state w)).

(** [for j in range(len_): check_data_ = recv(1024); sendall(arr[j])] *)
Definition stream_buffer (fd : Z) (arr : list bytes) (w : State) : option State :=
  for_each (fun data w => '(_, w) ← recv fd w; sendall fd data w) arr w.

Definition get_data (current_socket : Z) (msg : list field) (num_of_robot : nat)
    (MSG_BUFFER_SIZE : nat) (w : State) : option State :=
  opcode ← msg !! 2%nat;
  if decide (opcode = FInt 3) then
    (* delay *)
    i ← robot_index msg w;
    r ← robot_state w !! i;
    millis ← msg !! 3%nat;
    match millis with
    | FInt m =>
        let w := set_robot_state
                   (<[i := set_clk (clk r + IZR (Z.of_N m) / 1000)%R r]> (robot_state w)) w in
        sendall current_socket ack w
    | FStr _ => None
    end
  else if decide (opcode = FInt 2) then
    (* set_led *)
    w ← sendall current_socket ack w;
    id_ ← msg !! 1%nat;
    if known_id id_ (robot_id w) then
      red ← msg !! 3%nat;
      green ← msg !! 4%nat;
      blue ← msg !! 5%nat;
      i ← robot_index msg w;
      r ← robot_state w !! i;
      Some (set_robot_state (<[i := set_usr_led (red, green, blue) r]> (robot_state w)) w)
    else Some w
  else if decide (opcode = FInt 4) then
    (* send_msg *)
    w ← sendall current_socket ack w;
    '(msg_for_buffer, w) ← recv current_socket w;
    w ← sendall current_socket ack w;
    msg_type ← msg !! 3%nat;
    id_ ← msg !! 1%nat;
    sender ← as_index id_;
    st ← update_msg_buffer config uniform (msg_buffer w) MSG_BUFFER_SIZE num_of_robot
            msg_for_buffer sender (robot_state w) (ndraws w);
    Some (set_msg_buffer (buffers st) (draws st) w)
  else if decide (opcode = FInt 5) then
    (* recv_msg *)
    id_ ← msg !! 1%nat;
    i ← as_index id_;
    arr ← buffer_of (msg_buffer w) i;
    w ← sendall current_socket (str_of_len (length arr)) w;
    '(clear_bool, w) ← recv current_socket w;
    w ← sendall current_socket ack w;
    w ← stream_buffer current_socket arr w;
    if decide (clear_bool = of_string "True") then
      mb ← rebind i [] (msg_buffer w);
      Some (set_msg_buffer mb (ndraws w) w)
    else Some w
  else if decide (opcode = FInt 6) then
    (* get_clock *)
    w ← sendall current_socket ack w;
    '(type_time, w) ← recv current_socket w;
    i ← robot_index msg w;
    r ← robot_state w !! i;
    sendall current_socket (str_of_clock (clk r)) w
  else if decide (opcode = FInt 7) then
    (* set wheel velocity *)
    w ← sendall current_socket ack w;
    '(vel, w) ← recv current_socket w;
    w ← sendall current_socket ack w;
    wheel_pow ← json_loads_pair vel;
    let wheel_vel := ((max_motor_speed config * wheel_pow.1 / 100)%R,
                      (max_motor_speed config * wheel_pow.2 / 100)%R) in
    f ← msg !! 1%nat;
    k ← int_of f;
    i ← index k (length (wheel_vel_arr w));
    Some (set_wheel_vel_arr (<[i := wheel_vel]> (wheel_vel_arr w)) w)
  else if decide (opcode = FInt 8) then
    (* get_pose *)
    w ← sendall current_socket ack w;
    '(pose_type, w) ← recv current_socket w;
    i ← robot_index msg w;
    r ← robot_state w !! i;
    sendall current_socket (json_dumps_pose (pos_x r) (pos_y r) (pos_angle r)) w
  else Some w.

(** The variables of [loop] that stay fixed during one read pass. *)
Record Pass := mkPass {
  vis_fd : Z;
  fd_to_id_map : gmap Z nat;
  sim_time_curr : R;
  num_of_robot : nat;
  MSG_BUFFER_SIZE : nat
}.

(** The clock test of [loop] for a readable socket: a socket of
    [fd_to_id_map] whose robot's clock is ahead of [sim_time_curr]. *)
Definition gated (p : Pass) (current_socket : Z) (w : State) : option bool :=
  match fd_to_id_map p !! current_socket with
  | Some rid =>
      r ← robot_state w !! rid;
      Some (bool_decide (clk r > sim_time_curr p)%R)
  | None => Some false
  end.

(** One iteration of [for current_socket in rlist]. *)
Definition service (p : Pass) (current_socket : Z) (w : State) : option State :=
  if decide (current_socket = vis_fd p) then Some w
  else
    skip ← gated p current_socket w;
    if (skip : bool) then Some w
    else
      '(data, w) ← recv current_socket w;
      if decide (length data = 0) then Some w
      else
        msg ← msg_decode data;
        get_data current_socket msg (num_of_robot p) (MSG_BUFFER_SIZE p) w.

(** The read pass of one iteration of the main loop. *)
Definition read_pass (p : Pass) (rlist : list Z) (w : State) : option State :=
  for_each (service p) rlist w.

End server.
End Server.

(** ** Scenarios

    Concrete configurations and robots, used to run the definitions. *)

Module Scenario.
Import Numeric Codec Robot Py Relay World Server.
Local Open Scope R_scope.

(** A robot at [(x, y)] with heading [theta]. *)
Definition bot_at (k : nat) (x y theta : R) : BotDiffDrive :=
  mkBot k x y theta 0 (FInt 0, FInt 0, FInt 0).

(** Two robots, communication range 0.1, pass rate 1.0, buffers of
    [capacity] entries; robots of diameter 1 in an arena of 10 by 10. *)
Definition config_with (capacity : Z) : Configuration :=
  mkConfig 2 (1 / 10) 1 capacity 1 (1 / 2) 10 10 100.

Definition config16 : Configuration := config_with 16.

(** Every random draw is 0.5. *)
Definition half : nat → R := λ _, 1 / 2.

(** Two robots 0.05 apart, and two robots 0.2 apart. *)
Definition near_pair : list BotDiffDrive := [bot_at 0 0 0 0; bot_at 1 (5 / 100) 0 0].
Definition far_pair : list BotDiffDrive := [bot_at 0 0 0 0; bot_at 1 (2 / 10) 0 0].

Definition hello : bytes := of_string "hello".



(** A robot at the right wall that backs off by 0.3, and a robot 1.5 to
    its left that drives 3 to the right. *)
Definition at_wall : list BotDiffDrive := [bot_at 0 (9 / 2) 0 0; bot_at 1 3 0 0].
Definition at_wall_wheels : list (R * R) := [(-20, -20); (200, 200)].

(** A read pass at simulated time 0.1: socket 3 belongs to robot 0, whose
    clock stands at 1; socket 4 belongs to robot 1, whose clock stands at
    0.  Both have a delay command of 2 ms for their robot waiting. *)
Definition pass_now : Pass := mkPass (-1) {[3%Z := 0%nat; 4%Z := 1%nat]} (1 / 10) 2 1792.

Definition two_clients : State :=
  mkState [mkBot 0 0 0 0 1 (FInt 0, FInt 0, FInt 0); bot_at 1 (5 / 100) 0 0]
          [0%Z; 1%Z]
          (replicated_empty 2)
          [(0, 0); (0, 0)]
          {[3%Z := mkSock [of_string "0b00b00b110b10"] [];
            4%Z := mkSock [of_string "0b00b10b110b10"] []]}
          0.

(** Stand-ins for the library functions. *)
Definition no_int : str → option Z := λ _, None.
Definition no_json : bytes → option (R * R) := λ _, None.
Definition plain_len : nat → bytes := λ _, [].
Definition plain_clock : R → bytes := λ _, [].
Definition plain_pose : R → R → R → bytes := λ _ _ _, [].

End Scenario.

(** ** Further functions of the server *)

(** [ForwardKinematics2] and [transform_from_map_to_base] *)

Module Exact.
Import Numeric Codec Robot Py.
Local Open Scope R_scope.

#[export] Instance Req_decision : EqDecision R := Req_dec_T.

(** [ForwardKinematics2]: the twist [V] of the wheel displacements, its
    exact integral [delq_b] in the body frame (the straight case apart),
    and the rotation into the map frame by [mult_mat]. *)
Definition ForwardKinematics2 (self : BotDiffDrive) (u_x u_y : R) : pose :=
  let r := radius_of_wheel in
  let d := distance_between_wheel in
  let V0 := - r * u_x / (2 * d) + r * u_y / (2 * d) in
  let V1 := r * u_x / 2 + r * u_y / 2 in
  let V2 := 0 in
  let delq_b :=
    if decide (V0 = 0) then (0, V1, V2)
    else (V0,
          (V1 * sin V0 + V2 * (cos V0 - 1)) / V0,
          (V2 * sin V0 + V1 * (1 - cos V0)) / V0) in
  let phi := pos_angle self in
  let x := pos_x self in
  let y := pos_y self in
  let delq0 := 1 * delq_b.1.1 + 0 * delq_b.1.2 + 0 * delq_b.2 in
  let delq1 := 0 * delq_b.1.1 + cos phi * delq_b.1.2 + - sin phi * delq_b.2 in
  let delq2 := 0 * delq_b.1.1 + sin phi * delq_b.1.2 + cos phi * delq_b.2 in
  mkPose (phi + delq0) (x + delq1) (y + delq2).

(** [transform_from_map_to_base]: [T_bm @ vec_m], with the two arena
    attributes that it reads as arguments. *)
Definition transform_from_map_to_base (arena_length arena_width : R)
    (pos_x pos_y angle : R) : R * R * R :=
  let vec_b0 := 1 * pos_x + 0 * pos_y + - (arena_length / 2) * 1 in
  let vec_b1 := 0 * pos_x + 1 * pos_y + - (arena_width / 2) * 1 in
  (vec_b0, vec_b1, angle).

End Exact.

(** ** Float: the arithmetic of doubles

    A double that is a number is a real [x] with [rnd x = x], and an
    operation on doubles is the operation on the reals followed by the
    rounding [rnd].  [Rounding] lists what the proofs use of [rnd]: it is
    monotone, leaves doubles as they are, commutes with the change of
    sign, has 1 and the double of every double among the doubles, and is
    off by at most the relative error [eps] and the absolute error [eta]
    (the underflow).  The rounding to nearest, ties to even, of the binary
    format of 53 bits with exponents unbounded above has these properties
    with [eps = 2^-53] and [eta = 2^-1075], and it is the rounding of
    IEEE 754 doubles as long as no result overflows; fixed-point
    arithmetic has them with [eps = 0]; the identity has them with
    [eps = eta = 0], and then [dynamics] and [integrate] below are those
    of [Robot].  Infinities and NaN are not numbers of this model. *)

Module Float.
Import Numeric Codec Robot.
Local Open Scope R_scope.

Record Rounding (rnd : R → R) (eps eta : R) : Prop := mkRounding {
  rnd_mono : ∀ x y, x <= y → rnd x <= rnd y;
  rnd_idem : ∀ x, rnd (rnd x) = rnd x;
  rnd_opp : ∀ x, rnd (- x) = - rnd x;
  rnd_one : rnd 1 = 1;
  rnd_twice : ∀ x, rnd (2 * rnd x) = 2 * rnd x;
  rnd_err : ∀ x, Rabs (rnd x - x) <= eps * Rabs x + eta;
  eps_nonneg : 0 <= eps;
  eta_nonneg : 0 <= eta
}.

(** [np.cos] and [np.sin] on doubles are within [tau] of the cosine and
    the sine. *)
Record Trig (cos_ sin_ : R → R) (tau : R) : Prop := mkTrig {
  cos_err : ∀ x, Rabs (cos_ x - cos x) <= tau;
  sin_err : ∀ x, Rabs (sin_ x - sin x) <= tau
}.

(** Rounding to the nearest multiple of [1 / scale], halves away from
    zero: the arithmetic of fixed-point numbers. *)
Definition nearest (y : R) : Z :=
  if decide (0 <= y) then Zfloor (y + 1 / 2) else (- Zfloor (- y + 1 / 2))%Z.
Definition to_grid (scale : R) (x : R) : R := IZR (nearest (x * scale)) / scale.

Section float.
Context (rnd : R → R) (cos_ sin_ : R → R).

(** The constant [np.pi] is the double nearest to π; the literals [0.015]
    and [0.04] of [__init__] are the doubles nearest to these decimals. *)
Definition np_pi : R := rnd PI.
Definition radius_of_wheel : R := rnd (15 / 1000).
Definition distance_between_wheel : R := rnd (4 / 100).

(** [a % m] on doubles for a divisor [m > 0].  The remainder [fmod(a, m)]
    of C is exact and has the sign of [a]; where it is negative, [m] is
    added to it, and this sum is rounded.  In both cases the result is the
    rounding of [a - m * floor (a / m)]. *)
Definition py_mod (a m : R) : R := rnd (Numeric.py_mod a m).

(** [(h + np.pi) % (2 * np.pi) - np.pi] *)
Definition wrap (h : R) : R :=
  rnd (py_mod (rnd (h + np_pi)) (rnd (2 * np_pi)) - np_pi).

(** [dynamics]: the entries of [state_matrix] are computed first, a row
    times [vel_vector] is the rounded sum of the two rounded products. *)
Definition dynamics (self : BotDiffDrive) (v_left v_right : R) : pose :=
  let pos_angle_ := pos_angle self in
  let r := radius_of_wheel in
  let d := distance_between_wheel in
  let m00 := rnd (- r / rnd (2 * d)) in
  let m01 := rnd (r / rnd (2 * d)) in
  let m10 := rnd (rnd (r * cos_ pos_angle_) / 2) in
  let m20 := rnd (rnd (r * sin_ pos_angle_) / 2) in
  let pos0 := rnd (rnd (m00 * v_left) + rnd (m01 * v_right)) in
  let pos1 := rnd (rnd (m10 * v_left) + rnd (m10 * v_right)) in
  let pos2 := rnd (rnd (m20 * v_left) + rnd (m20 * v_right)) in
  mkPose (rnd (pos_angle self + pos0)) (rnd (pos_x self + pos1)) (rnd (pos_y self + pos2)).

(** [integrate]: [velocity_vector * delta_time], [dynamics], the wrap. *)
Definition integrate (self : BotDiffDrive) (u_left u_right delta_time : R) : pose :=
  let pos := dynamics self (rnd (u_left * delta_time)) (rnd (u_right * delta_time)) in
  mkPose (wrap (heading pos)) (px pos) (py pos).

End float.

(** The error that a rounding adds: a value within [E] of a number of
    magnitude at most [mag] is, rounded, within [after_rnd mag E] of it;
    the product of two such values is within [after_mul] of the product of
    the numbers. *)
Definition after_rnd (eps eta mag E : R) : R := E + eps * (mag + E) + eta.
Definition after_mul (mag_a E_a mag_b E_b : R) : R := mag_a * E_b + mag_b * E_a + E_a * E_b.

(** The floating tolerance of the heading that [integrate] returns for
    equal wheel speeds: two roundings, of [h + np.pi] and of the
    difference with [np.pi]. *)
Definition heading_tol (eps eta pi_ : R) : R :=
  after_rnd eps eta pi_ (after_rnd eps eta (2 * pi_) 0).

(** ... and of a coordinate: the roundings of [u * dt], of the matrix
    entry [r * cos / 2], of the product, of the sum of the two products
    and of the sum with the coordinate [x]; [travel] is [u * dt]. *)
Definition straight_tol (eps eta tau r travel x : R) : R :=
  let E_v := after_rnd eps eta (Rabs travel) 0 in
  let E_rc := after_rnd eps eta (Rabs r) (Rabs r * tau) in
  let E_m := after_rnd eps eta (Rabs r / 2) (E_rc / 2) in
  let E_p := after_rnd eps eta (Rabs r / 2 * Rabs travel)
                       (after_mul (Rabs r / 2) E_m (Rabs travel) E_v) in
  let E_s := after_rnd eps eta (Rabs r * Rabs travel) (2 * E_p) in
  after_rnd eps eta (Rabs x + Rabs r * Rabs travel) E_s.

End Float.

(** ** NotANumber: floats that may be NaN

    [json.loads] accepts the literal [NaN], and the wheel command stores
    what it is handed, so that the wheel speeds of a robot can be NaN.  A
    float is here a number or NaN: an arithmetic operation with a NaN
    operand gives NaN, a comparison with a NaN operand is [False].  On
    numbers [dynamics], [integrate], [check_collision] and
    [integrate_world] below are those of [Robot] and [World]. *)

Module NotANumber.
Import Numeric Codec Py.
Local Open Scope R_scope.

Inductive pyfloat :=
  | Num (x : R)
  | NaN.

Definition lift1 (f : R → R) (a : pyfloat) : pyfloat :=
  match a with
  | Num x => Num (f x)
  | NaN => NaN
  end.

Definition lift2 (f : R → R → R) (a b : pyfloat) : pyfloat :=
  match a, b with
  | Num x, Num y => Num (f x y)
  | _, _ => NaN
  end.

Definition add : pyfloat → pyfloat → pyfloat := lift2 Rplus.
Definition sub : pyfloat → pyfloat → pyfloat := lift2 Rminus.
Definition mul : pyfloat → pyfloat → pyfloat := lift2 Rmult.

(** [a < b] and [a <= b] *)
Definition lt (a b : pyfloat) : bool :=
  match a, b with
  | Num x, Num y => bool_decide (x < y)
  | _, _ => false
  end.

Definition le (a b : pyfloat) : bool :=
  match a, b with
  | Num x, Num y => bool_decide (x <= y)
  | _, _ => false
  end.

(** [max(a, b)] and [min(a, b)]: the first argument is kept unless the
    comparison with the second is [True]. *)
Definition py_max (a b : pyfloat) : pyfloat := if lt a b then b else a.
Definition py_min (a b : pyfloat) : pyfloat := if lt b a then b else a.


Record BotDiffDrive := mkBot {
  id : nat;
  pos_x : pyfloat;
  pos_y : pyfloat;
  pos_angle : pyfloat;
  clk : pyfloat;
  usr_led : field * field * field
}.

Definition set_pos_x (v : pyfloat) (b : BotDiffDrive) : BotDiffDrive :=
  mkBot (id b) v (pos_y b) (pos_angle b) (clk b) (usr_led b).
Definition set_pos_y (v : pyfloat) (b : BotDiffDrive) : BotDiffDrive :=
  mkBot (id b) (pos_x b) v (pos_angle b) (clk b) (usr_led b).
Definition set_pos_angle (v : pyfloat) (b : BotDiffDrive) : BotDiffDrive :=
  mkBot (id b) (pos_x b) (pos_y b) v (clk b) (usr_led b).
Definition set_clk (v : pyfloat) (b : BotDiffDrive) : BotDiffDrive :=
  mkBot (id b) (pos_x b) (pos_y b) (pos_angle b) v (usr_led b).

Record pose := mkPose { heading : pyfloat; px : pyfloat; py : pyfloat }.


(** [dynamics]: the entries of [state_matrix] that depend on the heading
    are NaN when the heading is. *)
Definition dynamics (self : BotDiffDrive) (v_left v_right : pyfloat) : pose :=
  let pos_angle_ := pos_angle self in
  let r := Robot.radius_of_wheel in
  let d := Robot.distance_between_wheel in
  let cos_row := lift1 (λ a, r * cos a / 2) pos_angle_ in
  let sin_row := lift1 (λ a, r * sin a / 2) pos_angle_ in
  let pos0 := add (mul (Num (- r / (2 * d))) v_left) (mul (Num (r / (2 * d))) v_right) in
  let pos1 := add (mul cos_row v_left) (mul cos_row v_right) in
  let pos2 := add (mul sin_row v_left) (mul sin_row v_right) in
  mkPose (add (pos_angle self) pos0) (add (pos_x self) pos1) (add (pos_y self) pos2).

Definition integrate (self : BotDiffDrive) (u_left u_right delta_time : pyfloat) : pose :=
  let pos := dynamics self (mul u_left delta_time) (mul u_right delta_time) in
  mkPose (lift1 (λ h, Numeric.py_mod (h + PI) (2 * PI) - PI) (heading pos)) (px pos) (py pos).

(** [np.sqrt((x1 - x2)**2 + (y1 - y2)**2)] *)
Definition dist (x1 y1 x2 y2 : pyfloat) : pyfloat :=
  lift1 sqrt (add (lift1 (λ a, a ^ 2) (sub x1 x2)) (lift1 (λ a, a ^ 2) (sub y1 y2))).

Section world.
Context (config : Configuration).

Definition check_collision (pos : pose) (robot_states : list BotDiffDrive)
    (i num_of_robot : nat) : option bool :=
  let range_of_val := range 0 i ++ range (i + 1) num_of_robot in
  for_each (fun j collision_flag_ =>
              other ← robot_states !! j;
              let d := dist (pos_x other) (pos_y other) (px pos) (py pos) in
              if le d (Num (robot_diameter config)) then Some false
              else Some collision_flag_)
           range_of_val true.

Definition clip (v : pyfloat) (extent : R) : pyfloat :=
  py_min (py_max v (Num (- extent / 2 + robot_radius config)))
         (Num (extent / 2 - robot_radius config)).

Definition integrate_robot (num_of_robot : nat) (wheel_vel_arr : list (pyfloat * pyfloat))
    (dt sim_time : pyfloat) (i : nat) (robot_states : list BotDiffDrive)
  : option (list BotDiffDrive) :=
  wheel_vel ← wheel_vel_arr !! i;
  let u_l := wheel_vel.1 in
  let u_r := wheel_vel.2 in
  self ← robot_states !! i;
  let pos := integrate self u_l u_r dt in
  let robot_states := <[i := set_pos_angle (heading pos) self]> robot_states in
  ok ← check_collision pos robot_states i num_of_robot;
  self ← robot_states !! i;
  let self := if (ok : bool) then set_pos_y (py pos) (set_pos_x (px pos) self) else self in
  let self := set_pos_x (clip (pos_x self) (arena_width config)) self in
  let self := set_pos_y (clip (pos_y self) (arena_height config)) self in
  let self := set_clk (py_max (clk self) sim_time) self in
  Some (<[i := self]> robot_states).

Definition integrate_world (robot_states : list BotDiffDrive) (num_of_robot : nat)
    (wheel_vel_arr : list (pyfloat * pyfloat)) (dt sim_time : pyfloat)
  : option (list BotDiffDrive) :=
  for_each (integrate_robot num_of_robot wheel_vel_arr dt sim_time)
           (range 0 num_of_robot) robot_states.

End world.
End NotANumber.

(** [BotSim], [conv_to_json] and [convert_list_to_dict] *)

Module Vis.
Import Numeric Codec Robot Py.

(** [BotSim]: the attributes that [robot.__dict__] exports. *)
Record BotSim := mkSim {
  id : nat;
  usr_led : field * field * field;
  pos_x : R;
  pos_y : R;
  angle : R
}.

(** [conv_to_json]: the dictionary is keyed by the index of the robot; the
    angle is wrapped as in [integrate], in the arithmetic of doubles with
    the rounding [rnd]. *)
Definition conv_to_json (rnd : R → R) (robot_state : list BotDiffDrive)
    (num_of_robot : nat) : option (gmap nat BotSim) :=
  for_each (fun i json_dict =>
              r ← robot_state !! i;
              let robot :=
                mkSim (Robot.id r) (Robot.usr_led r) (Robot.pos_x r) (Robot.pos_y r)
                      (Float.wrap rnd (pos_angle r)) in
              Some (<[i := robot]> json_dict))
           (range 0 num_of_robot) ∅.

(** [convert_list_to_dict]: [str(i)] is the decimal numeral of [i]. *)
Definition convert_list_to_dict {A : Type} (lst : list A) : option (gmap string A) :=
  for_each (fun i res_dct => x ← lst !! i; Some (<[pretty i := x]> res_dct))
           (range 0 (length lst)) ∅.

End Vis.

(** The end of [initialize_robots]: robots that stand within a diameter of
    another robot are moved away from it. *)

Module Admission.
Import Numeric Codec Robot Py.

Section admission.
Context (config : Configuration).



End admission.
End Admission.

(** The end of an iteration of [loop]: the pacing against the wall clock,
    in the arithmetic of doubles with the rounding [rnd]. *)

Module Pacing.
Import Numeric Exact.
Local Open Scope R_scope.

(** The pacing variables of [loop]; [slept] lists the arguments of the
    calls of [time.sleep]. *)
Record Clock := mkClock {
  real_time_curr : R;
  actual_rtf : R;
  notslept : nat;
  elapsedDIffList : list R;
  slept : list R
}.

Section pacing.
Context (rnd : R → R).

(** [a / b] on floats raises [ZeroDivisionError] for a zero divisor. *)
Definition py_div (a b : R) : option R :=
  if decide (b = 0) then None else Some (rnd (a / b)).

(** The branch on [elapsed_time_diff], the wall time that the iteration
    took, against [T_real], the wall time that it is given. *)
Definition pace (T_sim T_real elapsed_time_diff : R) (c : Clock) : option Clock :=
  if decide (elapsed_time_diff < T_real) then
    let real_time_curr := rnd (real_time_curr c + T_real) in
    rtf ← py_div T_sim T_real;
    let diff := rnd (T_real - elapsed_time_diff) in
    Some (mkClock real_time_curr rtf (notslept c) (elapsedDIffList c)
                  (if decide (diff > 0) then slept c ++ [diff] else slept c))
  else
    let real_time_curr := rnd (real_time_curr c + elapsed_time_diff) in
    rtf ← py_div T_sim elapsed_time_diff;
    Some (mkClock real_time_curr rtf (S (notslept c))
                  (elapsedDIffList c ++ [elapsed_time_diff]) (slept c)).

(** The pacing over the iterations of [loop], given the wall time that
    each of them took; [T_real] is computed once, before the loop. *)
Definition pace_loop (T_sim real_time_factor : R) (elapsed : list R) (c : Clock)
  : option Clock :=
  T_real ← py_div T_sim real_time_factor;
  Py.for_each (pace T_sim T_real) elapsed c.

End pacing.
End Pacing.

(** Further configurations to run the definitions on. *)

Module Scenario2.
Import Numeric Codec Robot Py Relay World Server.
Local Open Scope R_scope.

(** Two robots that cannot hear each other: communication range 0. *)
Definition config_silent : Configuration :=
  mkConfig 2 0 1 16 1 (1 / 2) 10 10 100.



(** A client on socket 5 whose frame has one field only. *)
Definition short_frame : State :=
  mkState Scenario.near_pair [0%Z; 1%Z] (separate_empty 2) [(0, 0); (0, 0)]
          {[5%Z := mkSock [of_string "0b1"] [];
            4%Z := mkSock [of_string "0b00b10b110b10"] []]}
          0.


(** The pacing variables at the start of [loop], for a real-time factor
    of 1. *)
Definition clock0 : Pacing.Clock := Pacing.mkClock 0 1 0 [] [].

(** The wall time of two iterations: 1/16 s, then 1/2 s. *)
Definition laps : list R := [1 / 16; 1 / 2].

End Scenario2.

(** Shapes of the message buffers. *)

Module Shape.
Import Codec Relay.

(** No two robots share a list object, and every cell refers to an object
    of the store. *)
Definition separate (mb : MsgBuffer) : Prop :=
  NoDup (cells mb) ∧ ∀ a, a ∈ cells mb → a < length (objects mb).

(** Every robot's buffer holds at most [capacity] entries. *)
Definition within_capacity (capacity : Z) (mb : MsgBuffer) : Prop :=
  ∀ i l, buffer_of mb i = Some l → (Z.of_nat (length l) ≤ capacity)%Z.

(** Every stored payload has at most [size] bytes. *)
Definition payloads_within (size : nat) (mb : MsgBuffer) : Prop :=
  Forall (Forall (λ m : bytes, length m ≤ size)) (objects mb).

End Shape.

(** What a command may not touch. *)

Module Frame.
Import Codec Robot Relay Server.

(** Every robot has the id and the pose that it had. *)
Definition same_poses (before after : list BotDiffDrive) : Prop :=
  Forall2 (λ r r', id r' = id r ∧ pos_x r' = pos_x r ∧ pos_y r' = pos_y r ∧
                   pos_angle r' = pos_angle r) before after.

(** ... and the array of the ids is as it was. *)
Definition keeps_robots (w w' : State) : Prop :=
  same_poses (robot_state w) (robot_state w') ∧ robot_id w' = robot_id w.

(** On socket [fd], nothing sent is taken back and nothing read is put
    back: the replies so far are a prefix of the replies, what is left to
    read is a suffix of what was left to read. *)
Definition io_monotone (fd : Z) (w w' : State) : Prop :=
  ∀ s, sockets w !! fd = Some s →
       ∃ s', sockets w' !! fd = Some s' ∧
             outbox s `prefix_of` outbox s' ∧ inbox s' `suffix_of` inbox s.

(** The two relations together. *)
Definition well_behaved (fd : Z) (w w' : State) : Prop :=
  keeps_robots w w' ∧ io_monotone fd w w'.

(** The number of replies sent on socket [fd] so far, and the number of
    chunks that are left to read on it. *)
Definition sent (fd : Z) (w : State) : nat :=
  from_option (λ s, length (outbox s)) 0%nat (sockets w !! fd).
Definition unread (fd : Z) (w : State) : nat :=
  from_option (λ s, length (inbox s)) 0%nat (sockets w !! fd).

End Frame.

(** * Properties *)

Import Numeric Codec Robot Py Relay World Server.

(** ** Arithmetic *)

Section numeric_facts.
Local Open Scope R_scope.

Lemma py_mod_bounds a m : 0 < m → 0 <= py_mod a m < m.
Proof.
  intros Hm. unfold py_mod.
  destruct (Zfloor_bound (a / m)) as [Hlo Hhi].
  assert (Ha : a = a / m * m) by (field; lra).
  split.
  - apply (Rmult_le_compat_r m) in Hlo; [|lra]. lra.
  - apply (Rmult_lt_compat_r m) in Hhi; [|lra]. lra.
Qed.

Lemma py_mod_small a m : 0 <= a < m → py_mod a m = a.
Proof.
  intros [Hlo Hhi]. unfold py_mod.
  assert (0 < m) as Hm by lra.
  rewrite (Zfloor_eq 0 (a / m)); [simpl; lra|]. simpl.
  split.
  - apply Rmult_le_pos; [lra|]. left. by apply Rinv_0_lt_compat.
  - apply (Rmult_lt_reg_r m); [lra|]. field_simplify; lra.
Qed.

Lemma py_mod_self m : m ≠ 0 → py_mod m m = 0.
Proof.
  intros Hm. unfold py_mod.
  replace (m / m) with (IZR 1) by (field; done).
  rewrite ZfloorZ. simpl. lra.
Qed.

Lemma py_max_lb a b : a <= py_max a b ∧ b <= py_max a b.
Proof. unfold py_max. case_decide; lra. Qed.

Lemma py_max_id a b : b <= a → py_max a b = a.
Proof. unfold py_max. intros. case_decide; lra. Qed.

Lemma py_min_id a b : a <= b → py_min a b = a.
Proof. unfold py_min. intros. case_decide; lra. Qed.


(** Distances along a horizontal line. *)
Lemma dist_horizontal x1 x2 y : dist x1 y x2 y = Rabs (x1 - x2).
Proof.
  unfold dist. replace ((x1 - x2) ^ 2 + (y - y) ^ 2) with (Rsqr (x1 - x2))
    by (unfold Rsqr; ring).
  apply sqrt_Rsqr_abs.
Qed.

End numeric_facts.

(** ** Loops *)

Section loop_facts.
Context {A S : Type}.
Implicit Types (body : A → S → option S).

Lemma for_each_ext body body' l s :
  (∀ i s, i ∈ l → body i s = body' i s) →
  for_each body l s = for_each body' l s.
Proof.
  revert s. induction l as [|i l IH]; intros s Hext; simpl; [done|].
  rewrite Hext by left. destruct (body' i s); simpl; [|done].
  apply IH. intros. apply Hext. by right.
Qed.

(** An invariant of the loop state that every iteration keeps. *)
Lemma for_each_invariant (P : S → Prop) body l s s' :
  (∀ i s s', i ∈ l → P s → body i s = Some s' → P s') →
  P s → for_each body l s = Some s' → P s'.
Proof.
  revert s. induction l as [|i l IH]; intros s Hstep Hs; simpl.
  - by intros [= <-].
  - destruct (body i s) as [s1|] eqn:Hb; simpl; [|done].
    apply IH; [|eauto using list_elem_of_here].
    intros. eapply Hstep; eauto. by right.
Qed.

(** A loop whose iterations cannot fail under the invariant runs to its end. *)
Lemma for_each_total (P : S → Prop) body l s :
  (∀ i s, i ∈ l → P s → ∃ s', body i s = Some s' ∧ P s') →
  P s → ∃ s', for_each body l s = Some s' ∧ P s'.
Proof.
  revert s. induction l as [|i l IH]; intros s Hstep Hs; simpl; [eauto|].
  destruct (Hstep i s) as (s1 & -> & Hs1); [left|done|]. simpl.
  apply IH; [|done]. intros. apply Hstep; [by right|done].
Qed.

End loop_facts.

(** A loop over [range(k, k+m)] whose iteration [i] rewrites element [i]
    of a list: iteration [i] starts from the elements below [i] in their
    final state and the others in their initial state. *)
Lemma for_each_in_place {A : Type} (body : nat → list A → option (list A)) :
  (∀ i rs rs', body i rs = Some rs' → ∃ r', i < length rs ∧ rs' = <[i := r']> rs) →
  ∀ m k cur post,
    for_each body (seq k m) cur = Some post →
    length post = length cur ∧ take k post = take k cur ∧
    ∀ i, k ≤ i < k + m →
         body i (take i post ++ drop i cur) = Some (take (S i) post ++ drop (S i) cur).
Proof.
  intros Hbody. induction m as [|m IH]; intros k cur post; simpl.
  - intros [= <-]. split_and!; [done..|]. intros; lia.
  - destruct (body k cur) as [cur'|] eqn:Hk; simpl; [|done]. intros Hrest.
    destruct (Hbody _ _ _ Hk) as (r' & Hlt & ->).
    destruct (IH _ _ _ Hrest) as (Hlen & Htake & Hiter).
    rewrite length_insert in Hlen.
    assert (take k post = take k cur) as Hk0.
    { transitivity (take k (take (S k) post)).
      - rewrite take_take. f_equal. lia.
      - rewrite Htake, take_take. replace (k `min` S k) with k by lia.
        apply take_insert_ge. lia. }
    split_and!; [done..|].
    intros i Hi. destruct (decide (i = k)) as [->|Hne].
    + rewrite Hk0, take_drop, Hk, Htake. f_equal.
      rewrite <- (drop_insert_lt cur (S k) k r') by lia.
      by rewrite take_drop.
    + rewrite <- (drop_insert_lt cur i k r'), <- (drop_insert_lt cur (S i) k r') by lia.
      apply Hiter. lia.
Qed.

(** ** Kinematics *)

Section kinematics_facts.
Local Open Scope R_scope.

(** In the arithmetic of the reals the wrap is the identity on [[-π, π)]. *)
Lemma wrap_normalised theta : - PI <= theta < PI → py_mod (theta + PI) (2 * PI) - PI = theta.
Proof. intros. rewrite py_mod_small; lra. Qed.

(** The translation of [dynamics] uses the heading before the step. *)
Lemma integrate_translation self u_left u_right dt :
  px (integrate self u_left u_right dt)
  = pos_x self + radius_of_wheel * cos (pos_angle self) / 2 * (u_left * dt)
               + radius_of_wheel * cos (pos_angle self) / 2 * (u_right * dt) ∧
  py (integrate self u_left u_right dt)
  = pos_y self + radius_of_wheel * sin (pos_angle self) / 2 * (u_left * dt)
               + radius_of_wheel * sin (pos_angle self) / 2 * (u_right * dt).
Proof. unfold integrate, dynamics; simpl. split; ring. Qed.

Lemma integrate_equal_wheels self u dt :
  - PI <= pos_angle self < PI →
  integrate self u u dt
  = mkPose (pos_angle self)
           (pos_x self + radius_of_wheel * u * dt * cos (pos_angle self))
           (pos_y self + radius_of_wheel * u * dt * sin (pos_angle self)).
Proof.
  intros Hth. unfold integrate, dynamics; simpl.
  assert (distance_between_wheel ≠ 0) by (unfold distance_between_wheel; lra).
  f_equal.
  - replace (pos_angle self + _) with (pos_angle self) by (field; done).
    by apply wrap_normalised.
  - field.
  - field.
Qed.

End kinematics_facts.

(** ** The integration pass *)

Section world_facts.
Context (config : Configuration).
Local Open Scope R_scope.

Lemma elem_of_range a b (j : nat) : j ∈ range a b ↔ (a ≤ j < b)%nat.
Proof. unfold range. rewrite elem_of_seq. lia. Qed.


(** The check does not look at element [i] of the list. *)
Lemma check_collision_insert pos rs i n x :
  check_collision config pos (<[i := x]> rs) i n = check_collision config pos rs i n.
Proof.
  unfold check_collision. apply for_each_ext. intros j flag Hj.
  rewrite list_lookup_insert_ne; [done|].
  rewrite elem_of_app, !elem_of_range in Hj. lia.
Qed.

Lemma check_collision_total pos rs i n :
  (i < n)%nat → (n ≤ length rs)%nat → is_Some (check_collision config pos rs i n).
Proof.
  intros Hi Hn. unfold check_collision.
  destruct (for_each_total (λ _ : bool, True)
    (λ j flag, other ← rs !! j;
       if decide (dist (pos_x other) (pos_y other) (px pos) (py pos) <= robot_diameter config)
       then Some false else Some flag)
    (range 0 i ++ range (i + 1) n) true) as (ok & Hok & _); [|done|by eexists].
  intros j flag Hj _.
  assert (j < length rs)%nat as Hlt
    by (rewrite elem_of_app, !elem_of_range in Hj; lia).
  apply lookup_lt_is_Some in Hlt as [other ->]. simpl.
  case_decide; eauto.
Qed.


(** What one iteration of the loop of [integrate_world] stores. *)
Lemma integrate_robot_inv n wheel_vel_arr dt sim_time i rs rs' :
  integrate_robot config n wheel_vel_arr dt sim_time i rs = Some rs' →
  ∃ wheel_vel self ok,
    wheel_vel_arr !! i = Some wheel_vel ∧ rs !! i = Some self ∧
    let pos := integrate self wheel_vel.1 wheel_vel.2 dt in
    check_collision config pos rs i n = Some ok ∧
    rs' = <[i := mkBot (id self)
                   (clip config (if ok then px pos else pos_x self) (arena_width config))
                   (clip config (if ok then py pos else pos_y self) (arena_height config))
                   (heading pos) (py_max (clk self) sim_time) (usr_led self)]> rs.
Proof.
  unfold integrate_robot. intros H.
  destruct (wheel_vel_arr !! i) as [wheel_vel|] eqn:Hw; simpl in H; [|done].
  destruct (rs !! i) as [self|] eqn:Hself; simpl in H; [|done].
  rewrite check_collision_insert in H.
  destruct (check_collision config _ rs i n) as [ok|] eqn:Hok; simpl in H; [|done].
  apply lookup_lt_Some in Hself as Hlt.
  rewrite list_lookup_insert_eq in H by done. simpl in H.
  rewrite list_insert_insert_eq in H. injection H as <-.
  exists wheel_vel, self, ok. split_and!; [done..|].
  by destruct ok.
Qed.

Lemma integrate_robot_total n wheel_vel_arr dt sim_time i rs :
  (i < length wheel_vel_arr)%nat → (i < n)%nat → (n ≤ length rs)%nat →
  is_Some (integrate_robot config n wheel_vel_arr dt sim_time i rs).
Proof.
  intros Hw Hin Hn. unfold integrate_robot.
  assert (i < length rs)%nat as Hi by lia.
  apply lookup_lt_is_Some in Hw as [wheel_vel ->].
  apply lookup_lt_is_Some in Hi as Hs. destruct Hs as [self ->]. simpl.
  rewrite check_collision_insert.
  destruct (check_collision_total (integrate self wheel_vel.1 wheel_vel.2 dt) rs i n Hin Hn)
    as [ok ->]. simpl.
  rewrite list_lookup_insert_eq by done. simpl. by eexists.
Qed.

(** The pass runs to its end when there are as many wheel speeds as robots. *)
Lemma integrate_world_total rs n wheel_vel_arr dt sim_time :
  n = length rs → length wheel_vel_arr = length rs →
  ∃ post, integrate_world config rs n wheel_vel_arr dt sim_time = Some post ∧
          length post = length rs.
Proof.
  intros -> Hw. unfold integrate_world.
  apply (for_each_total (λ l, length l = length rs)); [|done].
  intros i l Hi Hl. apply elem_of_range in Hi.
  destruct (integrate_robot_total (length rs) wheel_vel_arr dt sim_time i l)
    as [l' Hl']; [lia..|].
  exists l'. split; [done|].
  apply integrate_robot_inv in Hl' as (? & ? & ? & _ & _ & _ & ->).
  by rewrite length_insert.
Qed.

(** Iteration [i] of the pass starts from the list in which the robots
    below [i] are in their state after the pass and the others in their
    state before it, and produces robot [i] of the result. *)
Lemma integrate_world_iteration pre n wheel_vel_arr dt sim_time post i :
  integrate_world config pre n wheel_vel_arr dt sim_time = Some post →
  (i < n)%nat →
  length post = length pre ∧
  ∃ r', post !! i = Some r' ∧
        integrate_robot config n wheel_vel_arr dt sim_time i (take i post ++ drop i pre)
        = Some (<[i := r']> (take i post ++ drop i pre)).
Proof.
  unfold integrate_world, range. intros Hpost Hi.
  apply for_each_in_place in Hpost as (Hlen & _ & Hiter).
  2:{ intros j rs rs' Hj. apply integrate_robot_inv in Hj
        as (? & self & ? & _ & Hself & _ & ->).
      apply lookup_lt_Some in Hself. eauto. }
  split; [done|].
  specialize (Hiter i ltac:(lia)).
  pose proof Hiter as Hinv.
  apply integrate_robot_inv in Hinv as (wv & self & ok & _ & Hself & _ & Heq).
  apply lookup_lt_Some in Hself as Hlt.
  assert (i < length post)%nat as Hip.
  { rewrite length_app, length_take, length_drop in Hlt. lia. }
  destruct (lookup_lt_is_Some_2 post i Hip) as [r' Hr'].
  exists r'. split; [done|]. rewrite Hiter. f_equal.
  rewrite insert_take_drop by done.
  rewrite take_app_le, take_take by (rewrite length_take; lia).
  replace (i `min` i)%nat with i by lia.
  rewrite drop_app_ge by (rewrite length_take; lia).
  rewrite length_take, drop_drop.
  replace (i + (S i - i `min` length post))%nat with (S i) by lia.
  rewrite (take_S_r post i r') by done.
  by rewrite <- app_assoc.
Qed.

(** Robot [i] after the pass, from robot [i] before it. *)
Lemma integrate_world_robot pre n wheel_vel_arr dt sim_time post i :
  integrate_world config pre n wheel_vel_arr dt sim_time = Some post →
  (i < n)%nat →
  ∃ wheel_vel self ok,
    wheel_vel_arr !! i = Some wheel_vel ∧ pre !! i = Some self ∧
    let pos := integrate self wheel_vel.1 wheel_vel.2 dt in
    check_collision config pos (take i post ++ drop i pre) i n = Some ok ∧
    post !! i = Some (mkBot (id self)
      (clip config (if ok then px pos else pos_x self) (arena_width config))
      (clip config (if ok then py pos else pos_y self) (arena_height config))
      (heading pos) (py_max (clk self) sim_time) (usr_led self)).
Proof.
  intros Hpost Hi.
  destruct (integrate_world_iteration _ _ _ _ _ _ _ Hpost Hi) as (Hlen & r' & Hr' & Hiter).
  apply integrate_robot_inv in Hiter as (wv & self & ok & Hw & Hself & Hok & Heq).
  apply lookup_lt_Some in Hself as Hlt.
  apply (f_equal (λ l, l !! i)) in Heq.
  rewrite !list_lookup_insert_eq in Heq by done. injection Heq as ->.
  apply lookup_lt_Some in Hr' as Hip.
  rewrite lookup_app_r in Hself by (rewrite length_take; lia).
  rewrite length_take, lookup_drop in Hself.
  replace (i + (i - i `min` length post))%nat with i in Hself by lia.
  exists wv, self, ok. done.
Qed.

Lemma clip_inside v extent :
  - extent / 2 + robot_radius config <= v <= extent / 2 - robot_radius config →
  clip config v extent = v.
Proof. intros. unfold clip. rewrite py_max_id by lra. apply py_min_id. lra. Qed.


End world_facts.

(** ** Floats that may be NaN *)

Section nan_facts.
Context (config : Configuration).
Local Open Scope R_scope.



(** A wheel speed that is NaN makes the heading and the position that
    [integrate] returns NaN. *)
Lemma integrate_nan_wheels self delta_time :
  NotANumber.integrate self NotANumber.NaN NotANumber.NaN delta_time
  = NotANumber.mkPose NotANumber.NaN NotANumber.NaN NotANumber.NaN.
Proof.
  unfold NotANumber.integrate, NotANumber.dynamics.
  destruct self as [k x y a c led], x, y, a; reflexivity.
Qed.







End nan_facts.

(** ** The arithmetic of doubles *)

Section float_facts.
Context (rnd : R → R) (eps eta : R) (Hrnd : Float.Rounding rnd eps eta).
Local Open Scope R_scope.

Local Abbreviation np_pi := (Float.np_pi rnd).
Local Abbreviation mono := (Float.rnd_mono rnd eps eta Hrnd).

Lemma rnd_zero : rnd 0 = 0.
Proof. pose proof (Float.rnd_opp _ _ _ Hrnd 0) as H. rewrite Ropp_0 in H. lra. Qed.

Lemma np_pi_fixed : rnd np_pi = np_pi.
Proof. apply (Float.rnd_idem _ _ _ Hrnd). Qed.

Lemma np_pi_pos : 1 <= np_pi.
Proof.
  apply Rle_trans with (rnd 1); [rewrite (Float.rnd_one _ _ _ Hrnd); lra|].
  apply mono. pose proof PI2_1. lra.
Qed.

Lemma two_np_pi_fixed : rnd (2 * np_pi) = 2 * np_pi.
Proof. apply (Float.rnd_twice _ _ _ Hrnd). Qed.

Lemma neg_np_pi_fixed : rnd (- np_pi) = - np_pi.
Proof. rewrite (Float.rnd_opp _ _ _ Hrnd). by rewrite np_pi_fixed. Qed.

(** The wrap lands in the closed interval between [-np.pi] and [np.pi]:
    the remainder is below [2 * np.pi] before it is rounded, and at most
    [2 * np.pi] after. *)
Lemma wrap_range h : - np_pi <= Float.wrap rnd h <= np_pi.
Proof.
  unfold Float.wrap, Float.py_mod. rewrite two_np_pi_fixed.
  pose proof np_pi_pos as Hpos.
  pose proof (py_mod_bounds (rnd (h + np_pi)) (2 * np_pi) ltac:(lra)) as [Hlo Hhi].
  set (m := Numeric.py_mod (rnd (h + np_pi)) (2 * np_pi)) in *.
  assert (0 <= rnd m <= 2 * np_pi) as [Hm0 Hm1].
  { split.
    - apply Rle_trans with (rnd 0); [rewrite rnd_zero; lra|by apply mono].
    - apply Rle_trans with (rnd (2 * np_pi)); [apply mono; lra|rewrite two_np_pi_fixed; lra]. }
  split.
  - apply Rle_trans with (rnd (- np_pi)); [rewrite neg_np_pi_fixed; lra|apply mono; lra].
  - apply Rle_trans with (rnd np_pi); [apply mono; lra|rewrite np_pi_fixed; lra].
Qed.

(** Away from the ends the wrap is two roundings. *)
Lemma wrap_inside h :
  - np_pi <= h → rnd (h + np_pi) < 2 * np_pi →
  Float.wrap rnd h = rnd (rnd (h + np_pi) - np_pi).
Proof.
  intros Hlow Hhigh. unfold Float.wrap, Float.py_mod. rewrite two_np_pi_fixed.
  assert (0 <= rnd (h + np_pi)).
  { apply Rle_trans with (rnd 0); [rewrite rnd_zero; lra|apply mono; lra]. }
  rewrite py_mod_small by lra. by rewrite (Float.rnd_idem _ _ _ Hrnd).
Qed.

(** The two entries of the first row of [state_matrix] are opposite, and
    so are their products with equal wheel displacements. *)
Lemma twist_equal_wheels r d v :
  rnd (rnd (rnd (- r / d) * v) + rnd (rnd (r / d) * v)) = 0.
Proof.
  replace (- r / d) with (- (r / d)) by (unfold Rdiv; ring).
  rewrite (Float.rnd_opp _ _ _ Hrnd).
  replace (- rnd (r / d) * v) with (- (rnd (r / d) * v)) by ring.
  rewrite (Float.rnd_opp _ _ _ Hrnd).
  replace (- rnd (rnd (r / d) * v) + rnd (rnd (r / d) * v)) with 0 by ring.
  apply rnd_zero.
Qed.


(** Approximations and what a rounding, a product add to their error. *)
Lemma approx_rnd y y0 mag E :
  Rabs (y - y0) <= E → Rabs y0 <= mag →
  Rabs (rnd y - y0) <= Float.after_rnd eps eta mag E.
Proof.
  intros Hy Hmag. unfold Float.after_rnd.
  pose proof (Float.rnd_err _ _ _ Hrnd y) as Herr.
  pose proof (Float.eps_nonneg _ _ _ Hrnd) as Heps.
  assert (Rabs y <= mag + E) as Hmag'.
  { replace y with (y0 + (y - y0)) by ring.
    eapply Rle_trans; [apply Rabs_triang|lra]. }
  replace (rnd y - y0) with ((rnd y - y) + (y - y0)) by ring.
  eapply Rle_trans; [apply Rabs_triang|].
  assert (eps * Rabs y <= eps * (mag + E)) by (apply Rmult_le_compat_l; lra).
  lra.
Qed.

Lemma approx_mul a a0 b b0 mag_a E_a mag_b E_b :
  Rabs (a - a0) <= E_a → Rabs (b - b0) <= E_b → Rabs a0 <= mag_a → Rabs b0 <= mag_b →
  Rabs (a * b - a0 * b0) <= Float.after_mul mag_a E_a mag_b E_b.
Proof.
  intros Ha Hb Ha0 Hb0. unfold Float.after_mul.
  replace (a * b - a0 * b0)
    with (a0 * (b - b0) + b0 * (a - a0) + (a - a0) * (b - b0)) by ring.
  eapply Rle_trans; [apply Rabs_triang|].
  eapply Rle_trans; [apply Rplus_le_compat_r, Rabs_triang|].
  rewrite !Rabs_mult.
  pose proof (Rabs_pos a0). pose proof (Rabs_pos b0).
  pose proof (Rabs_pos (a - a0)). pose proof (Rabs_pos (b - b0)).
  assert (Rabs a0 * Rabs (b - b0) <= mag_a * E_b) by (apply Rmult_le_compat; lra).
  assert (Rabs b0 * Rabs (a - a0) <= mag_b * E_a) by (apply Rmult_le_compat; lra).
  assert (Rabs (a - a0) * Rabs (b - b0) <= E_a * E_b) by (apply Rmult_le_compat; lra).
  lra.
Qed.

(** One coordinate of the step for equal wheel speeds: [cf_] is the
    library cosine or sine, [cf] the function that it approximates. *)
Lemma coordinate_tolerance (cf_ cf : R → R) tau theta x u dt :
  Rabs (cf_ theta - cf theta) <= tau → Rabs (cf theta) <= 1 →
  let r := Float.radius_of_wheel rnd in
  let v := rnd (u * dt) in
  let m := rnd (rnd (r * cf_ theta) / 2) in
  Rabs (rnd (x + rnd (rnd (m * v) + rnd (m * v))) - (x + r * (u * dt) * cf theta))
  <= Float.straight_tol eps eta tau r (u * dt) x.
Proof.
  intros Hcf Hone r v m. unfold Float.straight_tol. cbv zeta.
  pose proof (Rabs_pos r) as Hr. pose proof (Rabs_pos (u * dt)) as Ht.
  assert (Rabs (v - u * dt) <= Float.after_rnd eps eta (Rabs (u * dt)) 0) as Hv.
  { apply approx_rnd; [|lra]. replace (u * dt - u * dt) with 0 by ring.
    rewrite Rabs_R0. lra. }
  assert (Rabs (rnd (r * cf_ theta) - r * cf theta)
          <= Float.after_rnd eps eta (Rabs r) (Rabs r * tau)) as Hrc.
  { apply approx_rnd.
    - replace (r * cf_ theta - r * cf theta) with (r * (cf_ theta - cf theta)) by ring.
      rewrite Rabs_mult. apply Rmult_le_compat_l; lra.
    - rewrite Rabs_mult. replace (Rabs r) with (Rabs r * 1) at 2 by ring.
      apply Rmult_le_compat_l; lra. }
  assert (Rabs (r * cf theta / 2) <= Rabs r / 2) as Hmag_m.
  { unfold Rdiv. rewrite !Rabs_mult, (Rabs_right (/ 2)) by lra.
    assert (Rabs r * Rabs (cf theta) <= Rabs r * 1) by (apply Rmult_le_compat_l; lra).
    lra. }
  assert (Rabs (m - r * cf theta / 2)
          <= Float.after_rnd eps eta (Rabs r / 2)
               (Float.after_rnd eps eta (Rabs r) (Rabs r * tau) / 2)) as Hm.
  { apply approx_rnd; [|done].
    replace (rnd (r * cf_ theta) / 2 - r * cf theta / 2)
      with ((rnd (r * cf_ theta) - r * cf theta) * / 2) by (unfold Rdiv; ring).
    rewrite Rabs_mult, (Rabs_right (/ 2)) by lra. lra. }
  set (E_v := Float.after_rnd eps eta (Rabs (u * dt)) 0) in *.
  set (E_m := Float.after_rnd eps eta (Rabs r / 2) _) in *.
  assert (Rabs (r * cf theta / 2 * (u * dt)) <= Rabs r / 2 * Rabs (u * dt)) as Hmag_p.
  { rewrite Rabs_mult. apply Rmult_le_compat_r; lra. }
  assert (Rabs (rnd (m * v) - r * cf theta / 2 * (u * dt))
          <= Float.after_rnd eps eta (Rabs r / 2 * Rabs (u * dt))
               (Float.after_mul (Rabs r / 2) E_m (Rabs (u * dt)) E_v)) as Hp.
  { apply approx_rnd; [|done]. apply approx_mul; [done|done|done|lra]. }
  set (E_p := Float.after_rnd eps eta (Rabs r / 2 * Rabs (u * dt)) _) in *.
  assert (Rabs (r * (u * dt) * cf theta) <= Rabs r * Rabs (u * dt)) as Hmag_s.
  { rewrite (Rabs_mult (r * (u * dt))), (Rabs_mult r).
    assert (Rabs r * Rabs (u * dt) * Rabs (cf theta) <= Rabs r * Rabs (u * dt) * 1)
      by (apply Rmult_le_compat_l; [apply Rmult_le_pos|]; lra).
    lra. }
  assert (Rabs (rnd (rnd (m * v) + rnd (m * v)) - r * (u * dt) * cf theta)
          <= Float.after_rnd eps eta (Rabs r * Rabs (u * dt)) (2 * E_p)) as Hs.
  { apply approx_rnd; [|done].
    replace (rnd (m * v) + rnd (m * v) - r * (u * dt) * cf theta)
      with (2 * (rnd (m * v) - r * cf theta / 2 * (u * dt))) by field.
    rewrite Rabs_mult, (Rabs_right 2) by lra. lra. }
  apply approx_rnd.
  - replace (x + rnd (rnd (m * v) + rnd (m * v)) - (x + r * (u * dt) * cf theta))
      with (rnd (rnd (m * v) + rnd (m * v)) - r * (u * dt) * cf theta) by ring.
    done.
  - eapply Rle_trans; [apply Rabs_triang|]. lra.
Qed.

End float_facts.

(** The identity is a rounding without error: the arithmetic of [Robot].
    Fixed-point numbers with a step of [1 / n] are an instance with the
    absolute error [1 / (2 * n)]. *)

Section float_instances.
Local Open Scope R_scope.

Lemma exact_rounding : Float.Rounding (λ x, x) 0 0.
Proof.
  split; try done; try lra.
  intros x. replace (x - x) with 0 by ring. rewrite Rabs_R0. lra.
Qed.

Lemma exact_trig : Float.Trig cos sin 0.
Proof.
  split; intros x.
  - replace (cos x - cos x) with 0 by ring. rewrite Rabs_R0. lra.
  - replace (sin x - sin x) with 0 by ring. rewrite Rabs_R0. lra.
Qed.

Lemma integrate_exact self u_left u_right dt :
  Float.integrate (λ x, x) cos sin self u_left u_right dt
  = integrate self u_left u_right dt.
Proof.
  unfold Float.integrate, Float.dynamics, Float.wrap, Float.py_mod, Float.np_pi,
    Float.radius_of_wheel, Float.distance_between_wheel, integrate, dynamics,
    radius_of_wheel, distance_between_wheel. cbn [heading px py].
  f_equal; lra.
Qed.

Lemma nearest_IZR z : Float.nearest (IZR z) = z.
Proof.
  unfold Float.nearest. case_decide.
  - apply Zfloor_eq. lra.
  - rewrite <- opp_IZR. rewrite (Zfloor_eq (- z)); [lia|]. rewrite opp_IZR. lra.
Qed.

Lemma nearest_mono x y : x <= y → (Float.nearest x <= Float.nearest y)%Z.
Proof.
  intros Hxy. unfold Float.nearest. repeat case_decide; try lra.
  - apply Zfloor_le. lra.
  - assert (0 <= Zfloor (y + 1 / 2))%Z by (apply (Zfloor_lub 0); lra).
    assert (0 <= Zfloor (- x + 1 / 2))%Z by (apply (Zfloor_lub 0); lra).
    lia.
  - assert (Zfloor (- y + 1 / 2) <= Zfloor (- x + 1 / 2))%Z by (apply Zfloor_le; lra).
    lia.
Qed.

Lemma nearest_opp x : Float.nearest (- x) = (- Float.nearest x)%Z.
Proof.
  unfold Float.nearest. repeat case_decide; try lra.
  - assert (x = 0) as -> by lra. rewrite Ropp_0.
    rewrite (Zfloor_eq 0) by lra. done.
  - lia.
  - by rewrite Ropp_involutive.
Qed.

Lemma nearest_err x : Rabs (IZR (Float.nearest x) - x) <= 1 / 2.
Proof.
  unfold Float.nearest. case_decide.
  - pose proof (Zfloor_bound (x + 1 / 2)). apply Rabs_le. lra.
  - pose proof (Zfloor_bound (- x + 1 / 2)). rewrite opp_IZR. apply Rabs_le. lra.
Qed.

Lemma grid_rounding (n : Z) :
  (0 < n)%Z → Float.Rounding (Float.to_grid (IZR n)) 0 (1 / (2 * IZR n)).
Proof.
  intros Hn. apply IZR_lt in Hn as Hpos. unfold Float.to_grid.
  split.
  - intros x y Hxy. apply Rmult_le_compat_r; [left; by apply Rinv_0_lt_compat|].
    apply IZR_le, nearest_mono. by apply Rmult_le_compat_r; [lra|].
  - intros x. f_equal. f_equal.
    replace (IZR (Float.nearest (x * IZR n)) / IZR n * IZR n)
      with (IZR (Float.nearest (x * IZR n))) by (field; lra).
    apply nearest_IZR.
  - intros x. replace (- x * IZR n) with (- (x * IZR n)) by ring.
    rewrite nearest_opp, opp_IZR. field. lra.
  - rewrite Rmult_1_l, nearest_IZR. field. lra.
  - intros x.
    replace (2 * (IZR (Float.nearest (x * IZR n)) / IZR n) * IZR n)
      with (IZR (2 * Float.nearest (x * IZR n))) by (rewrite mult_IZR; field; lra).
    rewrite nearest_IZR, mult_IZR. field. lra.
  - intros x. rewrite Rmult_0_l, Rplus_0_l.
    replace (IZR (Float.nearest (x * IZR n)) / IZR n - x)
      with ((IZR (Float.nearest (x * IZR n)) - x * IZR n) * / IZR n) by (field; lra).
    rewrite Rabs_mult, (Rabs_right (/ IZR n))
      by (left; by apply Rinv_0_lt_compat).
    pose proof (nearest_err (x * IZR n)).
    replace (1 / (2 * IZR n)) with (1 / 2 * / IZR n) by (field; lra).
    apply Rmult_le_compat_r; [left; by apply Rinv_0_lt_compat|done].
  - lra.
  - apply Rlt_le, Rdiv_lt_0_compat; lra.
Qed.

End float_instances.

(** ** Heading normalisation, bounds clipping and straight-line motion *)

Section integration_claims.
Local Open Scope R_scope.
Import Scenario.







(** C9, as stated, fails for a robot whose heading is π: equal wheel speeds
    leave it at heading -π, a full turn away from the heading that it had,
    which is beyond every floating tolerance. *)
Lemma heading_pi_not_kept :
  heading (integrate (bot_at 0 0 0 PI) 10 10 1) - pos_angle (bot_at 0 0 0 PI) = - (2 * PI).
Proof.
  unfold integrate, dynamics; simpl.
  replace (PI + _ + PI) with (2 * PI) by (unfold distance_between_wheel; field; lra).
  rewrite py_mod_self by (pose proof PI_RGT_0; lra).
  lra.
Qed.

(** C9 (amended): in the arithmetic of doubles, with every operation
    rounded with a relative error of at most [eps] and an absolute error of
    at most [eta], and the library cosine and sine within [tau]: for a
    robot whose heading [theta] is a double, is at least [-np.pi] and is
    clear of [np.pi], in that [theta + np.pi] is not rounded up to
    [2 * np.pi], equal left and right wheel speeds [u] over [dt] leave the
    heading within the floating tolerance [heading_tol] of [theta], which is
    at most [5 * eps * np.pi + 3 * eta], and move the position to within the
    floating tolerance [straight_tol] of the point that lies
    [radius_of_wheel * u * dt] from it in the direction of [theta].  Both
    tolerances are the errors of the roundings of the computation, added
    up; they are zero for an arithmetic without error. *)
Theorem equal_wheels_straight_line (rnd : R → R) (eps eta tau : R) (cos_ sin_ : R → R)
    (Hrnd : Float.Rounding rnd eps eta) (Htrig : Float.Trig cos_ sin_ tau)
    (self : BotDiffDrive) (u dt : R)
    (Hdouble : rnd (pos_angle self) = pos_angle self)
    (Hlow : - Float.np_pi rnd <= pos_angle self)
    (Hhigh : rnd (pos_angle self + Float.np_pi rnd) < 2 * Float.np_pi rnd) :
  let pos := Float.integrate rnd cos_ sin_ self u u dt in
  let r := Float.radius_of_wheel rnd in
  (Rabs (heading pos - pos_angle self) <= Float.heading_tol eps eta (Float.np_pi rnd) ∧
   Rabs (px pos - (pos_x self + r * (u * dt) * cos (pos_angle self)))
   <= Float.straight_tol eps eta tau r (u * dt) (pos_x self) ∧
   Rabs (py pos - (pos_y self + r * (u * dt) * sin (pos_angle self)))
   <= Float.straight_tol eps eta tau r (u * dt) (pos_y self)) ∧
  (eps <= 1 → Float.heading_tol eps eta (Float.np_pi rnd)
              <= 5 * eps * Float.np_pi rnd + 3 * eta) ∧
  (∀ p t x, Float.heading_tol 0 0 p = 0 ∧ Float.straight_tol 0 0 0 r t x = 0).
Proof.
  intros pos r.
  pose proof (np_pi_pos rnd eps eta Hrnd) as Hpos.
  pose proof (Float.eps_nonneg _ _ _ Hrnd) as Heps.
  pose proof (Float.eta_nonneg _ _ _ Hrnd) as Heta.
  assert (pos_angle self < Float.np_pi rnd) as Hbelow.
  { destruct (Rlt_le_dec (pos_angle self) (Float.np_pi rnd)) as [|Hge]; [done|].
    exfalso. apply (Rlt_irrefl (2 * Float.np_pi rnd)).
    eapply Rle_lt_trans; [|exact Hhigh].
    rewrite <- (two_np_pi_fixed rnd eps eta Hrnd) at 1.
    apply (Float.rnd_mono _ _ _ Hrnd). lra. }
  split; [split; [|split]|split].
  - subst pos. unfold Float.integrate, Float.dynamics. cbn [heading].
    rewrite (twist_equal_wheels rnd eps eta Hrnd), Rplus_0_r, Hdouble.
    rewrite (wrap_inside rnd eps eta Hrnd) by done.
    unfold Float.heading_tol.
    apply (approx_rnd rnd eps eta Hrnd); [|apply Rabs_le; lra].
    replace (rnd (pos_angle self + Float.np_pi rnd) - Float.np_pi rnd - pos_angle self)
      with (rnd (pos_angle self + Float.np_pi rnd) - (pos_angle self + Float.np_pi rnd))
      by ring.
    apply (approx_rnd rnd eps eta Hrnd); [|apply Rabs_le; lra].
    replace (pos_angle self + Float.np_pi rnd - (pos_angle self + Float.np_pi rnd))
      with 0 by ring.
    rewrite Rabs_R0. lra.
  - subst pos. unfold Float.integrate, Float.dynamics. cbn [px].
    apply (coordinate_tolerance rnd eps eta Hrnd cos_ cos).
    + apply (Float.cos_err _ _ _ Htrig).
    + apply Rabs_le. pose proof (COS_bound (pos_angle self)). lra.
  - subst pos. unfold Float.integrate, Float.dynamics. cbn [py].
    apply (coordinate_tolerance rnd eps eta Hrnd sin_ sin).
    + apply (Float.sin_err _ _ _ Htrig).
    + apply Rabs_le. pose proof (SIN_bound (pos_angle self)). lra.
  - intros Hone. unfold Float.heading_tol, Float.after_rnd.
    set (p := Float.np_pi rnd) in *.
    assert (eps * (eps * p) <= 1 * (eps * p))
      by (apply Rmult_le_compat_r; [apply Rmult_le_pos; lra|lra]).
    assert (eps * eta <= 1 * eta) by (apply Rmult_le_compat_r; lra).
    lra.
  - intros p t x. unfold Float.heading_tol, Float.straight_tol, Float.after_rnd,
      Float.after_mul. split; field.
Qed.

(** Fixed-point arithmetic with a step of 1/1024 and the cosine and sine
    themselves: wheel speed 10 for 1 second, from the origin along x. *)
Lemma equal_wheels_straight_line_witness :
  let rnd := Float.to_grid 1024 in
  let pos := Float.integrate rnd cos sin (bot_at 0 0 0 0) 10 10 1 in
  let r := Float.radius_of_wheel rnd in
  (Rabs (heading pos - 0) <= Float.heading_tol 0 (1 / (2 * 1024)) (Float.np_pi rnd) ∧
   Rabs (px pos - (0 + r * (10 * 1) * cos 0))
   <= Float.straight_tol 0 (1 / (2 * 1024)) 0 r (10 * 1) 0 ∧
   Rabs (py pos - (0 + r * (10 * 1) * sin 0))
   <= Float.straight_tol 0 (1 / (2 * 1024)) 0 r (10 * 1) 0) ∧
  (0 <= 1 → Float.heading_tol 0 (1 / (2 * 1024)) (Float.np_pi rnd)
            <= 5 * 0 * Float.np_pi rnd + 3 * (1 / (2 * 1024))) ∧
  (∀ p t x, Float.heading_tol 0 0 p = 0 ∧ Float.straight_tol 0 0 0 r t x = 0).
Proof.
  pose proof (grid_rounding 1024 ltac:(lia)) as Hrnd.
  pose proof (np_pi_pos _ _ _ Hrnd) as Hpos.
  apply (equal_wheels_straight_line (Float.to_grid 1024) 0 (1 / (2 * 1024)) 0 cos sin
           Hrnd exact_trig (bot_at 0 0 0 0) 10 1).
  - simpl. apply (rnd_zero _ _ _ Hrnd).
  - simpl. lra.
  - simpl. rewrite Rplus_0_l, (np_pi_fixed _ _ _ Hrnd). lra.
Defined.

End integration_claims.

(** ** Collisions *)

Section collision_claims.
Local Open Scope R_scope.
Import Scenario.



End collision_claims.

(** Distances along a horizontal line and clipped coordinates at given
    numbers. *)
Ltac horizontal :=
  rewrite ?dist_horizontal; unfold Rabs; destruct (Rcase_abs _); simpl in *; lra.


Section two_robots.
Local Open Scope R_scope.
Import Scenario.

(** The pass over two robots, written out. *)
Lemma two_robot_pass (config : Configuration) r0 r1 (w0 w1 : R * R) dt t :
  let p0 := integrate r0 w0.1 w0.2 dt in
  let ok0 := bool_decide (robot_diameter config < dist (pos_x r1) (pos_y r1) (px p0) (py p0)) in
  let r0' := mkBot (id r0)
               (clip config (if ok0 then px p0 else pos_x r0) (arena_width config))
               (clip config (if ok0 then py p0 else pos_y r0) (arena_height config))
               (heading p0) (py_max (clk r0) t) (usr_led r0) in
  let p1 := integrate r1 w1.1 w1.2 dt in
  let ok1 := bool_decide (robot_diameter config < dist (pos_x r0') (pos_y r0') (px p1) (py p1)) in
  let r1' := mkBot (id r1)
               (clip config (if ok1 then px p1 else pos_x r1) (arena_width config))
               (clip config (if ok1 then py p1 else pos_y r1) (arena_height config))
               (heading p1) (py_max (clk r1) t) (usr_led r1) in
  integrate_world config [r0; r1] 2 [w0; w1] dt t = Some [r0'; r1'].
Proof.
  intros p0 ok0 r0' p1 ok1 r1'.
  assert (∀ pos other (b : bool),
    (if decide (dist (pos_x other) (pos_y other) (px pos) (py pos) <= robot_diameter config)
     then Some false else Some true)
    = Some (bool_decide (robot_diameter config
                         < dist (pos_x other) (pos_y other) (px pos) (py pos)))) as Hflag.
  { intros. case_decide; [rewrite bool_decide_eq_false_2|rewrite bool_decide_eq_true_2];
      try done; lra. }
  unfold integrate_world, range, integrate_robot, check_collision, range.
  cbn [seq for_each Nat.sub Nat.add lookup list_lookup insert list_insert mbind option_bind
       app fst snd].
  fold p0. rewrite (Hflag p0 r1 true). cbn [mbind option_bind]. fold ok0.
  replace (set_clk _ _) with r0' by (unfold r0'; by destruct ok0).
  cbn [lookup list_lookup insert list_insert mbind option_bind].
  fold p1. rewrite (Hflag p1 r0' true). cbn [mbind option_bind]. fold ok1.
  f_equal. f_equal. unfold r1'. by destruct ok1.
Qed.




End two_robots.

Section lone_robot.
Local Open Scope R_scope.

(** The pass over a single robot: there is nobody to collide with. *)
Lemma one_robot_pass (config : Configuration) self (w : R * R) dt t :
  let pos := integrate self w.1 w.2 dt in
  integrate_world config [self] 1 [w] dt t
  = Some [mkBot (id self) (clip config (px pos) (arena_width config))
                (clip config (py pos) (arena_height config))
                (heading pos) (py_max (clk self) t) (usr_led self)].
Proof. reflexivity. Qed.

(** A lone robot with equal wheel speeds [u], whose straight path stays
    inside the inset arena: after [n] ticks of [T_sim] it has kept its
    heading and moved [radius_of_wheel * u * (n * T_sim)] along it. *)
Lemma lone_robot_straight_line (config : Configuration) u T_sim n :
  ∀ self sim_time,
    - PI <= pos_angle self < PI →
    (∀ k, (k ≤ n)%nat →
       inside_arena config
         (pos_x self + radius_of_wheel * u * (INR k * T_sim) * cos (pos_angle self))
         (pos_y self + radius_of_wheel * u * (INR k * T_sim) * sin (pos_angle self))) →
    ∃ r', idle_ticks config n [self] 1 [(u, u)] T_sim sim_time = Some [r'] ∧
          pos_angle r' = pos_angle self ∧
          pos_x r' = pos_x self + radius_of_wheel * u * (INR n * T_sim) * cos (pos_angle self) ∧
          pos_y r' = pos_y self + radius_of_wheel * u * (INR n * T_sim) * sin (pos_angle self).
Proof.
  induction n as [|n IH]; intros self sim_time Hth Hpath.
  - exists self. simpl. split_and!; [done..|lra|lra].
  - cbn [idle_ticks]. rewrite one_robot_pass. cbn [mbind option_bind fst snd].
    rewrite integrate_equal_wheels by done. cbn [px py heading].
    destruct (Hpath 1%nat ltac:(lia)) as [Hx Hy]. simpl INR in Hx, Hy.
    rewrite !clip_inside
      by (first [replace (radius_of_wheel * u * T_sim)
                   with (radius_of_wheel * u * (1 * T_sim)) by ring; done]).
    match goal with |- context [idle_ticks _ _ [?r] _ _ _ _] => set (next := r) end.
    destruct (IH next (sim_time + T_sim)) as (r' & Hr' & Ha & Hpx & Hpy).
    { done. }
    { intros k Hk. specialize (Hpath (S k) ltac:(lia)). rewrite S_INR in Hpath.
      unfold next. cbn [pos_x pos_y pos_angle].
      destruct Hpath as [Hpx Hpy]. split.
      - replace (pos_x self + radius_of_wheel * u * T_sim * cos (pos_angle self) +
                 radius_of_wheel * u * (INR k * T_sim) * cos (pos_angle self))
          with (pos_x self + radius_of_wheel * u * ((INR k + 1) * T_sim) * cos (pos_angle self))
          by ring. done.
      - replace (pos_y self + radius_of_wheel * u * T_sim * sin (pos_angle self) +
                 radius_of_wheel * u * (INR k * T_sim) * sin (pos_angle self))
          with (pos_y self + radius_of_wheel * u * ((INR k + 1) * T_sim) * sin (pos_angle self))
          by ring. done. }
    exists r'. rewrite S_INR. split_and!; [done|done|..].
    + rewrite Hpx. unfold next. cbn [pos_x pos_angle]. ring.
    + rewrite Hpy. unfold next. cbn [pos_y pos_angle]. ring.
Qed.

End lone_robot.

(** ** The decoder *)

Section codec_facts.
Local Open Scope char_scope.

Lemma finditer_marker p s : finditer_0b p ("0" :: "b" :: s) = p :: finditer_0b (p + 2) s.
Proof. reflexivity. Qed.

(** The scan passes over a text without marker that is not followed by [b]. *)
Lemma finditer_skip body rest p :
  contains_0b body = false → head rest ≠ Some "b" →
  finditer_0b p (body ++ rest) = finditer_0b (p + length body) rest.
Proof.
  revert p. induction body as [|c body IH]; intros p Hfree Hrest.
  - simpl. by rewrite Nat.add_0_r.
  - destruct body as [|c2 body].
    + destruct rest as [|c' rest]; [done|]. simpl in *.
      destruct (Ascii.eqb_spec c' "b") as [->|_]; [done|].
      by rewrite andb_false_r.
    + simpl in Hfree. apply orb_false_elim in Hfree as [Hhere Hfree].
      change (finditer_0b p ((c :: c2 :: body) ++ rest))
        with (if Ascii.eqb c "0" && Ascii.eqb c2 "b"
              then p :: finditer_0b (p + 2) (body ++ rest)
              else finditer_0b (p + 1) ((c2 :: body) ++ rest)).
      rewrite Hhere, IH by done. f_equal. simpl. lia.
Qed.

Lemma bin_no_marker s : Forall is_bin s → contains_0b s = false.
Proof.
  induction 1 as [|c s Hc Hs IH]; [done|].
  destruct s as [|c2 s]; [done|].
  change (contains_0b (c :: c2 :: s))
    with (Ascii.eqb c "0" && Ascii.eqb c2 "b" || contains_0b (c2 :: s)).
  rewrite IH, orb_false_r.
  apply Forall_cons_1 in Hs as [[-> | ->] _]; by rewrite andb_false_r.
Qed.

Lemma pos_digits_bin p : Forall is_bin (pos_digits p).
Proof.
  induction p as [p IH|p IH|]; simpl.
  - apply Forall_app. split; [done|]. apply Forall_singleton. by right.
  - apply Forall_app. split; [done|]. apply Forall_singleton. by left.
  - apply Forall_singleton. by right.
Qed.

Lemma bin_digits_bin n : Forall is_bin (bin_digits n).
Proof.
  destruct n; simpl; [|apply pos_digits_bin]. apply Forall_singleton. by left.
Qed.

Lemma pos_digits_head p : ∃ tl, pos_digits p = "1" :: tl.
Proof.
  induction p as [p [tl IH]|p [tl IH]|]; simpl; rewrite ?IH; eauto.
Qed.

(** Reading the binary digits of a positive number gives the number back. *)
Lemma int_digits_pos p st tl :
  st ≠ Trailing →
  int_digits st 0 (pos_digits p ++ tl) = int_digits AfterDigit (Npos p) tl.
Proof.
  intros Hst. revert tl. induction p as [p IH|p IH|]; intros tl; simpl.
  - rewrite <- app_assoc, IH. reflexivity.
  - rewrite <- app_assoc, IH. reflexivity.
  - by destruct st.
Qed.

Lemma py_int_base2_bin n : py_int_base2 ("0" :: "b" :: bin_digits n) = Some n.
Proof.
  destruct n as [|p]; [reflexivity|]. simpl.
  rewrite <- (app_nil_r (pos_digits p)). by rewrite int_digits_pos.
Qed.

Lemma decode_field_cons c tl :
  decode_field ("0" :: "b" :: c :: tl)
  = if Ascii.eqb c "1" || Ascii.eqb c "0"
    then FInt <$> py_int_base2 ("0" :: "b" :: c :: tl)
    else Some (FStr (c :: tl)).
Proof. reflexivity. Qed.

Lemma decode_encode_field f :
  field_ok f = true → decode_field (encode_field f) = Some f.
Proof.
  destruct f as [[|p]|[|c text]]; intros Hok; try done.
  - pose proof (py_int_base2_bin (Npos p)) as Hint.
    unfold encode_field, bin_digits in *.
    destruct (pos_digits_head p) as [tl Htl]. rewrite Htl in *.
    by rewrite decode_field_cons, Hint.
  - unfold encode_field. rewrite decode_field_cons.
    simpl in Hok. apply negb_true_iff in Hok. by rewrite Hok.
Qed.

Lemma encode_frame_head fs : head (encode_frame fs) ≠ Some "b".
Proof. destruct fs as [|[] fs]; done. Qed.

(** The scan of an encoded field followed by further fields finds the
    marker of the field and then goes on behind the field. *)
Lemma finditer_field f rest p :
  field_marker_free f = true → head rest ≠ Some "b" →
  finditer_0b p (encode_field f ++ rest)
  = p :: finditer_0b (p + length (encode_field f)) rest.
Proof.
  intros Hfree Hrest.
  assert (∃ body, encode_field f = "0" :: "b" :: body ∧ contains_0b body = false)
    as (body & -> & Hbody).
  { destruct f as [n|text]; simpl in *; eexists; (split; [done|]).
    - apply bin_no_marker, bin_digits_bin.
    - by apply negb_true_iff. }
  change (("0" :: "b" :: body) ++ rest) with ("0" :: "b" :: (body ++ rest)).
  rewrite finditer_marker, finditer_skip by done. do 2 f_equal. simpl. lia.
Qed.

(** The positions found in a frame, closed by the length of the packet,
    start with the position of the frame itself. *)
Lemma positions_head fs p :
  Forall (λ f, field_marker_free f = true) fs →
  ∃ tl, finditer_0b p (encode_frame fs) ++ [p + length (encode_frame fs)] = p :: tl.
Proof.
  intros Hfs. destruct Hfs as [|f fs Hf Hfs].
  - exists []. simpl. by rewrite Nat.add_0_r.
  - unfold encode_frame. simpl. fold (encode_frame fs).
    rewrite finditer_field by (done || apply encode_frame_head). simpl. eauto.
Qed.

Lemma decode_loop_frame fs pre :
  Forall (λ f, field_ok f = true) fs →
  Forall (λ f, field_marker_free f = true) fs →
  decode_loop (pre ++ encode_frame fs)
    (finditer_0b (length pre) (encode_frame fs) ++ [length pre + length (encode_frame fs)])
  = Some fs.
Proof.
  intros Hok Hfree. revert pre.
  induction fs as [|f fs IH]; intros pre; [done|].
  apply Forall_cons_1 in Hok as [Hokf Hok].
  apply Forall_cons_1 in Hfree as [Hfreef Hfree].
  unfold encode_frame. simpl map. simpl concat. fold (encode_frame fs).
  rewrite finditer_field by (done || apply encode_frame_head).
  destruct (positions_head fs (length pre + length (encode_field f)) Hfree) as [tl Htl].
  rewrite length_app, Nat.add_assoc.
  change ((?a :: ?l) ++ ?k) with (a :: (l ++ k)). rewrite Htl.
  change (decode_loop ?pk (?a :: ?b :: ?l))
    with (x ← decode_field (slice a b pk); xs ← decode_loop pk (b :: l); Some (x :: xs)).
  assert (slice (length pre) (length pre + length (encode_field f))
            (pre ++ encode_field f ++ encode_frame fs) = encode_field f) as ->.
  { unfold slice. rewrite drop_app_length.
    replace (length pre + length (encode_field f) - length pre)
      with (length (encode_field f)) by lia.
    by rewrite take_app_length. }
  rewrite decode_encode_field by done. cbn [mbind option_bind].
  rewrite <- Htl. rewrite (app_assoc pre), <- (length_app pre).
  by rewrite IH.
Qed.

End codec_facts.

Section codec_claims.
Import Scenario.

(** C6, as stated, fails: a string field may contain the marker.  The
    frame made of the single string field [x0by], whose first character is
    neither [0] nor [1], decodes to the two fields [x] and [y]. *)
Lemma marker_inside_text_splits_field :
  field_ok (FStr (of_string "x0by")) = true ∧
  msg_decode (encode_frame [FStr (of_string "x0by")])
  = Some [FStr (of_string "x"); FStr (of_string "y")] ∧
  msg_decode (encode_frame [FStr (of_string "x0by")]) ≠ Some [FStr (of_string "x0by")].
Proof. split_and!; [reflexivity..|discriminate]. Qed.

(** C6 (amended): for every frame built of integer fields (the marker
    followed by the binary digits of the value) and string fields (the
    marker followed by a text whose first character is neither [0] nor [1]
    and that does not contain the marker), in any order, decoding yields
    exactly the original values in their original order. *)
Theorem decode_encode_frame (fs : list field)
    (Hfields : Forall (λ f, field_ok f = true) fs)
    (Hmarker : Forall (λ f, field_marker_free f = true) fs) :
  msg_decode (encode_frame fs) = Some fs.
Proof.
  unfold msg_decode. by apply (decode_loop_frame fs []).
Qed.

(** A frame of two integers and two strings, interleaved. *)
Lemma decode_encode_frame_witness :
  msg_decode (encode_frame [FInt 5; FStr (of_string "left"); FInt 0; FStr (of_string "x y")])
  = Some [FInt 5; FStr (of_string "left"); FInt 0; FStr (of_string "x y")].
Proof.
  apply (decode_encode_frame
           [FInt 5; FStr (of_string "left"); FInt 0; FStr (of_string "x y")]).
  - repeat constructor.
  - repeat constructor.
Defined.

End codec_claims.

(** ** The message relay *)

Section relay_facts.
Context (config : Configuration) (uniform : nat → R).
Local Open Scope R_scope.

(** The three ways through the body of the loop of [update_msg_buffer]. *)
Lemma relay_body_delivered MSG x y rs i st cur :
  rs !! i = Some cur →
  dist x y (pos_x cur) (pos_y cur) < comm_range config →
  uniform (draws st) < packet_pass_rate config →
  relay_body config uniform MSG x y rs i st
  = deliver config MSG i (mkRelay (payload st) (buffers st) (S (draws st))).
Proof.
  intros Hcur Hd Hu. unfold relay_body. rewrite Hcur. simpl.
  rewrite decide_True by done. by rewrite bool_decide_eq_true_2.
Qed.

Lemma relay_body_lost MSG x y rs i st cur :
  rs !! i = Some cur →
  dist x y (pos_x cur) (pos_y cur) < comm_range config →
  ¬ uniform (draws st) < packet_pass_rate config →
  relay_body config uniform MSG x y rs i st
  = Some (mkRelay (payload st) (buffers st) (S (draws st))).
Proof.
  intros Hcur Hd Hu. unfold relay_body. rewrite Hcur. simpl.
  rewrite decide_True by done. by rewrite bool_decide_eq_false_2.
Qed.

Lemma relay_body_out_of_range MSG x y rs i st cur :
  rs !! i = Some cur →
  ¬ dist x y (pos_x cur) (pos_y cur) < comm_range config →
  relay_body config uniform MSG x y rs i st = Some st.
Proof.
  intros Hcur Hd. unfold relay_body. rewrite Hcur. simpl.
  by rewrite decide_False.
Qed.

(** The recipients that the loop considers: the sender is one of them,
    the robot just below the sender is not. *)
Lemma range_of_val_spec (robot_id n j : nat) :
  (robot_id < n)%nat →
  j ∈ range_of_val robot_id n ↔ (j < n ∧ S j ≠ robot_id)%nat.
Proof.
  intros Hlt. unfold range_of_val. rewrite decide_False by lia.
  rewrite elem_of_app, !elem_of_range. lia.
Qed.

Lemma truncate_length MSG msg : length (truncate MSG msg) = (MSG `min` length msg)%nat.
Proof. unfold truncate. case_decide; rewrite ?length_take; lia. Qed.

Lemma truncate_idemp MSG msg : truncate MSG (truncate MSG msg) = truncate MSG msg.
Proof.
  unfold truncate at 1. rewrite decide_False; [done|].
  rewrite truncate_length. lia.
Qed.

(** Buffers in which every cell refers to the one object [l]. *)
Lemma buffer_of_shared (l : list bytes) n j :
  (j < n)%nat → buffer_of (mkBuf [l] (replicate n 0%nat)) j = Some l.
Proof.
  intros Hj. unfold buffer_of. simpl. by rewrite lookup_replicate_2.
Qed.

(** A delivery into shared buffers that stays within the capacity changes
    the one object, and with it the buffer of every robot. *)
Lemma deliver_shared MSG i n (l : list bytes) p d :
  (i < n)%nat →
  (Z.of_nat (length l) + 1 ≤ msg_buffer_size config)%Z →
  deliver config MSG i (mkRelay p (mkBuf [l] (replicate n 0%nat)) d)
  = Some (mkRelay (truncate MSG p) (mkBuf [l ++ [truncate MSG p]] (replicate n 0%nat)) d).
Proof.
  intros Hi Hcap. unfold deliver, append, buffer_of. simpl.
  rewrite lookup_replicate_2 by done. simpl.
  rewrite lookup_replicate_2 by done. simpl.
  rewrite decide_False; [done|]. rewrite length_app. simpl. lia.
Qed.

(** [l[-c:]] for a positive [c]: the last [c] entries, in their order. *)
Lemma slice_last_suffix {A : Type} (c : Z) (l : list A) :
  (0 < c)%Z →
  length (slice_last c l) = (Z.to_nat c `min` length l)%nat ∧
  ∃ evicted, l = evicted ++ slice_last c l.
Proof.
  intros Hc. unfold slice_last. rewrite decide_False, decide_True by lia. split.
  - rewrite length_drop. lia.
  - eexists. by rewrite take_drop.
Qed.

Lemma append_buffer i msg mb old :
  buffer_of mb i = Some old →
  ∃ mb', append i msg mb = Some mb' ∧ cells mb' = cells mb ∧
         buffer_of mb' i = Some (old ++ [msg]).
Proof.
  unfold append, buffer_of. intros Hold.
  destruct (cells mb !! i) as [a|] eqn:Ha; simpl in *; [|done].
  rewrite Hold. simpl. eexists. split_and!; [done..|]. simpl. rewrite Ha. simpl.
  apply list_lookup_insert_eq. by apply lookup_lt_Some in Hold.
Qed.

Lemma rebind_buffer i l mb :
  (i < length (cells mb))%nat →
  ∃ mb', rebind i l mb = Some mb' ∧ buffer_of mb' i = Some l.
Proof.
  intros Hi. unfold rebind, buffer_of. rewrite decide_True by done.
  eexists. split; [done|]. simpl. rewrite list_lookup_insert_eq by done. simpl.
  by rewrite lookup_app_r, Nat.sub_diag.
Qed.

(** The buffer that a delivery appends to receives the payload cut to
    [MSG_BUFFER_SIZE] bytes at its end and, when that exceeds the capacity,
    is replaced by its last [msg_buffer_size] entries. *)
Lemma deliver_own_buffer MSG i st old :
  buffer_of (buffers st) i = Some old →
  ∃ st', deliver config MSG i st = Some st' ∧
         payload st' = truncate MSG (payload st) ∧
         buffer_of (buffers st') i
         = Some (if decide (msg_buffer_size config < Z.of_nat (length (old ++ [payload st'])))%Z
                 then slice_last (msg_buffer_size config) (old ++ [payload st'])
                 else old ++ [payload st']).
Proof.
  intros Hold. unfold deliver.
  destruct (append_buffer i (truncate MSG (payload st)) _ _ Hold) as (mb & -> & Hcells & Hmb).
  simpl. rewrite Hmb. simpl.
  destruct (decide (msg_buffer_size config
                    < Z.of_nat (length (old ++ [truncate MSG (payload st)])))%Z) as [Hlen|Hlen].
  - destruct (rebind_buffer i (slice_last (msg_buffer_size config)
                                 (old ++ [truncate MSG (payload st)])) mb) as (mb' & -> & Hmb').
    { rewrite Hcells. unfold buffer_of in Hold.
      destruct (cells (buffers st) !! i) eqn:Hi; [|done]. by apply lookup_lt_Some in Hi. }
    simpl. eexists. split_and!; [done..|]. simpl. by rewrite decide_True.
  - eexists. split_and!; [done..|]. simpl. by rewrite decide_False.
Qed.

(** With a capacity of at least one entry, that buffer ends within the
    capacity and holds the most recent entries in the order of insertion. *)
Lemma deliver_within_capacity MSG i st st' old l :
  (0 < msg_buffer_size config)%Z →
  buffer_of (buffers st) i = Some old →
  deliver config MSG i st = Some st' →
  buffer_of (buffers st') i = Some l →
  (Z.of_nat (length l) ≤ msg_buffer_size config)%Z ∧
  ∃ evicted, old ++ [truncate MSG (payload st)] = evicted ++ l.
Proof.
  intros Hcap Hold Hst Hl.
  destruct (deliver_own_buffer MSG i st old Hold) as (st1 & Hst1 & Hp & Hb).
  rewrite Hst in Hst1. injection Hst1 as <-. rewrite Hl, Hp in Hb. injection Hb as ->.
  case_decide as Hlen.
  - destruct (slice_last_suffix (msg_buffer_size config)
                (old ++ [truncate MSG (payload st)]) Hcap) as [Hlen' Hsuf].
    split; [lia|done].
  - split; [lia|]. by exists [].
Qed.

End relay_facts.

Section relay_claims.
Local Open Scope R_scope.
Import Scenario.

(** The loop of [update_msg_buffer] over shared buffers: as long as the
    capacity is not exceeded, the cells stay shared and every delivery
    adds the truncated payload to the one object. *)
Lemma relay_loop_shared (config : Configuration) (uniform : nat → R) MSG x y rs n :
  (n ≤ length rs)%nat →
  ∀ rng (l : list bytes) p nd,
    Forall (λ i, i < n)%nat rng →
    (Z.of_nat (length l) + Z.of_nat (length rng) ≤ msg_buffer_size config)%Z →
    ∃ st k,
      for_each (relay_body config uniform MSG x y rs) rng
               (mkRelay p (mkBuf [l] (replicate n 0%nat)) nd) = Some st ∧
      (k ≤ length rng)%nat ∧
      buffers st = mkBuf [l ++ replicate k (truncate MSG p)] (replicate n 0%nat) ∧
      truncate MSG (payload st) = truncate MSG p.
Proof.
  intros Hn. induction rng as [|i rng IH]; intros l p nd Hrng Hcap.
  - exists (mkRelay p (mkBuf [l] (replicate n 0%nat)) nd), 0%nat.
    simpl. by rewrite app_nil_r.
  - apply Forall_cons_1 in Hrng as [Hi Hrng]. simpl length in Hcap.
    destruct (lookup_lt_is_Some_2 rs i ltac:(lia)) as [cur Hcur].
    cbn [for_each].
    destruct (decide (dist x y (pos_x cur) (pos_y cur) < comm_range config)) as [Hd|Hd].
    2:{ destruct (IH l p nd Hrng ltac:(lia)) as (st & k & Hst & Hk & Hb & Hp).
        exists st, k.
        rewrite (relay_body_out_of_range config uniform MSG x y rs i _ cur Hcur Hd).
        split_and!; [done|simpl; lia|done..]. }
    destruct (decide (uniform nd < packet_pass_rate config)) as [Hu|Hu].
    2:{ destruct (IH l p (S nd) Hrng ltac:(lia)) as (st & k & Hst & Hk & Hb & Hp).
        exists st, k.
        rewrite (relay_body_lost config uniform MSG x y rs i
                   (mkRelay p (mkBuf [l] (replicate n 0%nat)) nd) cur Hcur Hd Hu).
        split_and!; [done|simpl; lia|done..]. }
    destruct (IH (l ++ [truncate MSG p]) (truncate MSG p) (S nd) Hrng)
      as (st & k & Hst & Hk & Hb & Hp).
    { rewrite length_app. simpl. lia. }
    exists st, (S k). rewrite truncate_idemp in Hb, Hp.
    rewrite (relay_body_delivered config uniform MSG x y rs i
               (mkRelay p (mkBuf [l] (replicate n 0%nat)) nd) cur Hcur Hd Hu).
    cbn [payload buffers draws]. rewrite deliver_shared by (done || lia).
    split_and!; [done|simpl; lia| |done].
    rewrite Hb. simpl. by rewrite <- app_assoc.
Qed.

(** C10: the buffer array of [loop] is one empty list replicated, so all
    cells refer to one object.  While the cells are shared and the capacity
    is not exceeded, a payload delivered to one robot is in the buffer of
    every robot, whether sender, in range or out of range; and after a
    whole send the cells are still shared, the one object extended by the
    deliveries of the send.  A cell stops being shared only when it is
    rebound, by eviction or by a clear. *)
Theorem buffers_shared_until_rebound (config : Configuration) (uniform : nat → R) (n : nat) :
  replicated_empty n = mkBuf [[]] (replicate n 0%nat) ∧
  (∀ i j, (i < n)%nat → (j < n)%nat →
     cells (replicated_empty n) !! i = cells (replicated_empty n) !! j) ∧
  (∀ (l : list bytes) MSG x y rs i st cur,
     buffers st = mkBuf [l] (replicate n 0%nat) → (i < n)%nat →
     rs !! i = Some cur →
     dist x y (pos_x cur) (pos_y cur) < comm_range config →
     uniform (draws st) < packet_pass_rate config →
     (Z.of_nat (length l) + 1 ≤ msg_buffer_size config)%Z →
     ∃ st', relay_body config uniform MSG x y rs i st = Some st' ∧
            ∀ j, (j < n)%nat →
                 buffer_of (buffers st') j = Some (l ++ [truncate MSG (payload st)])) ∧
  (∀ (l : list bytes) MSG msg robot_id rs nd,
     (robot_id < n)%nat → (n ≤ length rs)%nat →
     (Z.of_nat (length l) + Z.of_nat (length (range_of_val robot_id n))
      ≤ msg_buffer_size config)%Z →
     ∃ st k,
       update_msg_buffer config uniform (mkBuf [l] (replicate n 0%nat)) MSG n msg
                         robot_id rs nd = Some st ∧
       cells (buffers st) = replicate n 0%nat ∧
       ∀ j, (j < n)%nat →
            buffer_of (buffers st) j = Some (l ++ replicate k (truncate MSG msg))) ∧
  (∀ (mb : MsgBuffer) i l mb',
     rebind i l mb = Some mb' →
     (∀ a, a ∈ cells mb → a < length (objects mb))%nat →
     ∀ j, j ≠ i → cells mb' !! j ≠ cells mb' !! i).
Proof.
  split_and!.
  - done.
  - intros i j Hi Hj. unfold replicated_empty. simpl.
    by rewrite !lookup_replicate_2.
  - intros l MSG x y rs i st cur Hb Hi Hcur Hd Hu Hcap.
    rewrite (relay_body_delivered _ _ _ _ _ _ _ _ _ Hcur Hd Hu), Hb.
    rewrite deliver_shared by done. eexists. split; [done|].
    intros j Hj. simpl. by apply buffer_of_shared.
  - intros l MSG msg robot_id rs nd Hid Hn Hcap. unfold update_msg_buffer.
    destruct (lookup_lt_is_Some_2 rs robot_id ltac:(lia)) as [ref ->]. simpl.
    destruct (relay_loop_shared config uniform MSG (pos_x ref) (pos_y ref) rs n Hn
                (range_of_val robot_id n) l msg nd) as (st & k & Hst & _ & Hb & _);
      [|done|].
    { apply Forall_forall. intros j Hj. by apply range_of_val_spec in Hj as [? _]. }
    exists st, k. rewrite Hst, Hb. split_and!; [done..|].
    intros j Hj. by apply buffer_of_shared.
  - intros mb i l mb' Hre Hwf j Hne. unfold rebind in Hre.
    case_decide as Hi; [|done]. injection Hre as <-. simpl.
    rewrite list_lookup_insert_eq, list_lookup_insert_ne by done.
    destruct (cells mb !! j) as [a|] eqn:Ha; [|done].
    intros [= ->]. apply list_elem_of_lookup_2 in Ha. apply Hwf in Ha. lia.
Qed.

End relay_claims.

Section relay_runs.
Local Open Scope R_scope.
Import Scenario.

Lemma half_passes capacity n : half n < packet_pass_rate (config_with capacity).
Proof. unfold half. simpl. lra. Qed.

Lemma buffers_shared_until_rebound_witness :
  ∃ st', relay_body config16 half 1792 0 0 far_pair 0
           (mkRelay hello (replicated_empty 2) 0) = Some st' ∧
         ∀ j, (j < 2)%nat → buffer_of (buffers st') j = Some ([] ++ [truncate 1792 hello]).
Proof.
  destruct (buffers_shared_until_rebound config16 half 2) as (_ & _ & Hdeliver & _).
  apply (Hdeliver [] 1792%nat 0 0 far_pair 0%nat
           (mkRelay hello (replicated_empty 2) 0) (bot_at 0 0 0 0)).
  - reflexivity.
  - lia.
  - reflexivity.
  - simpl. horizontal.
  - apply half_passes.
  - simpl. lia.
Defined.

(** C1: a run of [update_msg_buffer] that contradicts the claim.  Two
    robots 0.05 apart with range 0.1 and pass rate 1.0, each with a buffer
    of its own: a send from robot 1 puts the payload into the buffer of
    robot 1, the sender, and leaves the buffer of robot 0 empty, because
    the loop runs over [range(0, robot_id-1)] and [range(robot_id, n)].
    And with the buffers of [loop] and the robots 0.2 apart, a send from
    robot 0 is delivered to robot 0 itself and shows in the buffer of
    robot 1. *)
Theorem relay_recipients_off_by_one :
  range_of_val 1 2 = [1%nat] ∧
  (∃ st, update_msg_buffer config16 half (separate_empty 2) 1792 2 hello 1 near_pair 0
         = Some st ∧
         buffer_of (buffers st) 1 = Some [hello] ∧
         buffer_of (buffers st) 0 = Some []) ∧
  range_of_val 0 2 = [0%nat; 1%nat] ∧
  (∃ st, update_msg_buffer config16 half (replicated_empty 2) 1792 2 hello 0 far_pair 0
         = Some st ∧
         buffer_of (buffers st) 1 = Some [hello]).
Proof.
  split_and!; [reflexivity| |reflexivity|].
  - unfold update_msg_buffer, near_pair.
    change (range_of_val 1 2) with [1%nat].
    cbn [lookup list_lookup mbind option_bind for_each pos_x pos_y bot_at].
    rewrite (relay_body_delivered config16 half _ _ _ _ 1%nat _ (bot_at 1 (5 / 100) 0 0));
      [|reflexivity|simpl; horizontal|apply half_passes].
    eexists. split; [reflexivity|]. split; reflexivity.
  - unfold update_msg_buffer, far_pair.
    change (range_of_val 0 2) with [0%nat; 1%nat].
    cbn [lookup list_lookup mbind option_bind for_each pos_x pos_y bot_at].
    rewrite (relay_body_delivered config16 half _ _ _ _ 0%nat _ (bot_at 0 0 0 0));
      [|reflexivity|simpl; horizontal|apply half_passes].
    change (deliver config16 1792 0 _)
      with (Some (mkRelay hello (mkBuf [[hello]] [0; 0]%nat) 1)).
    cbn [mbind option_bind].
    rewrite (relay_body_out_of_range config16 half _ _ _ _ 1%nat _ (bot_at 1 (2 / 10) 0 0));
      [|reflexivity|simpl; horizontal].
    eexists. split; [reflexivity|]. reflexivity.
Qed.

(** C5: a run of [update_msg_buffer] that contradicts the claim.  With the
    buffers of [loop], a capacity of one entry and two robots in range, one
    send from robot 0 leaves two entries in the buffer of robot 0: the
    eviction rebinds the cell of robot 1 to a new list and the shared list
    keeps both entries. *)
Theorem capacity_exceeded_by_shared_list :
  ∃ st, update_msg_buffer (config_with 1) half (replicated_empty 2) 1792 2 hello 0 near_pair 0
        = Some st ∧
        buffers st = mkBuf [[hello; hello]; [hello]] [0; 1]%nat ∧
        buffer_of (buffers st) 0 = Some [hello; hello] ∧
        buffer_of (buffers st) 1 = Some [hello] ∧
        (msg_buffer_size (config_with 1) < Z.of_nat (length [hello; hello]))%Z.
Proof.
  unfold update_msg_buffer, near_pair.
  change (range_of_val 0 2) with [0%nat; 1%nat].
  cbn [lookup list_lookup mbind option_bind for_each pos_x pos_y bot_at].
  rewrite (relay_body_delivered (config_with 1) half _ _ _ _ 0%nat _ (bot_at 0 0 0 0));
    [|reflexivity|simpl; horizontal|apply half_passes].
  change (deliver (config_with 1) 1792 0 _)
    with (Some (mkRelay hello (mkBuf [[hello]] [0; 0]%nat) 1)).
  cbn [mbind option_bind].
  rewrite (relay_body_delivered (config_with 1) half _ _ _ _ 1%nat _ (bot_at 1 (5 / 100) 0 0));
    [|reflexivity|simpl; horizontal|apply half_passes].
  eexists. split; [reflexivity|]. split_and!; reflexivity.
Qed.

End relay_runs.

(** ** Clocks and the read pass *)

Section clock_facts.
Local Open Scope R_scope.

Lemma clocks_le_refl rs : clocks_le rs rs.
Proof. apply Forall2_same_length_lookup_2; [done|]. intros i r r' -> [= ->]. lra. Qed.

Lemma clocks_le_trans rs1 rs2 rs3 : clocks_le rs1 rs2 → clocks_le rs2 rs3 → clocks_le rs1 rs3.
Proof.
  unfold clocks_le. rewrite !Forall2_same_length_lookup.
  intros [Hl12 H12] [Hl23 H23]. split; [congruence|].
  intros i r1 r3 H1 H3.
  destruct (lookup_lt_is_Some_2 rs2 i) as [r2 H2].
  { apply lookup_lt_Some in H1. lia. }
  specialize (H12 i r1 r2 H1 H2). specialize (H23 i r2 r3 H2 H3). lra.
Qed.

Lemma clocks_le_insert rs i r r' :
  rs !! i = Some r → clk r <= clk r' → clocks_le rs (<[i := r']> rs).
Proof.
  intros Hi Hle. rewrite <- (list_insert_id rs i r Hi) at 1.
  apply Forall2_insert; [apply clocks_le_refl|done].
Qed.

Lemma clocks_le_lookup rs rs' i r :
  clocks_le rs rs' → rs !! i = Some r → ∃ r', rs' !! i = Some r' ∧ clk r <= clk r'.
Proof. intros H Hi. by apply (Forall2_lookup_l _ _ _ _ _ H Hi). Qed.

End clock_facts.

Section server_facts.
Context (config : Configuration) (uniform : nat → R).
Context (py_int : str → option Z) (json_loads_pair : bytes → option (R * R)).
Context (str_of_len : nat → bytes) (str_of_clock : R → bytes).
Context (json_dumps_pose : R → R → R → bytes).
Local Open Scope R_scope.

Local Abbreviation get_data :=
  (get_data config uniform py_int json_loads_pair str_of_len str_of_clock json_dumps_pose).
Local Abbreviation service :=
  (service config uniform py_int json_loads_pair str_of_len str_of_clock json_dumps_pose).
Local Abbreviation read_pass :=
  (read_pass config uniform py_int json_loads_pair str_of_len str_of_clock json_dumps_pose).

Lemma advances_refl s w : advances s w w.
Proof. split; [apply clocks_le_refl|done]. Qed.

Lemma advances_trans s w1 w2 w3 : advances s w1 w2 → advances s w2 w3 → advances s w1 w3.
Proof.
  intros [Hc12 Hs12] [Hc23 Hs23]. split; [by eapply clocks_le_trans|].
  intros fd Hfd. by rewrite Hs23, Hs12.
Qed.

Lemma recv_advances s w data w' : recv s w = Some (data, w') → advances s w w'.
Proof.
  unfold recv. intros H.
  destruct (sockets w !! s) as [sock|]; simpl in H; [|done].
  destruct (inbox sock); [done|]. injection H as _ <-.
  split; simpl; [apply clocks_le_refl|].
  intros fd Hfd. by rewrite lookup_insert_ne.
Qed.

Lemma sendall_advances s data w w' : sendall s data w = Some w' → advances s w w'.
Proof.
  unfold sendall. intros H.
  destruct (sockets w !! s) as [sock|]; simpl in H; [|done]. injection H as <-.
  split; simpl; [apply clocks_le_refl|].
  intros fd Hfd. by rewrite lookup_insert_ne.
Qed.

Lemma stream_buffer_advances s arr w w' : stream_buffer s arr w = Some w' → advances s w w'.
Proof.
  unfold stream_buffer.
  apply (for_each_invariant (advances s w)); [|apply advances_refl].
  intros data w1 w2 _ Hw1 H.
  destruct (recv s w1) as [[d w1']|] eqn:Hrecv; simpl in H; [|done].
  eapply advances_trans; [done|].
  eapply advances_trans; [by eapply recv_advances|by eapply sendall_advances].
Qed.

Lemma set_robot_state_advances s w rs :
  clocks_le (robot_state w) rs → advances s w (set_robot_state rs w).
Proof. by split. Qed.

Lemma set_msg_buffer_advances s w mb n : advances s w (set_msg_buffer mb n w).
Proof. split; [apply clocks_le_refl|done]. Qed.

Lemma set_wheel_vel_arr_advances s w v : advances s w (set_wheel_vel_arr v w).
Proof. split; [apply clocks_le_refl|done]. Qed.

(** One step of a handler: name the intermediate state of a bind and
    record how it relates to the state before. *)
Ltac handler_step :=
  match goal with
  | H : (sendall ?s ?d ?w ≫= _) = Some _ |- _ =>
      let w' := fresh "w" in let Hw := fresh "Hw" in
      destruct (sendall s d w) as [w'|] eqn:Hw; simpl in H; [|discriminate];
      apply sendall_advances in Hw
  | H : sendall ?s ?d ?w = Some _ |- _ => apply sendall_advances in H
  | H : (recv ?s ?w ≫= _) = Some _ |- _ =>
      let w' := fresh "w" in let d := fresh "data" in let Hw := fresh "Hw" in
      destruct (recv s w) as [[d w']|] eqn:Hw; simpl in H; [|discriminate];
      apply recv_advances in Hw
  | H : (stream_buffer ?s ?a ?w ≫= _) = Some _ |- _ =>
      let w' := fresh "w" in let Hw := fresh "Hw" in
      destruct (stream_buffer s a w) as [w'|] eqn:Hw; simpl in H; [|discriminate];
      apply stream_buffer_advances in Hw
  | H : (?m ≫= _) = Some _ |- _ =>
      let x := fresh "x" in let Hx := fresh "Hx" in
      destruct m as [x|] eqn:Hx; simpl in H; [|discriminate]
  | H : (if decide ?P then _ else _) = Some _ |- _ => destruct (decide P)
  | H : (if ?b then _ else _) = Some _ |- _ => destruct b eqn:?
  | H : match ?f with FInt _ => _ | FStr _ => _ end = Some _ |- _ =>
      destruct f; [|discriminate]
  | H : Some _ = Some _ |- _ => injection H as <-
  end.

Ltac chain :=
  repeat first
    [ assumption
    | apply advances_refl
    | apply set_msg_buffer_advances
    | apply set_wheel_vel_arr_advances
    | eapply advances_trans; [eassumption|] ].

(** The delay command moves the clock of its robot forward by
    [millis / 1000]. *)
Lemma delay_clock (m : N) c : c <= c + IZR (Z.of_N m) / 1000.
Proof.
  assert (0 <= IZR (Z.of_N m)) by (apply IZR_le; lia).
  assert (0 <= IZR (Z.of_N m) / 1000); [|lra].
  apply Rmult_le_pos; [done|]. lra.
Qed.

(** Whatever the command, [get_data] moves no clock back and uses no
    socket but [current_socket]. *)
Lemma get_data_advances s msg n MSG w w' :
  get_data s msg n MSG w = Some w' → advances s w w'.
Proof.
  unfold Server.get_data. intros H.
  destruct (msg !! 2%nat) as [opcode|]; simpl in H; [|done].
  repeat (destruct (decide (opcode = _)) as [_|_]).
  - (* delay *)
    repeat handler_step.
    eapply advances_trans; [|eassumption].
    apply set_robot_state_advances.
    eapply clocks_le_insert; [done|]. simpl. apply delay_clock.
  - (* set_led *)
    repeat handler_step; [|done].
    eapply advances_trans; [eassumption|].
    apply set_robot_state_advances.
    match goal with Hi : robot_state _ !! _ = Some _ |- _ =>
      by apply (clocks_le_insert _ _ _ _ Hi) end.
  - repeat handler_step. chain.
  - repeat handler_step; chain.
  - repeat handler_step; chain.
  - repeat handler_step; chain.
  - repeat handler_step; chain.
  - injection H as <-. apply advances_refl.
Qed.

Lemma service_advances p s w w' : service p s w = Some w' → advances s w w'.
Proof.
  unfold Server.service. intros H.
  case_decide; [injection H as <-; apply advances_refl|].
  destruct (gated p s w) as [[]|]; simpl in H; [injection H as <-; apply advances_refl| |done].
  destruct (recv s w) as [[data w1]|] eqn:Hrecv; simpl in H; [|done].
  apply recv_advances in Hrecv.
  case_decide; [by injection H as <-|].
  destruct (msg_decode data) as [msg|]; simpl in H; [|done].
  apply get_data_advances in H. by eapply advances_trans.
Qed.

(** A socket whose robot is ahead of the simulated time is passed over. *)
Lemma service_gated p c w rid r :
  fd_to_id_map p !! c = Some rid → robot_state w !! rid = Some r →
  clk r > sim_time_curr p →
  service p c w = Some w.
Proof.
  intros Hc Hr Hclk. unfold Server.service. case_decide; [done|].
  unfold gated. rewrite Hc, Hr. simpl. by rewrite bool_decide_eq_true_2.
Qed.

(** ... and it stays passed over for the rest of the read pass, whatever
    the other sockets ask for. *)
Lemma read_pass_gated p c rid rlist :
  fd_to_id_map p !! c = Some rid →
  ∀ w r, robot_state w !! rid = Some r → clk r > sim_time_curr p →
         read_pass p rlist w = read_pass p (filter (λ s, s ≠ c) rlist) w.
Proof.
  intros Hc. unfold Server.read_pass.
  induction rlist as [|s rlist IH]; intros w r Hr Hclk; [done|].
  destruct (decide (s = c)) as [->|Hne].
  - rewrite filter_cons_False by (by intros ?). cbn [for_each].
    rewrite (service_gated p c w rid r) by done. simpl. by eapply IH.
  - rewrite filter_cons_True by done. cbn [for_each].
    destruct (service p s w) as [w1|] eqn:Hs; simpl; [|done].
    apply service_advances in Hs as [Hclocks _].
    destruct (clocks_le_lookup _ _ _ _ Hclocks Hr) as (r1 & Hr1 & Hle).
    apply (IH w1 r1 Hr1). lra.
Qed.

Lemma read_pass_advances p rlist w w' :
  read_pass p rlist w = Some w' → clocks_le (robot_state w) (robot_state w').
Proof.
  unfold Server.read_pass.
  apply (for_each_invariant (λ w1, clocks_le (robot_state w) (robot_state w1)));
    [|apply clocks_le_refl].
  intros s w1 w2 _ H1 Hs. apply service_advances in Hs as [H12 _].
  by eapply clocks_le_trans.
Qed.

Lemma read_pass_untouched p c rlist w w' :
  c ∉ rlist → read_pass p rlist w = Some w' → sockets w' !! c = sockets w !! c.
Proof.
  intros Hc. unfold Server.read_pass.
  apply (for_each_invariant (λ w1, sockets w1 !! c = sockets w !! c)); [|done].
  intros s w1 w2 Hs H1 Hserv. apply service_advances in Hserv as [_ Hframe].
  rewrite Hframe; [done|]. by intros ->.
Qed.

End server_facts.

Section server_claims.
Context (config : Configuration) (uniform : nat → R).
Context (py_int : str → option Z) (json_loads_pair : bytes → option (R * R)).
Context (str_of_len : nat → bytes) (str_of_clock : R → bytes).
Context (json_dumps_pose : R → R → R → bytes).
Local Open Scope R_scope.

Local Abbreviation get_data :=
  (get_data config uniform py_int json_loads_pair str_of_len str_of_clock json_dumps_pose).
Local Abbreviation service :=
  (service config uniform py_int json_loads_pair str_of_len str_of_clock json_dumps_pose).
Local Abbreviation read_pass :=
  (read_pass config uniform py_int json_loads_pair str_of_len str_of_clock json_dumps_pose).

(** C4: in a read pass, a bound robot connection whose robot's clock
    strictly exceeds the simulated time is not read and nothing is done for
    it: its turn leaves the whole state as it is, the pass as a whole does
    what it would do without that connection among the readable sockets,
    and the connection's pending data and replies are untouched at the end
    of the pass.  The test reads the clock and the simulated time of the
    moment. *)
Theorem clock_gate (p : Pass) (c : Z) (rid : nat) (w : State) (r : BotDiffDrive)
    (Hbound : fd_to_id_map p !! c = Some rid)
    (Hrobot : robot_state w !! rid = Some r)
    (Hahead : clk r > sim_time_curr p) :
  service p c w = Some w ∧
  (∀ rlist, read_pass p rlist w = read_pass p (filter (λ s, s ≠ c) rlist) w) ∧
  (∀ rlist w', read_pass p rlist w = Some w' → sockets w' !! c = sockets w !! c) ∧
  (∀ p' w' r', fd_to_id_map p' !! c = Some rid → robot_state w' !! rid = Some r' →
               gated p' c w' = Some (bool_decide (clk r' > sim_time_curr p'))).
Proof.
  split_and!.
  - by eapply service_gated.
  - intros rlist. by eapply read_pass_gated.
  - intros rlist w' Hpass.
    rewrite (read_pass_gated _ _ _ _ _ _ _ p c rid rlist Hbound w r Hrobot Hahead) in Hpass.
    eapply read_pass_untouched; [|done].
    rewrite list_elem_of_filter. by intros [? _].
  - intros p' w' r' Hc Hr. unfold gated. by rewrite Hc, Hr.
Qed.

(** C8: no operation of the server moves a robot's clock back.  A delay
    command adds [millis / 1000] to the clock of its robot; every command
    handled by [get_data], every read pass, every pass of
    [integrate_world], which sets each clock to the maximum of its value
    and the simulated time, and [update_time] leave every clock at least
    where it was. *)
Theorem clock_never_decreases :
  (∀ s msg n MSG w w',
     get_data s msg n MSG w = Some w' → clocks_le (robot_state w) (robot_state w')) ∧
  (∀ s msg n MSG w w',
     msg !! 2%nat = Some (FInt 3) → get_data s msg n MSG w = Some w' →
     ∃ i r m, robot_state w !! i = Some r ∧ msg !! 3%nat = Some (FInt m) ∧
              robot_state w'
              = <[i := set_clk (clk r + IZR (Z.of_N m) / 1000) r]> (robot_state w)) ∧
  (∀ p rlist w w',
     read_pass p rlist w = Some w' → clocks_le (robot_state w) (robot_state w')) ∧
  (∀ pre n wheel_vel_arr dt sim_time post,
     integrate_world config pre n wheel_vel_arr dt sim_time = Some post →
     clocks_le pre post ∧
     ∀ i r r', (i < n)%nat → pre !! i = Some r → post !! i = Some r' →
               clk r' = py_max (clk r) sim_time) ∧
  (∀ pre n sim_time post,
     update_time pre n sim_time = Some post → clocks_le pre post).
Proof.
  split_and!.
  - intros s msg n MSG w w' H. by apply get_data_advances in H as [? _].
  - intros s msg n MSG w w' Hop H. unfold Server.get_data in H.
    rewrite Hop in H. cbn [mbind option_bind] in H. rewrite decide_True in H by done.
    destruct (robot_index py_int msg w) as [i|]; simpl in H; [|done].
    destruct (robot_state w !! i) as [r|] eqn:Hr; simpl in H; [|done].
    destruct (msg !! 3%nat) as [[m|]|]; simpl in H; [|done..].
    exists i, r, m. split_and!; [done..|].
    unfold sendall in H. simpl in H.
    destruct (sockets w !! s); simpl in H; [|done]. by injection H as <-.
  - intros p rlist w w'. apply read_pass_advances.
  - intros pre n wheel_vel_arr dt sim_time post Hpost. split.
    + revert Hpost. unfold integrate_world.
      apply (for_each_invariant (clocks_le pre)); [|apply clocks_le_refl].
      intros i rs rs' _ Hrs Hi.
      apply integrate_robot_inv in Hi as (wv & self & ok & _ & Hself & _ & ->).
      eapply clocks_le_trans; [done|].
      eapply clocks_le_insert; [done|]. simpl. apply py_max_lb.
    + intros i r r' Hi Hr Hr'.
      destruct (integrate_world_robot config _ _ _ _ _ _ i Hpost Hi)
        as (wv & self & ok & _ & Hself & _ & Hr2).
      rewrite Hr in Hself. injection Hself as <-.
      rewrite Hr' in Hr2. by injection Hr2 as ->.
  - intros pre n sim_time post. unfold update_time.
    apply (for_each_invariant (clocks_le pre)); [|apply clocks_le_refl].
    intros i rs rs' _ Hrs Hi.
    destruct (rs !! i) as [r|] eqn:Hr; simpl in Hi; [|done].
    case_decide; injection Hi as <-; [|done].
    eapply clocks_le_trans; [done|].
    eapply clocks_le_insert; [done|]. simpl. lra.
Qed.

End server_claims.

Section server_runs.
Local Open Scope R_scope.
Import Scenario.

Local Abbreviation service0 :=
  (service config16 half no_int no_json plain_len plain_clock plain_pose).
Local Abbreviation read_pass0 :=
  (read_pass config16 half no_int no_json plain_len plain_clock plain_pose).
Local Abbreviation get_data0 :=
  (get_data config16 half no_int no_json plain_len plain_clock plain_pose).

(** Robot 0 is ahead of the simulated time: socket 3 is passed over. *)
Lemma clock_gate_witness :
  service0 pass_now 3 two_clients = Some two_clients ∧
  (∀ rlist, read_pass0 pass_now rlist two_clients
            = read_pass0 pass_now (filter (λ s, s ≠ 3%Z) rlist) two_clients) ∧
  (∀ rlist w', read_pass0 pass_now rlist two_clients = Some w' →
               sockets w' !! 3%Z = sockets two_clients !! 3%Z) ∧
  (∀ p' w' r', fd_to_id_map p' !! 3%Z = Some 0%nat → robot_state w' !! 0%nat = Some r' →
               gated p' 3 w' = Some (bool_decide (clk r' > sim_time_curr p'))).
Proof.
  apply (clock_gate config16 half no_int no_json plain_len plain_clock plain_pose
           pass_now 3 0 two_clients (mkBot 0 0 0 0 1 (FInt 0, FInt 0, FInt 0))).
  - reflexivity.
  - reflexivity.
  - simpl. lra.
Defined.

(** The delay command waiting on socket 4, handled by [get_data]: the
    clock of robot 1 goes from 0 to 0.002. *)
Lemma clock_never_decreases_witness :
  ∃ w', get_data0 4 [FInt 0; FInt 1; FInt 3; FInt 2] 2 1792 two_clients = Some w' ∧
        clocks_le (robot_state two_clients) (robot_state w') ∧
        robot_state w' !! 1%nat
        = Some (set_clk (0 + IZR (Z.of_N 2) / 1000) (bot_at 1 (5 / 100) 0 0)).
Proof.
  destruct (clock_never_decreases config16 half no_int no_json plain_len plain_clock
              plain_pose) as (Hmono & _).
  eexists. split; [reflexivity|]. split; [|reflexivity].
  apply (Hmono 4%Z [FInt 0; FInt 1; FInt 3; FInt 2] 2%nat 1792%nat two_clients).
  reflexivity.
Defined.

(** The read pass over both sockets: socket 3 is passed over, its command
    stays unread; the delay command of socket 4 is read, answered and
    carried out. *)
Example read_pass_run :
  ∃ w', read_pass0 pass_now [3%Z; 4%Z] two_clients = Some w' ∧
        sockets w' !! 3%Z = Some (mkSock [of_string "0b00b00b110b10"] []) ∧
        sockets w' !! 4%Z = Some (mkSock [] [ack]) ∧
        robot_state w' !! 0%nat = robot_state two_clients !! 0%nat ∧
        robot_state w' !! 1%nat
        = Some (set_clk (0 + IZR (Z.of_N 2) / 1000) (bot_at 1 (5 / 100) 0 0)).
Proof.
  unfold Server.read_pass. cbn [for_each].
  rewrite (service_gated _ _ _ _ _ _ _ pass_now 3 two_clients 0
             (mkBot 0 0 0 0 1 (FInt 0, FInt 0, FInt 0)));
    [|reflexivity|reflexivity|simpl; lra].
  cbn [mbind option_bind]. unfold Server.service.
  rewrite decide_False by done.
  replace (gated pass_now 4 two_clients) with (Some false).
  2:{ unfold gated. change (fd_to_id_map pass_now !! 4%Z) with (Some 1%nat).
      cbn [robot_state two_clients lookup list_lookup mbind option_bind].
      rewrite bool_decide_eq_false_2; [done|]. simpl. lra. }
  cbn [mbind option_bind].
  eexists. split; [reflexivity|]. split_and!; reflexivity.
Qed.

End server_runs.

(** * Further properties *)

Import Exact Admission Pacing Shape Frame.

(** ** More on the decoder *)

Section codec_extras.
Local Open Scope char_scope.
Import Scenario.

(** The scan of a packet cut in front of a character other than [b]. *)
Lemma finditer_app s rest p :
  head rest ≠ Some "b" →
  finditer_0b p (s ++ rest) = finditer_0b p s ++ finditer_0b (p + length s) rest.
Proof.
  intros Hrest.
  assert (∀ n s p, length s ≤ n →
            finditer_0b p (s ++ rest) = finditer_0b p s ++ finditer_0b (p + length s) rest)
    as Hgen; [|by eapply Hgen].
  clear s p. induction n as [|n IH]; intros s p Hn.
  { destruct s; [|simpl in Hn; lia]. simpl. by rewrite Nat.add_0_r. }
  destruct s as [|c [|c2 s]].
  - simpl. by rewrite Nat.add_0_r.
  - destruct rest as [|c' rest]; [done|]. simpl in *.
    destruct (Ascii.eqb_spec c' "b") as [->|_]; [done|].
    by rewrite andb_false_r.
  - change (finditer_0b p ((c :: c2 :: s) ++ rest))
      with (if Ascii.eqb c "0" && Ascii.eqb c2 "b"
            then p :: finditer_0b (p + 2) (s ++ rest)
            else finditer_0b (p + 1) ((c2 :: s) ++ rest)).
    change (finditer_0b p (c :: c2 :: s))
      with (if Ascii.eqb c "0" && Ascii.eqb c2 "b"
            then p :: finditer_0b (p + 2) s
            else finditer_0b (p + 1) (c2 :: s)).
    simpl in Hn.
    destruct (Ascii.eqb c "0" && Ascii.eqb c2 "b").
    + rewrite IH by lia. simpl. do 3 f_equal. lia.
    + rewrite IH by (simpl; lia). simpl. do 2 f_equal. lia.
Qed.

Lemma finditer_free s p : contains_0b s = false → finditer_0b p s = [].
Proof.
  intros Hfree. rewrite <- (app_nil_r s).
  rewrite finditer_skip by done. by destruct (length s).
Qed.



(** A field that fails stops the loop of the decoder. *)
Lemma decode_loop_fails packet l a b rest :
  decode_field (slice a b packet) = None →
  decode_loop packet (l ++ a :: b :: rest) = None.
Proof.
  intros Hfail. induction l as [|x l IH].
  - simpl. by rewrite Hfail.
  - destruct l as [|y l].
    + change (decode_loop packet ([x] ++ a :: b :: rest))
        with (f ← decode_field (slice x a packet);
              fs ← decode_loop packet ([] ++ a :: b :: rest); Some (f :: fs)).
      rewrite IH. destruct (decode_field (slice x a packet)); reflexivity.
    + change (decode_loop packet ((x :: y :: l) ++ a :: b :: rest))
        with (f ← decode_field (slice x y packet);
              fs ← decode_loop packet ((y :: l) ++ a :: b :: rest); Some (f :: fs)).
      rewrite IH. destruct (decode_field (slice x y packet)); reflexivity.
Qed.

(** X2: a marker with nothing behind it makes the decoder fail, whatever
    the rest of the packet: the marker may end the packet or be followed at
    once by the next marker; [num[2]] is then out of range. *)
Theorem decode_bare_marker_fails (before after : str)
    (Hafter : after = [] ∨ ∃ rest, after = "0" :: "b" :: rest) :
  msg_decode (before ++ "0" :: "b" :: after) = None.
Proof.
  unfold msg_decode.
  rewrite finditer_app by done. rewrite finditer_marker, Nat.add_0_l.
  assert (∃ tl, finditer_0b (length before + 2) after
                ++ [length (before ++ "0" :: "b" :: after)]
                = (length before + 2)%nat :: tl) as [tl Htl].
  { destruct Hafter as [->|[rest ->]].
    - exists []. simpl. rewrite length_app. simpl. do 2 f_equal.
    - rewrite finditer_marker. by eexists. }
  rewrite <- app_assoc. change ((?x :: ?l) ++ ?k) with (x :: (l ++ k)).
  rewrite Htl. apply decode_loop_fails.
  unfold slice. rewrite drop_app_length.
  replace (length before + 2 - length before)%nat with 2%nat by lia.
  reflexivity.
Qed.

Lemma decode_bare_marker_fails_witness :
  msg_decode (of_string "0b1" ++ "0" :: "b" :: of_string "0b11") = None.
Proof.
  apply (decode_bare_marker_fails (of_string "0b1") (of_string "0b11")).
  right. by eexists.
Defined.

Lemma decode_loop_length packet result fs :
  decode_loop packet result = Some fs → length fs = pred (length result).
Proof.
  revert fs. induction result as [|a result IH]; intros fs.
  - by intros [= <-].
  - destruct result as [|b result]; [by intros [= <-]|].
    change (decode_loop packet (a :: b :: result))
      with (f ← decode_field (slice a b packet);
            fs ← decode_loop packet (b :: result); Some (f :: fs)).
    destruct (decode_field (slice a b packet)); [|done]. cbn [mbind option_bind].
    destruct (decode_loop packet (b :: result)) as [fs'|]; [|done].
    cbn [mbind option_bind]. intros [= <-].
    rewrite length_cons, (IH fs' eq_refl). done.
Qed.

(** X3: when the decoder returns, it returns one field for every
    occurrence of the marker found by the scan, whatever stands between the
    markers. *)
Theorem decode_one_field_per_marker (packet : bytes) (fs : list field)
    (Hdecoded : msg_decode packet = Some fs) :
  length fs = length (finditer_0b 0 packet).
Proof.
  unfold msg_decode in Hdecoded. apply decode_loop_length in Hdecoded.
  rewrite Hdecoded, length_app. simpl. lia.
Qed.

Lemma decode_one_field_per_marker_witness :
  length [FInt 1; FStr (of_string " go"); FInt 2]
  = length (finditer_0b 0 (of_string "0b1 0b go0b10")).
Proof.
  apply (decode_one_field_per_marker (of_string "0b1 0b go0b10")).
  reflexivity.
Defined.

End codec_extras.

(** ** More on the kinematics *)

Section kinematics_extras.
Local Open Scope R_scope.

Lemma wheel_constants : radius_of_wheel ≠ 0 ∧ distance_between_wheel ≠ 0.
Proof. unfold radius_of_wheel, distance_between_wheel. split; lra. Qed.



(** X5: [ForwardKinematics2], the exact integrator, agrees with the Euler
    step of [dynamics] on straight motion (equal wheel displacements), and
    on opposite wheel displacements it turns the robot by
    [radius_of_wheel / distance_between_wheel * u] without moving it. *)
Theorem exact_straight_and_spin self u :
  ForwardKinematics2 self u u = dynamics self u u ∧
  ForwardKinematics2 self (- u) u
  = mkPose (pos_angle self + radius_of_wheel / distance_between_wheel * u)
           (pos_x self) (pos_y self).
Proof.
  destruct wheel_constants as [Hr Hd]. split.
  - unfold ForwardKinematics2, dynamics.
    rewrite decide_True by (field; done). cbn [fst snd].
    f_equal; field; done.
  - unfold ForwardKinematics2.
    assert (radius_of_wheel * - u / 2 + radius_of_wheel * u / 2 = 0) as -> by field.
    case_decide as Hz; cbn [fst snd].
    + assert (radius_of_wheel / distance_between_wheel * u = 0) as ->
        by (rewrite <- Hz; field; done).
      f_equal; ring.
    + set (V0 := - radius_of_wheel * - u / (2 * distance_between_wheel)
                  + radius_of_wheel * u / (2 * distance_between_wheel)) in *.
      assert (radius_of_wheel / distance_between_wheel * u = V0) as ->
        by (unfold V0; field; done).
      f_equal; field; done.
Qed.

(** X6: the displacement computed by [ForwardKinematics2] does not depend
    on where the robot stands nor on where it heads: for two robots and
    the same wheel displacements, the turn and the length of the step are
    the same. *)
Theorem exact_step_frame_independent self self' u_x u_y :
  let p := ForwardKinematics2 self u_x u_y in
  let p' := ForwardKinematics2 self' u_x u_y in
  heading p - pos_angle self = heading p' - pos_angle self' ∧
  (px p - pos_x self) ^ 2 + (py p - pos_y self) ^ 2
  = (px p' - pos_x self') ^ 2 + (py p' - pos_y self') ^ 2.
Proof.
  intros p p'. unfold p, p', ForwardKinematics2.
  set (delq_b := if decide (_ = 0) then _ else _).
  cbn [heading px py]. split; [ring|].
  pose proof (sin2_cos2 (pos_angle self)) as H1.
  pose proof (sin2_cos2 (pos_angle self')) as H2. unfold Rsqr in H1, H2.
  transitivity ((sin (pos_angle self) * sin (pos_angle self)
                 + cos (pos_angle self) * cos (pos_angle self))
                * (delq_b.1.2 * delq_b.1.2 + delq_b.2 * delq_b.2)); [ring|].
  rewrite H1, <- H2. ring.
Qed.

End kinematics_extras.

(** ** More on the integration pass *)

Section loop_extras.
Context {A : Type}.

Lemma for_each_snoc {B S : Type} (body : B → S → option S) l x s :
  for_each body (l ++ [x]) s = s' ← for_each body l s; body x s'.
Proof.
  revert s. induction l as [|i l IH]; intros s; simpl.
  - by destruct (body x s).
  - destruct (body i s); simpl; auto.
Qed.

(** A loop over [range(0, n)] whose iteration [i] replaces element [i] by
    a function of that element. *)
Lemma for_each_pointwise (f : nat → A → A) (body : nat → list A → option (list A)) :
  (∀ i rs, body i rs = r ← rs !! i; Some (<[i := f i r]> rs)) →
  ∀ n rs, n ≤ length rs →
    ∃ post, for_each body (range 0 n) rs = Some post ∧
            length post = length rs ∧
            ∀ i r, rs !! i = Some r →
                   post !! i = Some (if decide (i < n) then f i r else r).
Proof.
  intros Hbody. unfold range. induction n as [|n IH]; intros rs Hn.
  - exists rs. split_and!; [done..|]. intros i r Hr. by rewrite decide_False by lia.
  - destruct (IH rs ltac:(lia)) as (mid & Hmid & Hlen & Hlook).
    rewrite Nat.sub_0_r in *. rewrite seq_S, for_each_snoc, Hmid. simpl.
    destruct (lookup_lt_is_Some_2 rs n ltac:(lia)) as [r Hr].
    rewrite Hbody, (Hlook n r Hr), decide_False by lia. simpl.
    eexists. split_and!; [done|by rewrite length_insert|].
    intros i r' Hr'. destruct (decide (i = n)) as [->|Hne].
    + rewrite list_lookup_insert_eq by lia. rewrite decide_True by lia. congruence.
    + rewrite list_lookup_insert_ne by done. rewrite (Hlook i r' Hr').
      repeat case_decide; try done; lia.
Qed.

End loop_extras.

Section world_extras.
Context (config : Configuration).
Local Open Scope R_scope.


(** X8: a pass of [integrate_world] changes nothing of a robot but its
    pose and its clock: the number of robots, the id and the indicator of
    every robot stay as they are, and robots beyond [num_of_robot] are not
    touched at all. *)
Theorem integrate_world_frame pre (n : nat) wheel_vel_arr dt sim_time post
    (Hpass : integrate_world config pre n wheel_vel_arr dt sim_time = Some post) :
  length post = length pre ∧
  ∀ i r, pre !! i = Some r →
         ∃ r', post !! i = Some r' ∧ Robot.id r' = Robot.id r ∧
               Robot.usr_led r' = Robot.usr_led r ∧
               ((n ≤ i)%nat → r' = r).
Proof.
  assert (length post = length pre ∧ drop n post = drop n pre) as [Hlen Hdrop].
  { revert Hpass. unfold integrate_world.
    apply (for_each_invariant (λ rs, length rs = length pre ∧ drop n rs = drop n pre));
      [|done].
    intros i rs rs' Hi [Hl Hd] Hstep. apply elem_of_range in Hi.
    apply integrate_robot_inv in Hstep as (? & ? & ? & _ & _ & _ & ->).
    rewrite length_insert, drop_insert_lt by lia. done. }
  split; [done|]. intros i r Hr.
  destruct (decide (i < n)%nat) as [Hi|Hi].
  - destruct (integrate_world_robot config _ _ _ _ _ _ i Hpass Hi)
      as (wv & self & ok & _ & Hself & _ & Hr').
    rewrite Hr in Hself. injection Hself as <-.
    eexists. split; [done|]. split_and!; [done..|lia].
  - exists r. split_and!; [|done..].
    rewrite <- (take_drop n post), lookup_app_r by (rewrite length_take; lia).
    rewrite Hdrop, length_take, lookup_drop.
    rewrite <- Hr. f_equal. apply lookup_lt_Some in Hr. lia.
Qed.

(** X9: a pass of [integrate_world] with all wheels at rest leaves every
    robot that stands inside the inset arena where it is, whatever its
    heading and whatever the collision check answers: x and y, the id and
    the indicator are as they were, and the clock is the maximum of its
    value and [sim_time]. *)
Theorem rest_keeps_poses pre dt sim_time
    (Hinside : ∀ i r, pre !! i = Some r →
                 inside_arena config (Robot.pos_x r) (Robot.pos_y r)) :
  ∃ post, integrate_world config pre (length pre) (replicate (length pre) (0, 0))
                          dt sim_time = Some post ∧
          ∀ i r, pre !! i = Some r →
                 ∃ r', post !! i = Some r' ∧
                       Robot.pos_x r' = Robot.pos_x r ∧ Robot.pos_y r' = Robot.pos_y r ∧
                       Robot.id r' = Robot.id r ∧ Robot.usr_led r' = Robot.usr_led r ∧
                       clk r' = py_max (clk r) sim_time.
Proof.
  destruct (integrate_world_total config pre (length pre)
              (replicate (length pre) (0, 0)) dt sim_time)
    as (post & Hpost & Hlen); [done|by rewrite length_replicate|].
  exists post. split; [done|]. intros i r Hr.
  apply lookup_lt_Some in Hr as Hi.
  destruct (integrate_world_robot config _ _ _ _ _ _ i Hpost Hi)
    as (wv & self & ok & Hwv & Hself & _ & Hr').
  rewrite Hr in Hself. injection Hself as <-.
  apply lookup_replicate in Hwv as [-> _].
  destruct (Hinside i r Hr) as [Hx Hy].
  destruct (integrate_translation r 0 0 dt) as [Hpx Hpy].
  cbn [fst snd] in Hr'. rewrite Hpx, Hpy in Hr'.
  replace (Robot.pos_x r + radius_of_wheel * cos (pos_angle r) / 2 * (0 * dt)
           + radius_of_wheel * cos (pos_angle r) / 2 * (0 * dt))
    with (Robot.pos_x r) in Hr' by ring.
  replace (Robot.pos_y r + radius_of_wheel * sin (pos_angle r) / 2 * (0 * dt)
           + radius_of_wheel * sin (pos_angle r) / 2 * (0 * dt))
    with (Robot.pos_y r) in Hr' by ring.
  rewrite !Tauto.if_same, !clip_inside in Hr' by done.
  eexists. split; [exact Hr'|]. done.
Qed.

(** X10: [update_time] sets the clock of each of the first [num_of_robot]
    robots to the maximum of its value and [sim_time] and changes nothing
    else; these are the clocks that a pass of [integrate_world] at the same
    [sim_time] leaves. *)
Theorem update_time_clocks rs (n : nat) sim_time (Hn : (n ≤ length rs)%nat) :
  ∃ post, update_time rs n sim_time = Some post ∧
          length post = length rs ∧
          (∀ i r, rs !! i = Some r →
                  post !! i = Some (if decide (i < n)%nat
                                    then set_clk (py_max (clk r) sim_time) r else r)) ∧
          ∀ wheel_vel_arr dt post' i r r',
            integrate_world config rs n wheel_vel_arr dt sim_time = Some post' →
            (i < n)%nat → post !! i = Some r → post' !! i = Some r' → clk r' = clk r.
Proof.
  destruct (for_each_pointwise (λ _ r, set_clk (py_max (clk r) sim_time) r)
              (λ i robot_state,
                 r ← robot_state !! i;
                 if decide (clk r < sim_time)
                 then Some (<[i := set_clk sim_time r]> robot_state)
                 else Some robot_state)) with (n := n) (rs := rs)
    as (post & Hpost & Hlen & Hlook); [|done|].
  { intros i l. destruct (l !! i) as [r|] eqn:Hr; simpl; [|done].
    unfold py_max. case_decide; [done|].
    f_equal. symmetry. rewrite <- (list_insert_id l i r Hr) at 2. f_equal. by destruct r. }
  exists post. split_and!; [done..|].
  intros wheel_vel_arr dt post' i r r' Hpass Hi Hr Hr'.
  destruct (integrate_world_robot config _ _ _ _ _ _ i Hpass Hi)
    as (wv & self & ok & _ & Hself & _ & Hr2).
  rewrite Hr' in Hr2. injection Hr2 as ->.
  rewrite (Hlook i self Hself), decide_True in Hr by done. by injection Hr as <-.
Qed.

End world_extras.

Section world_extras_runs.
Local Open Scope R_scope.
Import Scenario.


Lemma integrate_world_frame_witness :
  ∃ post, integrate_world config16 at_wall 2 at_wall_wheels 1 1 = Some post ∧
          length post = length at_wall ∧
          ∀ i r, at_wall !! i = Some r →
                 ∃ r', post !! i = Some r' ∧ Robot.id r' = Robot.id r ∧
                       Robot.usr_led r' = Robot.usr_led r ∧
                       ((2 ≤ i)%nat → r' = r).
Proof.
  pose proof (two_robot_pass config16 (bot_at 0 (9 / 2) 0 0) (bot_at 1 3 0 0)
                (-20, -20) (200, 200) 1 1) as Hpass.
  cbv zeta in Hpass. eexists. split; [exact Hpass|].
  exact (integrate_world_frame config16 _ _ _ _ _ _ Hpass).
Defined.

Lemma rest_keeps_poses_witness :
  ∃ post, integrate_world config16 near_pair 2 (replicate 2 (0, 0)) (1 / 10) 5 = Some post ∧
          ∀ i r, near_pair !! i = Some r →
                 ∃ r', post !! i = Some r' ∧
                       Robot.pos_x r' = Robot.pos_x r ∧ Robot.pos_y r' = Robot.pos_y r ∧
                       Robot.id r' = Robot.id r ∧ Robot.usr_led r' = Robot.usr_led r ∧
                       clk r' = py_max (clk r) 5.
Proof.
  apply (rest_keeps_poses config16 near_pair (1 / 10) 5).
  intros i r Hr.
  destruct i as [|[|]]; [| |done]; injection Hr as <-;
    unfold inside_arena; simpl; lra.
Defined.

Lemma update_time_clocks_witness :
  ∃ post, update_time near_pair 1 5 = Some post ∧
          length post = length near_pair ∧
          (∀ i r, near_pair !! i = Some r →
                  post !! i = Some (if decide (i < 1)%nat
                                    then set_clk (py_max (clk r) 5) r else r)) ∧
          ∀ wheel_vel_arr dt post' i r r',
            integrate_world config16 near_pair 1 wheel_vel_arr dt 5 = Some post' →
            (i < 1)%nat → post !! i = Some r → post' !! i = Some r' → clk r' = clk r.
Proof.
  apply (update_time_clocks config16 near_pair 1 5). simpl. lia.
Defined.

End world_extras_runs.

(** ** More on the message relay *)

Section relay_extras.
Context (config : Configuration) (uniform : nat → R).
Local Open Scope R_scope.

Lemma range_of_val_bound (robot_id n len j : nat) :
  (robot_id < len)%nat → (n ≤ len)%nat → j ∈ range_of_val robot_id n → (j < len)%nat.
Proof.
  intros Hid Hn. unfold range_of_val.
  case_decide; rewrite ?elem_of_app, !elem_of_range; lia.
Qed.

(** X11: nothing is delivered, to no robot and not to the sender either,
    when the communication range is zero or negative, or when the pass
    rate is zero or negative (the draws of [np.random.uniform] are never
    negative): the send returns the buffers and the payload as they were. *)
Theorem nothing_delivered (mb : MsgBuffer) (MSG n : nat) msg (robot_id : nat) rs nd
    (Hsender : (robot_id < length rs)%nat)
    (Hrobots : (n ≤ length rs)%nat)
    (Hoff : comm_range config <= 0 ∨
            (packet_pass_rate config <= 0 ∧ ∀ k, 0 <= uniform k)) :
  ∃ d, update_msg_buffer config uniform mb MSG n msg robot_id rs nd
       = Some (mkRelay msg mb d) ∧ (nd ≤ d)%nat.
Proof.
  unfold update_msg_buffer.
  destruct (lookup_lt_is_Some_2 rs robot_id Hsender) as [ref ->]. simpl.
  assert (∀ rng d, Forall (λ j, j < length rs)%nat rng →
            ∃ d', for_each (relay_body config uniform MSG (pos_x ref) (pos_y ref) rs) rng
                           (mkRelay msg mb d) = Some (mkRelay msg mb d') ∧ (d ≤ d')%nat)
    as Hloop.
  { induction rng as [|j rng IH]; intros d Hrng; [by exists d|].
    apply Forall_cons_1 in Hrng as [Hj Hrng]. cbn [for_each].
    destruct (lookup_lt_is_Some_2 rs j Hj) as [cur Hcur].
    destruct (decide (dist (pos_x ref) (pos_y ref) (pos_x cur) (pos_y cur)
                      < comm_range config)) as [Hd|Hd].
    - destruct Hoff as [Hrange|[Hrate Hdraws]].
      { pose proof (sqrt_pos ((pos_x ref - pos_x cur) ^ 2 + (pos_y ref - pos_y cur) ^ 2)).
        unfold dist in Hd. lra. }
      rewrite (relay_body_lost config uniform MSG _ _ rs j (mkRelay msg mb d) cur Hcur Hd).
      2:{ simpl. specialize (Hdraws d). lra. }
      simpl. destruct (IH (S d) Hrng) as (d' & -> & Hle). exists d'. split; [done|lia].
    - rewrite (relay_body_out_of_range config uniform MSG _ _ rs j _ cur Hcur Hd).
      simpl. by apply IH. }
  apply Hloop. apply Forall_forall. intros j Hj.
  by eapply range_of_val_bound.
Qed.

(** A delivery keeps separate buffers separate; a buffer other than the
    one appended to is left as it is. *)
Lemma deliver_separate MSG i st st' :
  separate (buffers st) →
  deliver config MSG i st = Some st' →
  separate (buffers st') ∧
  length (cells (buffers st')) = length (cells (buffers st)) ∧
  ∀ j, j ≠ i → buffer_of (buffers st') j = buffer_of (buffers st) j.
Proof.
  intros [Hnd Hval] Hst. unfold deliver, append in Hst.
  destruct (cells (buffers st) !! i) as [a|] eqn:Ha; simpl in Hst; [|done].
  destruct (objects (buffers st) !! a) as [old|] eqn:Hold; simpl in Hst; [|done].
  apply lookup_lt_Some in Ha as Hi. apply lookup_lt_Some in Hold as Hlt.
  set (msg := truncate MSG (payload st)) in *.
  set (objs := <[a := old ++ [msg]]> (objects (buffers st))) in *.
  assert (∀ j, j ≠ i →
            buffer_of (mkBuf objs (cells (buffers st))) j = buffer_of (buffers st) j) as Hother.
  { intros j Hj. unfold buffer_of. simpl.
    destruct (cells (buffers st) !! j) as [b|] eqn:Hb; simpl; [|done].
    unfold objs. rewrite list_lookup_insert_ne; [done|].
    intros ->. apply Hj. by eapply NoDup_lookup. }
  unfold buffer_of in Hst. simpl in Hst. rewrite Ha in Hst. simpl in Hst.
  assert (objs !! a = Some (old ++ [msg])) as Hobj by by apply list_lookup_insert_eq.
  rewrite Hobj in Hst. simpl in Hst.
  case_decide as Hlen.
  - unfold rebind in Hst. simpl in Hst. rewrite decide_True in Hst by done.
    simpl in Hst. injection Hst as <-. simpl. split_and!.
    + split; simpl.
      * apply NoDup_alt. intros j1 j2 x H1 H2.
        destruct (decide (j1 = i)) as [->|Hn1], (decide (j2 = i)) as [->|Hn2]; [done|..].
        -- rewrite list_lookup_insert_eq in H1 by done. injection H1 as <-.
           rewrite list_lookup_insert_ne in H2 by done.
           apply list_elem_of_lookup_2, Hval in H2. unfold objs in H2.
           rewrite length_insert in H2. lia.
        -- rewrite list_lookup_insert_eq in H2 by done. injection H2 as <-.
           rewrite list_lookup_insert_ne in H1 by done.
           apply list_elem_of_lookup_2, Hval in H1. unfold objs in H1.
           rewrite length_insert in H1. lia.
        -- rewrite list_lookup_insert_ne in H1, H2 by done. by eapply NoDup_lookup.
      * intros b Hb. rewrite length_app. simpl.
        apply list_elem_of_lookup in Hb as [j Hj].
        destruct (decide (j = i)) as [->|Hne].
        -- rewrite list_lookup_insert_eq in Hj by done. injection Hj as <-. lia.
        -- rewrite list_lookup_insert_ne in Hj by done.
           apply list_elem_of_lookup_2, Hval in Hj. unfold objs.
           rewrite length_insert. lia.
    + by rewrite length_insert.
    + intros j Hj. rewrite <- (Hother j Hj). unfold buffer_of. simpl.
      rewrite list_lookup_insert_ne by done.
      destruct (cells (buffers st) !! j) as [b|] eqn:Hb; simpl; [|done].
      apply lookup_app_l. apply list_elem_of_lookup_2, Hval in Hb.
      unfold objs. by rewrite length_insert.
  - injection Hst as <-. simpl. split_and!; [|done..].
    split; [done|]. simpl. intros b Hb. unfold objs. rewrite length_insert. by apply Hval.
Qed.

(** X12: when no two robots share a list object and the capacity is at
    least one entry, a send keeps it that way and keeps every buffer within
    the capacity: an overflow needs the shared list of [loop]. *)
Theorem separate_buffers_stay_within_capacity (mb : MsgBuffer) (MSG n : nat) msg
    (robot_id : nat) rs nd st
    (Hcapacity : (0 < msg_buffer_size config)%Z)
    (Hseparate : separate mb)
    (Hwithin : within_capacity (msg_buffer_size config) mb)
    (Hsend : update_msg_buffer config uniform mb MSG n msg robot_id rs nd = Some st) :
  separate (buffers st) ∧
  within_capacity (msg_buffer_size config) (buffers st) ∧
  length (cells (buffers st)) = length (cells mb).
Proof.
  unfold update_msg_buffer in Hsend.
  destruct (rs !! robot_id) as [ref|]; simpl in Hsend; [|done].
  revert Hsend.
  apply (for_each_invariant
           (λ st, separate (buffers st) ∧
                  within_capacity (msg_buffer_size config) (buffers st) ∧
                  length (cells (buffers st)) = length (cells mb))); [|done].
  intros i s s' _ (Hsep & Hcap & Hlen) Hbody. unfold relay_body in Hbody.
  destruct (rs !! i) as [cur|]; simpl in Hbody; [|done].
  case_decide; [|by injection Hbody as <-].
  destruct (bool_decide _); [|by injection Hbody as <-].
  destruct (deliver_separate MSG i (mkRelay (payload s) (buffers s) (S (draws s))) s'
              Hsep Hbody) as (Hsep' & Hlen' & Hother).
  split_and!; [done| |simpl in Hlen'; congruence].
  intros j l Hl. destruct (decide (j = i)) as [->|Hne].
  - destruct (buffer_of (buffers s) i) as [old|] eqn:Hold.
    + by destruct (deliver_within_capacity config MSG i
                     (mkRelay (payload s) (buffers s) (S (draws s))) s' old l
                     Hcapacity Hold Hbody Hl).
    + unfold deliver, append in Hbody. simpl in Hbody. unfold buffer_of in Hold.
      destruct (cells (buffers s) !! i); simpl in *; [|done]. by rewrite Hold in Hbody.
  - rewrite (Hother j Hne) in Hl. by eapply Hcap.
Qed.

(** X13: a send stores no payload longer than [MSG_BUFFER_SIZE] bytes:
    if every payload in the buffers is within that size before the send,
    so is every payload after it, however long the payload sent. *)
Theorem payloads_stay_within_size (mb : MsgBuffer) (MSG n : nat) msg
    (robot_id : nat) rs nd st
    (Hbefore : payloads_within MSG mb)
    (Hsend : update_msg_buffer config uniform mb MSG n msg robot_id rs nd = Some st) :
  payloads_within MSG (buffers st).
Proof.
  unfold update_msg_buffer in Hsend.
  destruct (rs !! robot_id) as [ref|]; simpl in Hsend; [|done].
  revert Hsend.
  apply (for_each_invariant (λ st, payloads_within MSG (buffers st))); [|done].
  intros i s s' _ Hs Hbody. unfold relay_body in Hbody.
  destruct (rs !! i) as [cur|]; simpl in Hbody; [|done].
  case_decide; [|by injection Hbody as <-].
  destruct (bool_decide _); [|by injection Hbody as <-].
  unfold deliver, append in Hbody. simpl in Hbody.
  destruct (cells (buffers s) !! i) as [a|] eqn:Ha; simpl in Hbody; [|done].
  destruct (objects (buffers s) !! a) as [old|] eqn:Hold; simpl in Hbody; [|done].
  assert (Forall (λ m : bytes, (length m ≤ MSG)%nat) (old ++ [truncate MSG (payload s)]))
    as Hnew.
  { apply Forall_app. split.
    - unfold payloads_within in Hs. rewrite Forall_lookup in Hs. by eapply Hs.
    - apply Forall_singleton. rewrite truncate_length. lia. }
  assert (payloads_within MSG
            (mkBuf (<[a := old ++ [truncate MSG (payload s)]]> (objects (buffers s)))
                   (cells (buffers s)))) as Happ.
  { unfold payloads_within. simpl. by apply Forall_insert. }
  destruct (buffer_of _ i) as [l|] eqn:Hl; simpl in Hbody; [|done].
  case_decide.
  - unfold rebind in Hbody. case_decide; simpl in Hbody; [|done].
    injection Hbody as <-. unfold payloads_within. simpl.
    apply Forall_app. split; [done|]. apply Forall_singleton.
    unfold buffer_of in Hl. simpl in Hl. rewrite Ha in Hl. simpl in Hl.
    apply lookup_lt_Some in Hold as Hlt.
    rewrite list_lookup_insert_eq in Hl by done. injection Hl as <-.
    unfold slice_last. repeat case_decide; [done|by apply Forall_drop..].
  - by injection Hbody as <-.
Qed.

End relay_extras.

Section relay_extras_runs.
Local Open Scope R_scope.
Import Scenario Scenario2.

Lemma nothing_delivered_witness :
  ∃ d, update_msg_buffer config_silent half (replicated_empty 2) 1792 2 hello 0 near_pair 0
       = Some (mkRelay hello (replicated_empty 2) d) ∧ (0 ≤ d)%nat.
Proof.
  apply (nothing_delivered config_silent half (replicated_empty 2) 1792 2 hello 0
           near_pair 0).
  - simpl. lia.
  - simpl. lia.
  - left. simpl. lra.
Defined.

(** A send from robot 1 into buffers of their own. *)
Lemma send_into_separate_buffers :
  update_msg_buffer config16 half (separate_empty 2) 1792 2 hello 1 near_pair 0
  = Some (mkRelay hello (mkBuf [[]; [hello]] [0; 1]%nat) 1).
Proof.
  unfold update_msg_buffer, near_pair.
  change (range_of_val 1 2) with [1%nat].
  cbn [lookup list_lookup mbind option_bind for_each pos_x pos_y bot_at].
  rewrite (relay_body_delivered config16 half _ _ _ _ 1%nat _ (bot_at 1 (5 / 100) 0 0));
    [|reflexivity|simpl; horizontal|apply half_passes].
  reflexivity.
Qed.

Lemma separate_buffers_stay_within_capacity_witness :
  separate (mkBuf [[]; [hello]] [0; 1]%nat) ∧
  within_capacity 16 (mkBuf [[]; [hello]] [0; 1]%nat) ∧
  length [0; 1]%nat = length (cells (separate_empty 2)).
Proof.
  apply (separate_buffers_stay_within_capacity config16 half (separate_empty 2) 1792 2
           hello 1 near_pair 0 (mkRelay hello (mkBuf [[]; [hello]] [0; 1]%nat) 1)).
  - simpl. lia.
  - split; simpl.
    + apply NoDup_cons. split; [|apply NoDup_singleton].
      rewrite list_elem_of_singleton. lia.
    + intros a Ha. apply elem_of_cons in Ha as [->|Ha]; [lia|].
      apply list_elem_of_singleton in Ha as ->. lia.
  - intros i l Hl. destruct i as [|[|]]; [| |done]; injection Hl as <-; simpl; lia.
  - apply send_into_separate_buffers.
Defined.

Lemma payloads_stay_within_size_witness :
  payloads_within 1792 (mkBuf [[]; [hello]] [0; 1]%nat).
Proof.
  apply (payloads_stay_within_size config16 half (separate_empty 2) 1792 2
           hello 1 near_pair 0 (mkRelay hello (mkBuf [[]; [hello]] [0; 1]%nat) 1)).
  - unfold payloads_within. simpl. repeat constructor.
  - apply send_into_separate_buffers.
Defined.

End relay_extras_runs.

(** ** More on the commands *)

Section server_extras.
Context (config : Configuration) (uniform : nat → R).
Context (py_int : str → option Z) (json_loads_pair : bytes → option (R * R)).
Context (str_of_len : nat → bytes) (str_of_clock : R → bytes).
Context (json_dumps_pose : R → R → R → bytes).
Local Open Scope R_scope.

Local Abbreviation get_data :=
  (get_data config uniform py_int json_loads_pair str_of_len str_of_clock json_dumps_pose).
Local Abbreviation service :=
  (service config uniform py_int json_loads_pair str_of_len str_of_clock json_dumps_pose).
Local Abbreviation read_pass :=
  (read_pass config uniform py_int json_loads_pair str_of_len str_of_clock json_dumps_pose).

Lemma same_poses_refl rs : same_poses rs rs.
Proof. apply Forall2_same_length_lookup_2; [done|]. by intros i r r' -> [= ->]. Qed.

Lemma same_poses_trans rs1 rs2 rs3 :
  same_poses rs1 rs2 → same_poses rs2 rs3 → same_poses rs1 rs3.
Proof.
  unfold same_poses. rewrite !Forall2_same_length_lookup.
  intros [Hl12 H12] [Hl23 H23]. split; [congruence|].
  intros i r1 r3 H1 H3.
  destruct (lookup_lt_is_Some_2 rs2 i) as [r2 H2].
  { apply lookup_lt_Some in H1. lia. }
  destruct (H12 i r1 r2 H1 H2) as (?&?&?&?), (H23 i r2 r3 H2 H3) as (?&?&?&?).
  split_and!; congruence.
Qed.

Lemma same_poses_insert rs i r r' :
  rs !! i = Some r →
  Robot.id r' = Robot.id r → pos_x r' = pos_x r → pos_y r' = pos_y r →
  pos_angle r' = pos_angle r →
  same_poses rs (<[i := r']> rs).
Proof.
  intros Hi ????. rewrite <- (list_insert_id rs i r Hi) at 1.
  apply Forall2_insert; [apply same_poses_refl|done].
Qed.

Lemma well_behaved_refl s w : well_behaved s w w.
Proof.
  split; [split; [apply same_poses_refl|done]|].
  intros sock Hs. by exists sock.
Qed.

Lemma well_behaved_trans s w1 w2 w3 :
  well_behaved s w1 w2 → well_behaved s w2 w3 → well_behaved s w1 w3.
Proof.
  intros [[Hp12 Hi12] Hio12] [[Hp23 Hi23] Hio23]. split.
  - split; [by eapply same_poses_trans|congruence].
  - intros s1 Hs1. destruct (Hio12 s1 Hs1) as (s2 & Hs2 & Ho12 & Hin12).
    destruct (Hio23 s2 Hs2) as (s3 & Hs3 & Ho23 & Hin23).
    exists s3. split_and!; [done|by etrans|by etrans].
Qed.

Lemma recv_well_behaved s w data w' : recv s w = Some (data, w') → well_behaved s w w'.
Proof.
  unfold recv. intros H.
  destruct (sockets w !! s) as [sock|] eqn:Hs; simpl in H; [|done].
  destruct (inbox sock) as [|d rest] eqn:Hin; [done|]. injection H as _ <-.
  split; [split; [apply same_poses_refl|done]|].
  intros s1 Hs1. rewrite Hs in Hs1. injection Hs1 as <-.
  eexists. simpl. rewrite lookup_insert_eq. split_and!; [done..|].
  simpl. rewrite Hin. by apply suffix_cons_r.
Qed.

Lemma sendall_well_behaved s data w w' : sendall s data w = Some w' → well_behaved s w w'.
Proof.
  unfold sendall. intros H.
  destruct (sockets w !! s) as [sock|] eqn:Hs; simpl in H; [|done]. injection H as <-.
  split; [split; [apply same_poses_refl|done]|].
  intros s1 Hs1. rewrite Hs in Hs1. injection Hs1 as <-.
  eexists. simpl. rewrite lookup_insert_eq. split_and!; [done| |done].
  simpl. by apply prefix_app_r.
Qed.

Lemma stream_buffer_well_behaved s arr w w' :
  stream_buffer s arr w = Some w' → well_behaved s w w'.
Proof.
  unfold stream_buffer.
  apply (for_each_invariant (well_behaved s w)); [|apply well_behaved_refl].
  intros data w1 w2 _ Hw1 H.
  destruct (recv s w1) as [[d w1']|] eqn:Hrecv; simpl in H; [|done].
  eapply well_behaved_trans; [done|].
  eapply well_behaved_trans; [by eapply recv_well_behaved|by eapply sendall_well_behaved].
Qed.

Lemma set_msg_buffer_well_behaved s w mb n : well_behaved s w (set_msg_buffer mb n w).
Proof.
  split; [split; [apply same_poses_refl|done]|]. intros sock Hs. by exists sock.
Qed.

Lemma set_wheel_vel_arr_well_behaved s w v : well_behaved s w (set_wheel_vel_arr v w).
Proof.
  split; [split; [apply same_poses_refl|done]|]. intros sock Hs. by exists sock.
Qed.

Lemma set_robot_state_well_behaved s w rs :
  same_poses (robot_state w) rs → well_behaved s w (set_robot_state rs w).
Proof. intros H. split; [by split|]. intros sock Hs. by exists sock. Qed.

Ltac command_step :=
  match goal with
  | H : (sendall ?s ?d ?w ≫= _) = Some _ |- _ =>
      let w' := fresh "w" in let Hw := fresh "Hw" in
      destruct (sendall s d w) as [w'|] eqn:Hw; simpl in H; [|discriminate];
      apply sendall_well_behaved in Hw
  | H : sendall ?s ?d ?w = Some _ |- _ => apply sendall_well_behaved in H
  | H : (recv ?s ?w ≫= _) = Some _ |- _ =>
      let w' := fresh "w" in let d := fresh "data" in let Hw := fresh "Hw" in
      destruct (recv s w) as [[d w']|] eqn:Hw; simpl in H; [|discriminate];
      apply recv_well_behaved in Hw
  | H : (stream_buffer ?s ?a ?w ≫= _) = Some _ |- _ =>
      let w' := fresh "w" in let Hw := fresh "Hw" in
      destruct (stream_buffer s a w) as [w'|] eqn:Hw; simpl in H; [|discriminate];
      apply stream_buffer_well_behaved in Hw
  | H : (?m ≫= _) = Some _ |- _ =>
      let x := fresh "x" in let Hx := fresh "Hx" in
      destruct m as [x|] eqn:Hx; simpl in H; [|discriminate]
  | H : (if decide ?P then _ else _) = Some _ |- _ => destruct (decide P)
  | H : (if ?b then _ else _) = Some _ |- _ => destruct b eqn:?
  | H : match ?f with FInt _ => _ | FStr _ => _ end = Some _ |- _ =>
      destruct f; [|discriminate]
  | H : Some _ = Some _ |- _ => injection H as <-
  end.

Ltac command_chain :=
  repeat first
    [ assumption
    | apply well_behaved_refl
    | apply set_msg_buffer_well_behaved
    | apply set_wheel_vel_arr_well_behaved
    | eapply well_behaved_trans; [eassumption|] ].

Lemma get_data_well_behaved s msg n MSG w w' :
  get_data s msg n MSG w = Some w' → well_behaved s w w'.
Proof.
  unfold Server.get_data. intros H.
  destruct (msg !! 2%nat) as [opcode|]; simpl in H; [|done].
  repeat (destruct (decide (opcode = _)) as [_|_]).
  - repeat command_step.
    eapply well_behaved_trans; [|eassumption].
    apply set_robot_state_well_behaved.
    by eapply same_poses_insert.
  - repeat command_step; [|done].
    eapply well_behaved_trans; [eassumption|].
    apply set_robot_state_well_behaved.
    match goal with Hi : robot_state _ !! _ = Some _ |- _ =>
      by apply (same_poses_insert _ _ _ _ Hi) end.
  - repeat command_step. command_chain.
  - repeat command_step; command_chain.
  - repeat command_step; command_chain.
  - repeat command_step; command_chain.
  - repeat command_step; command_chain.
  - injection H as <-. apply well_behaved_refl.
Qed.

Lemma service_well_behaved p s w w' : service p s w = Some w' → well_behaved s w w'.
Proof.
  unfold Server.service. intros H.
  case_decide; [injection H as <-; apply well_behaved_refl|].
  destruct (gated p s w) as [[]|]; simpl in H;
    [injection H as <-; apply well_behaved_refl| |done].
  destruct (recv s w) as [[data w1]|] eqn:Hrecv; simpl in H; [|done].
  apply recv_well_behaved in Hrecv.
  case_decide; [by injection H as <-|].
  destruct (msg_decode data) as [msg|]; simpl in H; [|done].
  apply get_data_well_behaved in H. by eapply well_behaved_trans.
Qed.

(** X14: no command moves a robot.  Whatever the frame, [get_data] leaves
    the id, the position and the heading of every robot and the array of
    the ids as they are, and so does a whole read pass: poses change in
    [integrate_world] only. *)
Theorem commands_keep_robots :
  (∀ s msg n MSG w w', get_data s msg n MSG w = Some w' → keeps_robots w w') ∧
  (∀ p rlist w w', read_pass p rlist w = Some w' → keeps_robots w w').
Proof.
  split.
  - intros s msg n MSG w w' H. by apply get_data_well_behaved in H as [? _].
  - intros p rlist w w'. unfold Server.read_pass.
    apply (for_each_invariant (keeps_robots w)).
    + intros s w1 w2 _ [Hp1 Hi1] Hs.
      apply service_well_behaved in Hs as [[Hp2 Hi2] _].
      split; [by eapply same_poses_trans|congruence].
    + split; [apply same_poses_refl|done].
Qed.

(** X15: a command never takes back a reply nor puts back what it read:
    after [get_data] on a socket, and after the whole turn of the socket in
    the read pass, the replies sent before are a prefix of the replies on
    the socket and the data left to read is a suffix of the data that was
    left to read. *)
Theorem replies_are_kept :
  (∀ s msg n MSG w w', get_data s msg n MSG w = Some w' → io_monotone s w w') ∧
  (∀ p s w w', service p s w = Some w' → io_monotone s w w').
Proof.
  split.
  - intros s msg n MSG w w' H. by apply get_data_well_behaved in H as [_ ?].
  - intros p s w w' H. by apply service_well_behaved in H as [_ ?].
Qed.








(** What every step of a command does to the number of replies and to the
    number of chunks left to read. *)
Lemma sendall_count s data w w' :
  sendall s data w = Some w' →
  sent s w' = Datatypes.S (sent s w) ∧ unread s w' = unread s w.
Proof.
  unfold sendall, sent, unread. intros H.
  destruct (sockets w !! s) as [sock|] eqn:Hs; simpl in H; [|done]. injection H as <-.
  cbn [sockets set_sockets]. rewrite lookup_insert_eq. simpl.
  rewrite length_app. simpl. lia.
Qed.

Lemma recv_count s data w w' :
  recv s w = Some (data, w') →
  sent s w' = sent s w ∧ Datatypes.S (unread s w') = unread s w.
Proof.
  unfold recv, sent, unread. intros H.
  destruct (sockets w !! s) as [sock|] eqn:Hs; simpl in H; [|done].
  destruct (inbox sock) as [|d rest] eqn:Hin; [done|]. injection H as _ <-.
  cbn [sockets set_sockets]. rewrite lookup_insert_eq. simpl. by rewrite Hin.
Qed.

Lemma stream_buffer_count s arr w w' :
  stream_buffer s arr w = Some w' →
  sent s w' = (sent s w + length arr)%nat ∧ (unread s w' + length arr)%nat = unread s w.
Proof.
  unfold stream_buffer. revert w. induction arr as [|data arr IH]; intros w H.
  - injection H as <-. simpl. lia.
  - cbn [for_each] in H.
    destruct (recv s w) as [[d w1]|] eqn:Hrecv; simpl in H; [|done].
    destruct (sendall s data w1) as [w2|] eqn:Hsend; simpl in H; [|done].
    apply recv_count in Hrecv as [? ?]. apply sendall_count in Hsend as [? ?].
    apply IH in H as [? ?]. simpl. lia.
Qed.

Ltac count_step :=
  match goal with
  | H : (sendall ?s ?d ?w ≫= _) = Some _ |- _ =>
      let w' := fresh "w" in let Hw := fresh "Hw" in
      destruct (sendall s d w) as [w'|] eqn:Hw; simpl in H; [|discriminate];
      apply sendall_count in Hw as [? ?]
  | H : sendall ?s ?d ?w = Some _ |- _ => apply sendall_count in H as [? ?]
  | H : (recv ?s ?w ≫= _) = Some _ |- _ =>
      let w' := fresh "w" in let d := fresh "data" in let Hw := fresh "Hw" in
      destruct (recv s w) as [[d w']|] eqn:Hw; simpl in H; [|discriminate];
      apply recv_count in Hw as [? ?]
  | H : (stream_buffer ?s ?a ?w ≫= _) = Some _ |- _ =>
      let w' := fresh "w" in let Hw := fresh "Hw" in
      destruct (stream_buffer s a w) as [w'|] eqn:Hw; simpl in H; [|discriminate];
      apply stream_buffer_count in Hw as [? ?]
  | H : (?m ≫= _) = Some _ |- _ =>
      let x := fresh "x" in let Hx := fresh "Hx" in
      destruct m as [x|] eqn:Hx; simpl in H; [|discriminate]
  | H : (if decide ?P then _ else _) = Some _ |- _ => destruct (decide P)
  | H : (if ?b then _ else _) = Some _ |- _ => destruct b eqn:?
  | H : match ?f with FInt _ => _ | FStr _ => _ end = Some _ |- _ =>
      destruct f; [|discriminate]
  | H : Some _ = Some _ |- _ => injection H as <-
  end.

Ltac other_opcode Hc :=
  exfalso;
  first [ apply Hc; rewrite !elem_of_cons; auto 10
        | rewrite ?elem_of_cons, ?elem_of_nil in Hc; try decompose [or] Hc; done ].

Ltac count_up :=
  repeat count_step;
  unfold sent, unread in *;
  cbn [sockets set_robot_state set_msg_buffer set_wheel_vel_arr] in *; lia.

(** X17: the dialogue of every command.  When [get_data] runs to its end
    on a frame with the opcode [opcode], then on its socket: delay (3) and
    set_led (2) have sent one reply and read nothing; send_msg (4),
    get_clock (6), the wheel command (7) and get_pose (8) have sent two
    replies and read one chunk; recv_msg (5) for a robot with [len]
    buffered payloads has sent [2 + len] replies and read [1 + len]
    chunks; and for any other opcode nothing was sent or read and the
    state is as it was. *)
Theorem command_dialogue (s : Z) (msg : list field) (n MSG : nat) (w w' : State)
    (opcode : field)
    (Hrun : get_data s msg n MSG w = Some w')
    (Hopcode : msg !! 2%nat = Some opcode) :
  (opcode ∈ [FInt 3; FInt 2] →
   sent s w' = Datatypes.S (sent s w) ∧ unread s w' = unread s w) ∧
  (opcode ∈ [FInt 4; FInt 6; FInt 7; FInt 8] →
   sent s w' = Datatypes.S (Datatypes.S (sent s w)) ∧
   Datatypes.S (unread s w') = unread s w) ∧
  (opcode = FInt 5 →
   ∃ i arr, msg !! 1%nat = Some (FInt i) ∧
            buffer_of (msg_buffer w) (N.to_nat i) = Some arr ∧
            sent s w' = (sent s w + 2 + length arr)%nat ∧
            (unread s w' + 1 + length arr)%nat = unread s w) ∧
  (opcode ∉ [FInt 2; FInt 3; FInt 4; FInt 5; FInt 6; FInt 7; FInt 8] → w' = w).
Proof.
  unfold Server.get_data in Hrun. rewrite Hopcode in Hrun. cbn [mbind option_bind] in Hrun.
  repeat (destruct (decide (opcode = _)) as [->|?]).
  - split_and!; intros Hc; [count_up|other_opcode Hc..].
  - split_and!; intros Hc; [count_up|other_opcode Hc..].
  - split_and!; intros Hc; [other_opcode Hc|count_up|other_opcode Hc..].
  - split_and!; intros Hc; [other_opcode Hc..| |other_opcode Hc].
    destruct (msg !! 1%nat) as [[i|]|]; [|done..].
    cbn [mbind option_bind as_index] in Hrun.
    destruct (buffer_of (msg_buffer w) (N.to_nat i)) as [arr|] eqn:Harr; [|done].
    cbn [mbind option_bind] in Hrun.
    exists i, arr. split; [done|]. split; [done|]. count_up.
  - split_and!; intros Hc; [other_opcode Hc|count_up|other_opcode Hc..].
  - split_and!; intros Hc; [other_opcode Hc|count_up|other_opcode Hc..].
  - split_and!; intros Hc; [other_opcode Hc|count_up|other_opcode Hc..].
  - injection Hrun as <-. split_and!; intros Hc; [other_opcode Hc..|done].
Qed.

(** X18: a frame that is malformed ends the read pass.  When the socket
    whose turn it is is neither the visualizer nor passed over and its
    data, not empty and of ASCII bytes only, does not decode or decodes to
    fewer than three fields, the exception is not caught: neither the turn
    of the socket nor any read pass that starts with it runs to its end. *)
Theorem malformed_frame_ends_pass (p : Pass) (c : Z) (w : State)
    (data : bytes) (rest out : list bytes) (rlist : list Z)
    (Hvis : c ≠ vis_fd p)
    (Hopen : gated p c w = Some false)
    (Hsocket : sockets w !! c = Some (mkSock (data :: rest) out))
    (Hdata : length data ≠ 0%nat)
    (Hascii : ascii_only data)
    (Hmalformed : msg_decode data = None ∨
                  ∃ msg, msg_decode data = Some msg ∧ (length msg ≤ 2)%nat) :
  service p c w = None ∧ read_pass p (c :: rlist) w = None.
Proof.
  assert (service p c w = None) as Hservice.
  { unfold Server.service. rewrite decide_False by done. rewrite Hopen.
    cbn [mbind option_bind]. unfold recv. rewrite Hsocket.
    cbn [mbind option_bind inbox]. rewrite decide_False by done.
    destruct Hmalformed as [->|(msg & -> & Hlen)]; [done|].
    cbn [mbind option_bind]. unfold Server.get_data.
    rewrite (lookup_ge_None_2 msg 2) by lia. done. }
  split; [done|]. unfold Server.read_pass. cbn [for_each]. by rewrite Hservice.
Qed.

(** X19: the gate after a tick.  For a socket bound to robot [i], the read
    pass that follows a pass of [integrate_world] at [sim_time] passes the
    socket over exactly when the clock of the robot was ahead of [sim_time]
    before the tick: a robot that was not ahead is served, a robot that a
    delay has put ahead stays gated until the simulated time has caught
    up. *)
Theorem gate_after_tick (p : Pass) (c : Z) (i : nat) (w w' : State) (r : BotDiffDrive)
    (wheels : list (R * R)) (dt : R)
    (Hbound : fd_to_id_map p !! c = Some i)
    (Hrobot : robot_state w !! i = Some r)
    (Hrange : (i < num_of_robot p)%nat)
    (Htick : integrate_world config (robot_state w) (num_of_robot p) wheels dt
                             (sim_time_curr p) = Some (robot_state w')) :
  gated p c w' = Some (bool_decide (clk r > sim_time_curr p)).
Proof.
  destruct (integrate_world_robot config _ _ _ _ _ _ i Htick Hrange)
    as (wv & self & ok & _ & Hself & _ & Hr').
  rewrite Hrobot in Hself. injection Hself as <-.
  unfold gated. rewrite Hbound, Hr'. cbn [mbind option_bind clk]. f_equal.
  apply bool_decide_ext. unfold py_max. case_decide; lra.
Qed.

End server_extras.

Section server_extras_runs.
Local Open Scope R_scope.
Import Scenario Scenario2.

Local Abbreviation service0 :=
  (service config16 half no_int no_json plain_len plain_clock plain_pose).
Local Abbreviation read_pass0 :=
  (read_pass config16 half no_int no_json plain_len plain_clock plain_pose).
Local Abbreviation get_data0 :=
  (get_data config16 half no_int no_json plain_len plain_clock plain_pose).

(** The delay command of robot 1 on socket 4: the robots keep their
    poses. *)
Lemma commands_keep_robots_witness :
  ∃ w', get_data0 4 [FInt 0; FInt 1; FInt 3; FInt 2] 2 1792 two_clients = Some w' ∧
        keeps_robots two_clients w'.
Proof.
  destruct (commands_keep_robots config16 half no_int no_json plain_len plain_clock
              plain_pose) as (Hkeep & _).
  eexists. split; [reflexivity|].
  apply (Hkeep 4%Z [FInt 0; FInt 1; FInt 3; FInt 2] 2%nat 1792%nat two_clients).
  reflexivity.
Defined.

(** ... and its acknowledgement is added to the replies of socket 4. *)
Lemma replies_are_kept_witness :
  ∃ w', get_data0 4 [FInt 0; FInt 1; FInt 3; FInt 2] 2 1792 two_clients = Some w' ∧
        io_monotone 4 two_clients w'.
Proof.
  destruct (replies_are_kept config16 half no_int no_json plain_len plain_clock
              plain_pose) as (Hio & _).
  eexists. split; [reflexivity|].
  apply (Hio 4%Z [FInt 0; FInt 1; FInt 3; FInt 2] 2%nat 1792%nat two_clients).
  reflexivity.
Defined.


(** The delay command on socket 4: one reply, nothing read. *)
Lemma command_dialogue_witness :
  ∃ w', get_data0 4 [FInt 0; FInt 1; FInt 3; FInt 2] 2 1792 two_clients = Some w' ∧
    (FInt 3 ∈ [FInt 3; FInt 2] →
     sent 4 w' = Datatypes.S (sent 4 two_clients) ∧ unread 4 w' = unread 4 two_clients) ∧
    (FInt 3 ∈ [FInt 4; FInt 6; FInt 7; FInt 8] →
     sent 4 w' = Datatypes.S (Datatypes.S (sent 4 two_clients)) ∧
     Datatypes.S (unread 4 w') = unread 4 two_clients) ∧
    (FInt 3 = FInt 5 →
     ∃ i arr, [FInt 0; FInt 1; FInt 3; FInt 2] !! 1%nat = Some (FInt i) ∧
              buffer_of (msg_buffer two_clients) (N.to_nat i) = Some arr ∧
              sent 4 w' = (sent 4 two_clients + 2 + length arr)%nat ∧
              (unread 4 w' + 1 + length arr)%nat = unread 4 two_clients) ∧
    (FInt 3 ∉ [FInt 2; FInt 3; FInt 4; FInt 5; FInt 6; FInt 7; FInt 8] →
     w' = two_clients).
Proof.
  eexists. split; [reflexivity|].
  apply (command_dialogue config16 half no_int no_json plain_len plain_clock plain_pose
           4 [FInt 0; FInt 1; FInt 3; FInt 2] 2 1792 two_clients _ (FInt 3));
    reflexivity.
Defined.

(** The frame [0b1] has one field: the pass over sockets 5 and 4 stops at
    socket 5. *)
Lemma malformed_frame_ends_pass_witness :
  service0 pass_now 5 short_frame = None ∧
  read_pass0 pass_now [5%Z; 4%Z] short_frame = None.
Proof.
  apply (malformed_frame_ends_pass config16 half no_int no_json plain_len plain_clock
           plain_pose pass_now 5 short_frame (of_string "0b1") [] [] [4%Z]).
  - done.
  - reflexivity.
  - reflexivity.
  - done.
  - apply Forall_forall. intros c Hc.
    repeat (apply elem_of_cons in Hc as [->|Hc]; [vm_compute; lia|]).
    by apply elem_of_nil in Hc.
  - right. exists [FInt 1]. split; [reflexivity|]. simpl. lia.
Defined.

(** Robot 0, whose clock stands at 1, is still passed over after the tick
    at simulated time 0.1. *)
Lemma gate_after_tick_witness :
  ∃ post, integrate_world config16 (robot_state two_clients) 2 [(0, 0); (0, 0)]
                          (1 / 10) (1 / 10) = Some post ∧
          gated pass_now 3 (set_robot_state post two_clients)
          = Some (bool_decide (1 > 1 / 10)).
Proof.
  pose proof (two_robot_pass config16 (mkBot 0 0 0 0 1 (FInt 0, FInt 0, FInt 0))
                (bot_at 1 (5 / 100) 0 0) (0, 0) (0, 0) (1 / 10) (1 / 10)) as Hpass.
  cbv zeta in Hpass. eexists. split; [exact Hpass|].
  refine (gate_after_tick config16 pass_now 3 0 two_clients (set_robot_state _ two_clients)
            (mkBot 0 0 0 0 1 (FInt 0, FInt 0, FInt 0)) [(0, 0); (0, 0)] (1 / 10)
            _ _ _ Hpass).
  - reflexivity.
  - reflexivity.
  - simpl. lia.
Defined.

End server_extras_runs.

(** ** The dictionaries for the visualizer *)

Lemma for_each_app {B S : Type} (body : B → S → option S) l1 l2 s :
  for_each body (l1 ++ l2) s = s' ← for_each body l1 s; for_each body l2 s'.
Proof.
  revert s. induction l1 as [|i l1 IH]; intros s; simpl; [done|].
  destruct (body i s); simpl; auto.
Qed.

(** A loop that reaches an iteration that raises, raises. *)
Lemma for_each_raises {B S : Type} (body : B → S → option S) l1 j l2 s :
  (∀ s, body j s = None) → for_each body (l1 ++ j :: l2) s = None.
Proof.
  intros Hj. rewrite for_each_app. destruct (for_each body l1 s); simpl; [|done].
  by rewrite Hj.
Qed.

Section table_extras.
Context {K V B : Type} `{Countable K}.

(** A loop over [range(0, n)] that stores, under a key of its own for
    every [i], a value made of element [i] of a list. *)
Lemma for_each_table (key : nat → K) (val : nat → B → V) (lst : list B)
    (body : nat → gmap K V → option (gmap K V)) :
  Inj (=) (=) key →
  (∀ i m, body i m = x ← lst !! i; Some (<[key i := val i x]> m)) →
  ∀ n, n ≤ length lst →
    ∃ m, for_each body (range 0 n) ∅ = Some m ∧
         (∀ i, i < n → m !! key i = val i <$> lst !! i) ∧
         (∀ k, is_Some (m !! k) → ∃ i, i < n ∧ k = key i).
Proof.
  intros Hinj Hbody. unfold range. induction n as [|n IH]; intros Hn.
  - exists ∅. split_and!; [done|intros; lia|].
    intros k [? Hk]. by rewrite lookup_empty in Hk.
  - destruct IH as (m & Hm & Hin & Hout); [lia|].
    rewrite Nat.sub_0_r in *. rewrite seq_S, for_each_snoc, Hm. simpl.
    destruct (lookup_lt_is_Some_2 lst n ltac:(lia)) as [x Hx].
    rewrite Hbody, Hx. simpl. eexists. split; [done|]. split.
    + intros i Hi. destruct (decide (i = n)) as [->|Hne].
      * by rewrite lookup_insert_eq, Hx.
      * rewrite lookup_insert_ne by (intros ?%Hinj; done). apply Hin. lia.
    + intros k Hk. destruct (decide (k = key n)) as [->|Hne].
      * exists n. split; [lia|done].
      * rewrite lookup_insert_ne in Hk by done.
        destruct (Hout k Hk) as (i & Hi & ->). exists i. split; [lia|done].
Qed.

Lemma for_each_table_raises (key : nat → K) (val : nat → B → V) (lst : list B)
    (body : nat → gmap K V → option (gmap K V)) :
  (∀ i m, body i m = x ← lst !! i; Some (<[key i := val i x]> m)) →
  ∀ n, length lst < n → for_each body (range 0 n) ∅ = None.
Proof.
  intros Hbody n Hn. unfold range. rewrite Nat.sub_0_r.
  replace n with (length lst + Datatypes.S (n - Datatypes.S (length lst))) by lia.
  rewrite seq_app. cbn [seq]. apply for_each_raises.
  intros m. rewrite Hbody. by rewrite (lookup_ge_None_2 lst (0 + length lst)) by lia.
Qed.

End table_extras.

Section vis_extras.
Local Open Scope R_scope.

(** X20: [conv_to_json].  With at least [num_of_robot] robots in
    [robot_state] the dictionary has the keys [0 .. num_of_robot - 1] and
    no other key; the entry of robot [i] carries its id, leds and position
    as they are and, in the arithmetic of doubles whatever the rounding, an
    angle between [-np.pi] and [np.pi].  With fewer robots the function
    raises. *)
Theorem conv_to_json_table (rnd : R → R) (eps eta : R) (Hrnd : Float.Rounding rnd eps eta)
    (robot_state : list BotDiffDrive) (num_of_robot : nat) :
  ((num_of_robot ≤ length robot_state)%nat →
   ∃ json_dict, Vis.conv_to_json rnd robot_state num_of_robot = Some json_dict ∧
     (∀ i, (num_of_robot ≤ i)%nat → json_dict !! i = None) ∧
     ∀ i r, (i < num_of_robot)%nat → robot_state !! i = Some r →
       ∃ robot, json_dict !! i = Some robot ∧
         Vis.id robot = Robot.id r ∧ Vis.usr_led robot = Robot.usr_led r ∧
         Vis.pos_x robot = Robot.pos_x r ∧ Vis.pos_y robot = Robot.pos_y r ∧
         - Float.np_pi rnd <= Vis.angle robot <= Float.np_pi rnd) ∧
  ((length robot_state < num_of_robot)%nat →
   Vis.conv_to_json rnd robot_state num_of_robot = None).
Proof.
  set (val := λ (_ : nat) (r : BotDiffDrive),
         Vis.mkSim (Robot.id r) (Robot.usr_led r) (Robot.pos_x r) (Robot.pos_y r)
                   (Float.wrap rnd (pos_angle r))).
  split.
  - intros Hn.
    destruct (for_each_table (λ i : nat, i) val robot_state
                (λ i json_dict, r ← robot_state !! i; Some (<[i := val i r]> json_dict))
                ltac:(by intros ? ?) ltac:(done) num_of_robot Hn)
      as (json_dict & Hrun & Hin & Hout).
    exists json_dict. split; [exact Hrun|]. split.
    + intros i Hi. destruct (json_dict !! i) eqn:Hl; [|done].
      destruct (Hout i) as (j & Hj & ->); [by eexists|lia].
    + intros i r Hi Hr. rewrite (Hin i Hi), Hr. eexists. split; [done|].
      cbn [val Vis.id Vis.usr_led Vis.pos_x Vis.pos_y Vis.angle].
      split_and!; try done; apply (wrap_range rnd eps eta Hrnd).
  - intros Hn.
    apply (for_each_table_raises (λ i : nat, i) val robot_state
             (λ i json_dict, r ← robot_state !! i; Some (<[i := val i r]> json_dict))
             ltac:(done) num_of_robot Hn).
Qed.

(** X21: [convert_list_to_dict] runs to its end on every list; the
    dictionary holds under the decimal numeral of [i] element [i] of the
    list, and has no key that is not the numeral of an index of the
    list. *)
Theorem convert_list_to_dict_lookup {A : Type} (lst : list A) :
  ∃ res_dct, Vis.convert_list_to_dict lst = Some res_dct ∧
    (∀ i : nat, res_dct !! pretty i = lst !! i) ∧
    (∀ k, is_Some (res_dct !! k) → ∃ i : nat, (i < length lst)%nat ∧ k = pretty i).
Proof.
  destruct (for_each_table (λ i : nat, pretty i) (λ (_ : nat) (x : A), x) lst
              (λ i res_dct, x ← lst !! i; Some (<[pretty i := x]> res_dct))
              _ ltac:(done) (length lst) ltac:(done))
    as (res_dct & Hrun & Hin & Hout).
  exists res_dct. split; [exact Hrun|]. split; [|done].
  intros i. destruct (decide (i < length lst)%nat) as [Hi|Hi].
  - rewrite (Hin i Hi). by destruct (lst !! i).
  - rewrite (lookup_ge_None_2 lst i) by lia.
    destruct (res_dct !! pretty i) eqn:Hl; [|done].
    destruct (Hout (pretty i)) as (j & Hj & Heq); [by eexists|].
    apply (inj pretty) in Heq. lia.
Qed.

(** X22: [transform_from_map_to_base] moves the centre of the arena to the
    origin and is a translation: it keeps the distance between any two
    points, and the angle. *)
Theorem transform_is_translation (arena_length arena_width x1 y1 a1 x2 y2 a2 : R) :
  let p := transform_from_map_to_base arena_length arena_width x1 y1 a1 in
  let q := transform_from_map_to_base arena_length arena_width x2 y2 a2 in
  dist p.1.1 p.1.2 q.1.1 q.1.2 = dist x1 y1 x2 y2 ∧
  p.2 = a1 ∧
  transform_from_map_to_base arena_length arena_width
    (arena_length / 2) (arena_width / 2) a1 = (0, 0, a1).
Proof.
  unfold transform_from_map_to_base, dist. cbn [fst snd]. split_and!.
  - f_equal. ring.
  - done.
  - f_equal. f_equal; field.
Qed.

End vis_extras.

Section vis_extras_runs.
Import Scenario.

Lemma conv_to_json_table_witness :
  ∃ json_dict, Vis.conv_to_json (Float.to_grid 1024) near_pair 2 = Some json_dict ∧
    (∀ i, (2 ≤ i)%nat → json_dict !! i = None) ∧
    ∀ i r, (i < 2)%nat → near_pair !! i = Some r →
      ∃ robot, json_dict !! i = Some robot ∧
        Vis.id robot = Robot.id r ∧ Vis.usr_led robot = Robot.usr_led r ∧
        Vis.pos_x robot = Robot.pos_x r ∧ Vis.pos_y robot = Robot.pos_y r ∧
        (- Float.np_pi (Float.to_grid 1024) <= Vis.angle robot
         <= Float.np_pi (Float.to_grid 1024))%R.
Proof.
  apply (proj1 (conv_to_json_table (Float.to_grid 1024) 0 (1 / (2 * 1024))
                  (grid_rounding 1024 ltac:(lia)) near_pair 2)).
  simpl. lia.
Defined.

End vis_extras_runs.

(** ** The relaxation at the end of [initialize_robots] *)

Section admission_extras.
Context (config : Configuration).
Local Open Scope R_scope.

Local Abbreviation D := (robot_diameter config).






End admission_extras.

Section admission_extras_runs.
Import Scenario Scenario2.
Local Open Scope R_scope.



End admission_extras_runs.

(** ** The pacing of [loop] *)

Section pacing_extras.
Context (rnd : R → R) (eps eta : R) (Hrnd : Float.Rounding rnd eps eta).
Local Open Scope R_scope.

(** With a positive time allowance no division fails. *)
Lemma pace_run T_sim T_real elapsed c :
  0 < T_real →
  pace rnd T_sim T_real elapsed c
  = Some (if decide (elapsed < T_real)
          then mkClock (rnd (real_time_curr c + T_real)) (rnd (T_sim / T_real)) (notslept c)
                       (elapsedDIffList c)
                       (if decide (rnd (T_real - elapsed) > 0)
                        then slept c ++ [rnd (T_real - elapsed)] else slept c)
          else mkClock (rnd (real_time_curr c + elapsed)) (rnd (T_sim / elapsed))
                       (S (notslept c)) (elapsedDIffList c ++ [elapsed]) (slept c)).
Proof.
  intros Hreal. unfold pace, py_div. case_decide.
  - by rewrite (decide_False (P := T_real = 0)) by lra.
  - by rewrite (decide_False (P := elapsed = 0)) by lra.
Qed.

(** X25: one iteration's pacing, in the arithmetic of doubles whatever the
    rounding.  With a positive [T_real] and a real time that is a double,
    the pacing runs to its end without a division by zero; the real time
    does not go back and is a double again; an iteration that took at
    least [T_real] is counted and listed as an overrun and does not sleep;
    any other iteration is not counted and sleeps at most once, for the
    rounded difference [T_real - elapsed], and only if that is positive. *)
Theorem pace_one_iteration (T_sim T_real elapsed : R) (c : Clock)
    (Hreal : 0 < T_real)
    (Hclock : rnd (real_time_curr c) = real_time_curr c) :
  ∃ c', pace rnd T_sim T_real elapsed c = Some c' ∧
        real_time_curr c <= real_time_curr c' ∧
        rnd (real_time_curr c') = real_time_curr c' ∧
        notslept c' = (if decide (elapsed < T_real) then notslept c else S (notslept c)) ∧
        elapsedDIffList c'
        = (if decide (elapsed < T_real) then elapsedDIffList c
           else elapsedDIffList c ++ [elapsed]) ∧
        (slept c' = slept c ∨
         (elapsed < T_real ∧ 0 < rnd (T_real - elapsed) ∧
          slept c' = slept c ++ [rnd (T_real - elapsed)])).
Proof.
  rewrite pace_run by done. eexists. split; [done|].
  destruct (decide (elapsed < T_real)) as [He|He];
    cbn [real_time_curr notslept elapsedDIffList slept].
  - split_and!; [| |done|done|].
    + rewrite <- Hclock at 1. apply (Float.rnd_mono _ _ _ Hrnd). lra.
    + apply (Float.rnd_idem _ _ _ Hrnd).
    + case_decide; [right; split_and!; [done|lra|done]|by left].
  - split_and!; [| |done|done|by left].
    + rewrite <- Hclock at 1. apply (Float.rnd_mono _ _ _ Hrnd). lra.
    + apply (Float.rnd_idem _ _ _ Hrnd).
Qed.

(** X26: the pacing over the iterations, in the arithmetic of doubles
    whatever the rounding.  With a real-time factor that is not zero, a
    positive [T_real = T_sim / real_time_factor] and a real time that is a
    double, the pacing of any number of iterations runs to its end; the
    real time does not go back; the iterations that took at least [T_real]
    are counted and listed in their order; and the calls of [time.sleep]
    are at most one for each other iteration, each for a positive time. *)
Theorem pace_counts_overruns (T_sim real_time_factor : R) (elapsed : list R) (c : Clock)
    (Hfactor : real_time_factor ≠ 0)
    (Hreal : 0 < rnd (T_sim / real_time_factor))
    (Hclock : rnd (real_time_curr c) = real_time_curr c) :
  let T_real := rnd (T_sim / real_time_factor) in
  ∃ c', pace_loop rnd T_sim real_time_factor elapsed c = Some c' ∧
        real_time_curr c <= real_time_curr c' ∧
        notslept c' = (notslept c + length (filter (λ e, (T_real <= e)%R) elapsed))%nat ∧
        elapsedDIffList c' = elapsedDIffList c ++ filter (λ e, T_real <= e) elapsed ∧
        ∃ naps, slept c' = slept c ++ naps ∧ Forall (λ d, 0 < d) naps ∧
                (length naps ≤ length (filter (λ e, (e < T_real)%R) elapsed))%nat.
Proof.
  intros T_real. unfold pace_loop, py_div. rewrite decide_False by done.
  cbn [mbind option_bind]. fold T_real.
  revert c Hclock. induction elapsed as [|e elapsed IH]; intros c Hclock.
  - exists c. cbn [for_each length filter list_filter]. rewrite !app_nil_r.
    split_and!; [done|lra|lia|done|]. exists []. rewrite app_nil_r.
    split_and!; [done|constructor|simpl; lia].
  - cbn [for_each].
    destruct (pace_one_iteration T_sim T_real e c Hreal Hclock)
      as (c1 & -> & Htime1 & Hclock1 & Hcount1 & Hlist1 & Hslept1).
    cbn [mbind option_bind].
    destruct (IH c1 Hclock1) as (c' & -> & Htime & Hcount & Hlist & naps & Hslept & Hpos & Hlen).
    exists c'. split; [done|]. rewrite !filter_cons.
    destruct (decide (e < T_real)) as [He|He].
    + rewrite decide_False by lra. split_and!; [lra|lia|congruence|].
      destruct Hslept1 as [Heq|(_ & Hnap & Heq)].
      * exists naps. rewrite Hslept, Heq. split_and!; [done|done|simpl; lia].
      * exists (rnd (T_real - e) :: naps). rewrite Hslept, Heq, <- app_assoc.
        split_and!; [done|by constructor|simpl; lia].
    + rewrite decide_True by lra. split_and!; [lra|cbn [length]; lia| |].
      * rewrite Hlist, Hlist1. by rewrite <- app_assoc.
      * destruct Hslept1 as [Heq|(? & _)]; [|lra].
        exists naps. rewrite Hslept, Heq. done.
Qed.

End pacing_extras.

Section pacing_extras_runs.
Import Scenario2.
Local Open Scope R_scope.

(** In fixed-point arithmetic with a step of 1/1024: an allowance of 1/8,
    an iteration that took 1/16. *)
Lemma pace_one_iteration_witness :
  ∃ c', pace (Float.to_grid 1024) (1 / 4) (1 / 8) (1 / 16) clock0 = Some c' ∧
        real_time_curr clock0 <= real_time_curr c' ∧
        Float.to_grid 1024 (real_time_curr c') = real_time_curr c' ∧
        notslept c'
        = (if decide (1 / 16 < 1 / 8) then notslept clock0 else S (notslept clock0)) ∧
        elapsedDIffList c'
        = (if decide (1 / 16 < 1 / 8) then elapsedDIffList clock0
           else elapsedDIffList clock0 ++ [1 / 16]) ∧
        (slept c' = slept clock0 ∨
         (1 / 16 < 1 / 8 ∧ 0 < Float.to_grid 1024 (1 / 8 - 1 / 16) ∧
          slept c' = slept clock0 ++ [Float.to_grid 1024 (1 / 8 - 1 / 16)])).
Proof.
  pose proof (grid_rounding 1024 ltac:(lia)) as Hrnd.
  apply (pace_one_iteration (Float.to_grid 1024) 0 (1 / (2 * 1024)) Hrnd
           (1 / 4) (1 / 8) (1 / 16) clock0).
  - lra.
  - simpl. apply (rnd_zero _ _ _ Hrnd).
Defined.

(** ... and two iterations, the second of which took 1/2: with a time step
    of 1/4 and a factor of 2 the allowance is 1/8. *)
Lemma pace_counts_overruns_witness :
  let T_real := Float.to_grid 1024 (1 / 4 / 2) in
  ∃ c', pace_loop (Float.to_grid 1024) (1 / 4) 2 laps clock0 = Some c' ∧
        real_time_curr clock0 <= real_time_curr c' ∧
        notslept c'
        = (notslept clock0 + length (filter (λ e, (T_real <= e)%R) laps))%nat ∧
        elapsedDIffList c' = elapsedDIffList clock0 ++ filter (λ e, T_real <= e) laps ∧
        ∃ naps, slept c' = slept clock0 ++ naps ∧ Forall (λ d, 0 < d) naps ∧
                (length naps ≤ length (filter (λ e, (e < T_real)%R) laps))%nat.
Proof.
  pose proof (grid_rounding 1024 ltac:(lia)) as Hrnd.
  apply (pace_counts_overruns (Float.to_grid 1024) 0 (1 / (2 * 1024)) Hrnd
           (1 / 4) 2 laps clock0).
  - lra.
  - unfold Float.to_grid.
    replace (1 / 4 / 2 * 1024) with (IZR 128) by lra.
    rewrite nearest_IZR. lra.
  - simpl. apply (rnd_zero _ _ _ Hrnd).
Defined.

End pacing_extras_runs.
